(** * Hel: tensor core, row-wise Q4 codec, GEMM kernels and causal attention

    A shallow embedding of the numeric core of the Hel inference engine
    (tensor.cpp, alloc.cpp, kernels/q4_rowwise.cpp, kernels/gemm_ref.cpp,
    kernels/optimized/simd_gemm.cpp, kernels/optimized/flash_attention.cpp)
    and the properties its specification states about it.

    Conventions of the embedding.
    - [int] is a 32-bit signed integer and [size_t] a 64-bit unsigned one;
      both are carried by [Z] and the wrap-around of every arithmetic step
      that can leave the range is written out ([wrap_int], [wrap_size]).
      Signed overflow is undefined in C++; the model takes the
      two's-complement result of the machine multiplication.
    - [uint8_t] is a [Z] in [0, 256); nibbles are taken with [Z.land] and
      [Z.shiftr].
    - [float] is an abstract scalar type with the operations the kernels
      use (classes [Arith] and [Scalar]).  Structural properties are proved
      for every scalar type; algebraic ones are proved for exact arithmetic
      (commutative-semiring laws, or the reals), and the agreement of the
      Q4 kernels also under the standard model of rounding
      ([Rounded_Arith]).  Overflow, underflow and NaN are outside the model.
    - a C array is a [list]; loops are folds over the index range, and
      every store is an explicit update of the list. *)

From Stdlib Require Import ZArith List Bool Lia String Reals Lra.
Import ListNotations.

Local Open Scope Z_scope.

(** ** Machine integers *)

Definition wrap_int (x : Z) : Z := (x + 2 ^ 31) mod 2 ^ 32 - 2 ^ 31.
Definition wrap_size (x : Z) : Z := x mod 2 ^ 64.

Definition is_int (x : Z) : Prop := - 2 ^ 31 <= x < 2 ^ 31.

(** Exceptions: the code throws [std::runtime_error] with a message. *)
Inductive exn : Type :=
| runtime_error (what : string).

Definition result (A : Type) : Type := (exn + A)%type.

(** ** Tensor (tensor.hpp, tensor.cpp) *)

Inductive DType : Type := FP32 | FP16 | INT8 | Q4.

(** [E] is the cell type through which the buffer is observed: [uint8_t]
    for [raw()] and [memcpy], [float] for [data<float>()]. *)
Record Tensor (E : Type) : Type := mkTensor {
  shape_ : list Z;
  dtype_ : DType;
  numel_ : Z;
  byte_size_ : Z;
  data_ : list E
}.
Arguments mkTensor {E}.
Arguments shape_ {E}.
Arguments dtype_ {E}.
Arguments numel_ {E}.
Arguments byte_size_ {E}.
Arguments data_ {E}.

Definition uint8_t : Type := Z.

(** [std::multiplies<int>] applied to the [unsigned long] accumulator and an
    element: both operands are converted to [int], the product is an [int],
    and storing it back converts to [unsigned long]. *)
Definition multiplies_int (acc x : Z) : Z :=
  wrap_size (wrap_int (wrap_int acc * wrap_int x)).

Definition calculate_numel (shape : list Z) : Z :=
  match shape with
  | [] => 0
  | _ => fold_left multiplies_int shape 1
  end.

Definition calculate_byte_size (numel : Z) (dtype : DType) : Z :=
  match dtype with
  | FP32 => wrap_size (numel * 4)
  | FP16 => wrap_size (numel * 2)
  | INT8 => wrap_size (numel * 1)
  | Q4 => wrap_size (numel + 1) / 2
  end.

(** [Tensor::Tensor(shape, dtype)]: [std::make_unique<uint8_t[]>] value-
    initialises the buffer, so it holds [byte_size_] zero bytes.  Failure of
    the allocation ([std::bad_alloc]) is not modelled. *)
Definition Tensor_new (shape : list Z) (dtype : DType) : Tensor uint8_t :=
  let numel := calculate_numel shape in
  let byte_size := calculate_byte_size numel dtype in
  mkTensor shape dtype numel byte_size (repeat 0 (Z.to_nat byte_size)).

(** [std::memcpy(dst, src, n)] on byte buffers. *)
Definition memcpy {A} (dst src : list A) (n : Z) : list A :=
  firstn (Z.to_nat n) src ++ skipn (Z.to_nat n) dst.

Definition reshape (t : Tensor uint8_t) (new_shape : list Z)
  : result (Tensor uint8_t) :=
  let new_numel := calculate_numel new_shape in
  if negb (new_numel =? numel_ t) then
    inl (runtime_error "Cannot reshape: total elements don't match")
  else
    let reshaped := Tensor_new new_shape (dtype_ t) in
    inr (mkTensor (shape_ reshaped) (dtype_ reshaped) (numel_ reshaped)
           (byte_size_ reshaped)
           (memcpy (data_ reshaped) (data_ t) (byte_size_ t))).

(** The class invariant every constructor establishes and every member
    keeps: the cached sizes agree with the shape and the buffer has
    [byte_size_] bytes. *)
Definition tensor_wf (t : Tensor uint8_t) : Prop :=
  numel_ t = calculate_numel (shape_ t) /\
  byte_size_ t = calculate_byte_size (numel_ t) (dtype_ t) /\
  Z.of_nat (List.length (data_ t)) = byte_size_ t.

Definition product (shape : list Z) : Z := fold_right Z.mul 1 shape.

(** The element count the specification names: the product of the
    dimensions, and [0] for the empty shape. *)
Definition spec_numel (shape : list Z) : Z :=
  match shape with
  | [] => 0
  | _ => product shape
  end.

(** ** Aligned allocation and the tensor pool (alloc.hpp, alloc.cpp) *)

(** The system allocator behind [posix_memalign]: a bump pointer that
    hands out fresh aligned blocks and records the live ones.  Allocation
    failure ([std::bad_alloc]) is not modelled. *)
Record Heap : Type := mkHeap {
  next_block : Z;
  live : list Z
}.

Definition align_up (p alignment : Z) : Z :=
  (p + alignment - 1) / alignment * alignment.

Definition nullptr : Z := 0.

Definition AlignedAllocator_allocate (h : Heap) (size alignment : Z)
  : Heap * Z :=
  if size =? 0 then (h, nullptr)
  else
    let ptr := align_up (next_block h) alignment in
    (mkHeap (ptr + size) (ptr :: live h), ptr).

Definition AlignedAllocator_deallocate (h : Heap) (ptr : Z) : Heap :=
  if ptr =? nullptr then h
  else mkHeap (next_block h) (filter (fun p => negb (p =? ptr)) (live h)).

(** A chunk; the [next] pointer of the source is the tail of the list. *)
Record Chunk : Type := mkChunk {
  data : Z;
  size : Z
}.

Record TensorPool : Type := mkTensorPool {
  head_ : list Chunk;
  total_allocated_ : Z;
  total_used_ : Z
}.

Definition TensorPool_new (h : Heap) (initial_size : Z) : Heap * TensorPool :=
  let '(h', ptr) := AlignedAllocator_allocate h initial_size 32 in
  (h', mkTensorPool [mkChunk ptr initial_size] initial_size 0).

(** The first-fit walk of [TensorPool::allocate]: the first chunk with
    [size >= size] and a non-null [data] is taken; an oversized chunk gets
    a remainder chunk linked after it; the taken chunk is marked by
    [data = nullptr] and [size = 0]. *)
Fixpoint first_fit (chunks : list Chunk) (sz : Z)
  : option (Z * list Chunk) :=
  match chunks with
  | [] => None
  | current :: rest =>
      if (sz <=? size current) && negb (data current =? nullptr) then
        let result := data current in
        let rest' :=
          if sz <? size current
          then mkChunk (data current + sz) (size current - sz) :: rest
          else rest in
        Some (result, mkChunk nullptr 0 :: rest')
      else
        match first_fit rest sz with
        | Some (result, rest') => Some (result, current :: rest')
        | None => None
        end
  end.

(** [TensorPool::allocate]; [fuel] bounds the depth of the recursive call
    made after a new chunk has been linked in. *)
Fixpoint TensorPool_allocate (fuel : nat) (h : Heap) (p : TensorPool) (sz : Z)
  : option (Heap * TensorPool * Z) :=
  match first_fit (head_ p) sz with
  | Some (result, chunks) =>
      Some (h, mkTensorPool chunks (total_allocated_ p)
                 (wrap_size (total_used_ p + sz)), result)
  | None =>
      match fuel with
      | O => None
      | S fuel' =>
          let new_size := Z.max sz (total_allocated_ p / 2) in
          let '(h', ptr) := AlignedAllocator_allocate h new_size 32 in
          TensorPool_allocate fuel' h'
            (mkTensorPool (mkChunk ptr new_size :: head_ p)
               (wrap_size (total_allocated_ p + new_size))
               (total_used_ p))
            sz
      end
  end.

Definition TensorPool_reset (p : TensorPool) : TensorPool :=
  mkTensorPool (map (fun _ => mkChunk nullptr 0) (head_ p))
    (total_allocated_ p) 0.

(** A chunk is free for a request when the first-fit test accepts it. *)
Definition chunk_fits (sz : Z) (c : Chunk) : bool :=
  (sz <=? size c) && negb (data c =? nullptr).

(** ** Scalars: the operations the kernels perform on [float] *)

Class Arith (F : Type) : Type := {
  fzero : F;
  fone : F;
  fadd : F -> F -> F;
  fmul : F -> F -> F;
  (** [static_cast<float>(int8_t)] *)
  of_int8 : Z -> F
}.

Class Scalar (F : Type) : Type := {
  scalar_arith :: Arith F;
  fsub : F -> F -> F;
  fdiv : F -> F -> F;
  (** [std::exp] *)
  fexp : F -> F;
  (** [a < b] *)
  fltb : F -> F -> bool;
  (** the integer [std::round] returns (halfway cases away from zero) *)
  fround : F -> Z
}.

(** Exact arithmetic on integers: the floats that hold small integers, on
    which [+] and [*] are exact.  It makes the division-free kernels
    executable. *)
#[export] Instance Z_Arith : Arith Z := {|
  fzero := 0;
  fone := 1;
  fadd := Z.add;
  fmul := Z.mul;
  of_int8 := fun z => z
|}.

Definition Rltb (a b : R) : bool := if Rlt_dec a b then true else false.

Definition Rround (x : R) : Z :=
  if Rle_dec 0 x then Zfloor (x + / 2) else - Zfloor (- x + / 2).

#[export] Instance R_Arith : Arith R := {|
  fzero := 0%R;
  fone := 1%R;
  fadd := Rplus;
  fmul := Rmult;
  of_int8 := IZR
|}.

(** Exact real arithmetic. *)
#[export] Instance R_Scalar : Scalar R := {|
  scalar_arith := R_Arith;
  fsub := Rminus;
  fdiv := Rdiv;
  fexp := exp;
  fltb := Rltb;
  fround := Rround
|}.

(** The laws of exact arithmetic the codec equivalence needs: a
    commutative semiring. *)
Class ArithLaws (F : Type) `{Arith F} : Prop := {
  fadd_0_l : forall x, fadd fzero x = x;
  fadd_0_r : forall x, fadd x fzero = x;
  fadd_assoc : forall x y z, fadd x (fadd y z) = fadd (fadd x y) z;
  fadd_comm : forall x y, fadd x y = fadd y x;
  fmul_0_l : forall x, fmul fzero x = fzero;
  fmul_0_r : forall x, fmul x fzero = fzero;
  fmul_1_l : forall x, fmul fone x = x;
  fmul_assoc : forall x y z, fmul x (fmul y z) = fmul (fmul x y) z;
  fmul_comm : forall x y, fmul x y = fmul y x;
  fmul_add_distr_l : forall x y z,
    fmul x (fadd y z) = fadd (fmul x y) (fmul x z)
}.

(** ** Arrays and loops *)

(** [a[i]]: a read outside the array is undefined in C++; the model
    returns the default [d]. *)
Definition get {A} (d : A) (a : list A) (i : Z) : A :=
  if i <? 0 then d else nth (Z.to_nat i) a d.

Fixpoint set_nth {A} (a : list A) (n : nat) (x : A) : list A :=
  match a, n with
  | [], _ => []
  | _ :: a', O => x :: a'
  | y :: a', S n' => y :: set_nth a' n' x
  end.

(** [a[i] = x]: a store outside the array is undefined in C++; the model
    leaves the array as it is. *)
Definition set {A} (a : list A) (i : Z) (x : A) : list A :=
  if i <? 0 then a else set_nth a (Z.to_nat i) x.

(** The values [lo, lo+step, ...] below [hi]: the iterations of
    [for (i = lo; i < hi; i += step)]. *)
Fixpoint range_from (n : nat) (lo step : Z) : list Z :=
  match n with
  | O => []
  | S n' => lo :: range_from n' (lo + step) step
  end.

Definition range_step (lo hi step : Z) : list Z :=
  range_from (Z.to_nat ((hi - lo + step - 1) / step)) lo step.

Definition range (lo hi : Z) : list Z :=
  range_from (Z.to_nat (hi - lo)) lo 1.

(** [for_ idx body s]: the loop body run on each index in turn. *)
Definition for_ {S} (idx : list Z) (body : Z -> S -> S) (s : S) : S :=
  fold_left (fun acc i => body i acc) idx s.

(** ** Row-wise Q4 codec (kernels/q4_rowwise.hpp, q4_rowwise.cpp) *)

Definition to_int8 (x : Z) : Z := (x + 128) mod 256 - 128.
Definition to_uint8 (x : Z) : Z := x mod 256.

Definition decode_q4_signed (nib : Z) : Z :=
  if negb (Z.land nib 8 =? 0) then to_int8 (nib - 16) else to_int8 nib.

(** The nibble of element [(m, k)]: byte [(m*K+k)/2], low half for even
    [k], high half for odd [k]. *)
Definition nibble_at (qweights : list uint8_t) (m K k : Z) : Z :=
  let packed_byte := get 0 qweights (Z.quot (m * K + k) 2) in
  if Z.rem k 2 =? 0 then Z.land packed_byte 15 else Z.shiftr packed_byte 4.

(** The signed 4-bit value of element [(m, k)]. *)
Definition signed_nibble (qweights : list uint8_t) (m K k : Z) : Z :=
  decode_q4_signed (nibble_at qweights m K k).

Section Q4.
Context {F : Type} `{Arith F}.

Definition matvec_q4_rowwise (qweights : list uint8_t) (scales x y : list F)
    (M K : Z) : list F :=
  for_ (range 0 M) (fun m y =>
    let sum :=
      for_ (range 0 K) (fun k sum =>
        let nib := nibble_at qweights m K k in
        let dequant := decode_q4_signed nib in
        fadd sum (fmul (of_int8 dequant) (get fzero x k))) fzero in
    set y m (fmul (get fzero scales m) sum)) y.

Definition dequantize_q4_rowwise (qweights : list uint8_t)
    (scales out : list F) (M K : Z) : list F :=
  for_ (range 0 M) (fun m out =>
    for_ (range 0 K) (fun k out =>
      let nib := nibble_at qweights m K k in
      let dequant := decode_q4_signed nib in
      set out (m * K + k) (fmul (of_int8 dequant) (get fzero scales m)))
      out) out.
End Q4.

(** [std::max(int8_t(-8), std::min(int8_t(7), q))] *)
Definition clamp_q4 (q : Z) : Z := Z.max (-8) (Z.min 7 q).

Section Q4Pack.
Context {F : Type} `{Scalar F}.

(** One weight: [q = static_cast<int8_t>(std::round(w / scale))], then the
    clamp.  The conversion of a float outside the range of [int8_t] is
    undefined in C++; the model keeps the low 8 bits of the integer, as
    the machine conversion followed by the narrowing store does. *)
Definition quantize_q4 (w scale : F) : Z :=
  let q := to_int8 (fround (fdiv w scale)) in
  clamp_q4 q.

Definition pack_q4_rowwise (weights scales : list F)
    (qweights : list uint8_t) (scales_out : list F) (M K : Z)
  : list uint8_t * list F :=
  (* std::copy(scales, scales + M, scales_out) *)
  let scales_out :=
    for_ (range 0 M) (fun i so => set so i (get fzero scales i))
      scales_out in
  let qweights :=
    for_ (range 0 M) (fun m qw =>
      for_ (range_step 0 K 2) (fun k qw =>
        let byte := 0 in
        let q1 := quantize_q4 (get fzero weights (m * K + k))
                    (get fzero scales_out m) in
        let byte := to_uint8 (Z.lor byte (Z.land (to_uint8 q1) 15)) in
        let byte :=
          if k + 1 <? K then
            let q2 := quantize_q4 (get fzero weights (m * K + k + 1))
                        (get fzero scales_out m) in
            to_uint8
              (Z.lor byte (Z.shiftl (Z.land (to_uint8 q2) 15) 4))
          else byte in
        set qw (Z.quot (m * K + k) 2) byte) qw) qweights in
  (qweights, scales_out).
End Q4Pack.

(** ** Typed access to a tensor ([Tensor::data<T>]) *)

Definition element_size (dtype : DType) : Z :=
  match dtype with
  | FP32 => 4
  | FP16 => 2
  | INT8 => 1
  | Q4 => 0   (* [return 0.5] converted to [size_t] *)
  end.

(** [data<float>()]: [sizeof(float)] is 4. *)
Definition data_float {F} (t : Tensor F) : result (list F) :=
  match dtype_ t with
  | Q4 =>
      inl (runtime_error "Q4 tensors should use raw() access for uint8_t data")
  | d =>
      if negb (4 =? element_size d)
      then inl (runtime_error "Type size mismatch")
      else inr (data_ t)
  end.

Definition with_data {F} (t : Tensor F) (xs : list F) : Tensor F :=
  mkTensor (shape_ t) (dtype_ t) (numel_ t) (byte_size_ t) xs.

Definition bind {A B} (r : result A) (k : A -> result B) : result B :=
  match r with
  | inl e => inl e
  | inr a => k a
  end.

Notation "x <- r ;; k" := (bind r (fun x => k))
  (at level 61, r at next level, right associativity).

Definition dim (shape : list Z) (i : nat) : Z := nth i shape 0.

(** ** Reference GEMM (kernels/gemm_ref.cpp) *)

Section Gemm.
Context {F : Type} `{Arith F}.

Definition simple_matmul (A B C : list F) (M K N : Z) (alpha beta : F)
  : list F :=
  for_ (range 0 M) (fun m C =>
    for_ (range 0 N) (fun n C =>
      let sum :=
        for_ (range 0 K) (fun k sum =>
          fadd sum (fmul (get fzero A (m * K + k)) (get fzero B (k * N + n))))
          fzero in
      set C (m * N + n)
        (fadd (fmul alpha sum) (fmul beta (get fzero C (m * N + n))))) C) C.

Definition GemmRef_validate_shapes (A B C : Tensor F) : result unit :=
  let shape_A := shape_ A in
  let shape_B := shape_ B in
  let shape_C := shape_ C in
  if negb (List.length shape_A =? 2)%nat || negb (List.length shape_B =? 2)%nat
     || negb (List.length shape_C =? 2)%nat then
    inl (runtime_error "GEMM requires 2D tensors")
  else if negb (dim shape_A 1 =? dim shape_B 0) then
    inl (runtime_error "Matrix dimensions don't match for multiplication")
  else if negb (dim shape_A 0 =? dim shape_C 0)
          || negb (dim shape_B 1 =? dim shape_C 1) then
    inl (runtime_error "Output matrix dimensions don't match")
  else inr tt.

(** [GemmRef::matmul]; the updated [C] is returned. *)
Definition GemmRef_matmul (A B C : Tensor F) (alpha beta : F)
  : result (Tensor F) :=
  _ <- GemmRef_validate_shapes A B C ;;
  let M := dim (shape_ A) 0 in
  let K := dim (shape_ A) 1 in
  let N := dim (shape_ B) 1 in
  a <- data_float A ;;
  b <- data_float B ;;
  c <- data_float C ;;
  inr (with_data C (simple_matmul a b c M K N alpha beta)).

(** The fallback loop of [GemmRef::matvec]. *)
Definition matvec_loop (A_data x_data y_data : list F) (M K : Z)
    (alpha beta : F) : list F :=
  for_ (range 0 M) (fun m y_data =>
    let sum :=
      for_ (range 0 K) (fun k sum =>
        fadd sum (fmul (get fzero A_data (m * K + k)) (get fzero x_data k)))
        fzero in
    set y_data m
      (fadd (fmul alpha sum) (fmul beta (get fzero y_data m)))) y_data.

Definition GemmRef_matvec (A x y : Tensor F) (alpha beta : F)
  : result (Tensor F) :=
  let shape_A := shape_ A in
  let shape_x := shape_ x in
  let shape_y := shape_ y in
  if negb (List.length shape_A =? 2)%nat || negb (List.length shape_x =? 1)%nat
     || negb (List.length shape_y =? 1)%nat then
    inl (runtime_error "matvec requires A to be 2D and x, y to be 1D")
  else if negb (dim shape_A 1 =? dim shape_x 0)
          || negb (dim shape_A 0 =? dim shape_y 0) then
    inl (runtime_error "Matrix-vector dimensions don't match")
  else
    let M := dim shape_A 0 in
    let K := dim shape_A 1 in
    A_data <- data_float A ;;
    x_data <- data_float x ;;
    y_data <- data_float y ;;
    inr (with_data y (matvec_loop A_data x_data y_data M K alpha beta)).
End Gemm.

(** ** Vectorised GEMM (kernels/optimized/simd_gemm.cpp) *)

Section Simd.
Context {F : Type} `{Arith F}.

(** A vector register of [W] lanes ([__m256]: 8, [__m512]: 16). *)
Definition mm_setzero_ps (W : Z) : list F := repeat fzero (Z.to_nat W).

Definition mm_loadu_ps (W : Z) (a : list F) (i : Z) : list F :=
  map (fun j => get fzero a (i + j)) (range 0 W).

Definition mm_fmadd_ps (a b c : list F) : list F :=
  map (fun '(x, (y, z)) => fadd (fmul x y) z) (combine a (combine b c)).

(** The body shared by [matmul_avx2_f32] ([W = 8]) and
    [matmul_avx512_f32] ([W = 16]). *)
Definition matmul_simd_f32 (W : Z) (A B C : list F) (M K N : Z)
    (alpha beta : F) : list F :=
  let BLOCK_SIZE := W in
  for_ (range_step 0 M BLOCK_SIZE) (fun m C =>
    for_ (range_step 0 N BLOCK_SIZE) (fun n C =>
      for_ (range_step 0 K BLOCK_SIZE) (fun k C =>
        let m_end := Z.min (m + BLOCK_SIZE) M in
        let n_end := Z.min (n + BLOCK_SIZE) N in
        let k_end := Z.min (k + BLOCK_SIZE) K in
        for_ (range m m_end) (fun mm C =>
          for_ (range n n_end) (fun nn C =>
            (* for (; kk + W <= k_end; kk += W) *)
            let '(kk, sum) :=
              for_ (range_step k (k_end - (W - 1)) W)
                (fun kk '(_, sum) =>
                   let a_vec := mm_loadu_ps W A (mm * K + kk) in
                   let b_vec := mm_loadu_ps W B (kk * N + nn) in
                   (kk + W, mm_fmadd_ps a_vec b_vec sum))
                (k, mm_setzero_ps W) in
            (* for (; kk < k_end; ++kk) *)
            let sum_scalar :=
              for_ (range kk k_end) (fun kk sum_scalar =>
                fadd sum_scalar
                  (fmul (get fzero A (mm * K + kk))
                     (get fzero B (kk * N + nn)))) fzero in
            let total_sum :=
              for_ (range 0 W) (fun i total_sum =>
                fadd total_sum (get fzero sum i)) sum_scalar in
            set C (mm * N + nn)
              (fadd (fmul alpha total_sum)
                 (fmul beta (get fzero C (mm * N + nn))))) C) C) C) C) C.

Definition matmul_avx2_f32 := matmul_simd_f32 8.
Definition matmul_avx512_f32 := matmul_simd_f32 16.
End Simd.

(** ** Causal attention (kernels/optimized/flash_attention.cpp) *)

Record KVCache (F : Type) : Type := mkKVCache {
  keys : list (Tensor F);
  values : list (Tensor F);
  current_length : Z
}.
Arguments mkKVCache {F}.
Arguments keys {F}.
Arguments values {F}.
Arguments current_length {F}.

(** The members of [FlashAttention] that [forward] reads. *)
Record FlashAttention (F : Type) : Type := mkFlashAttention {
  hidden_size_ : Z;
  num_heads_ : Z;
  head_dim_ : Z;
  scale_ : F
}.
Arguments mkFlashAttention {F}.
Arguments hidden_size_ {F}.
Arguments num_heads_ {F}.
Arguments head_dim_ {F}.
Arguments scale_ {F}.

Section Attention.
Context {F : Type} `{Scalar F}.

(** [Tensor(shape, DType::FP32)] seen through [data<float>()]: [numel]
    floats, all [0.0f] (the all-zero bit pattern). *)
Definition Tensor_f32 (shape : list Z) : Tensor F :=
  let numel := calculate_numel shape in
  mkTensor shape FP32 numel (calculate_byte_size numel FP32)
    (repeat fzero (Z.to_nat numel)).

(** The running maximum starts at minus infinity, which is [None]; the
    scalars themselves are finite.  [std::max(a, b)] is [a < b ? b : a]. *)
Definition max_opt (max_score : option F) (score : F) : option F :=
  match max_score with
  | None => Some score
  | Some m => Some (if fltb m score then score else m)
  end.

(** [score - max_score].  The maximum is still minus infinity only for an
    empty window, over which the loop that subtracts has no iteration. *)
Definition sub_max (score : F) (max_score : option F) : F :=
  match max_score with
  | None => score
  | Some m => fsub score m
  end.

(** The dot product [Q[s] * K[t]] of batch element [b]. *)
Definition dot_row (q_data k_data : list F) (b s t seq_len head_dim : Z)
  : F :=
  for_ (range 0 head_dim) (fun d score =>
    let q_idx := b * seq_len * head_dim + s * head_dim + d in
    let k_idx := b * seq_len * head_dim + t * head_dim + d in
    fadd score (fmul (get fzero q_data q_idx) (get fzero k_data k_idx)))
    fzero.

(** First loop over the causal window [t <= s]: scaled scores and their
    maximum. *)
Definition score_pass (scale : F) (q_data k_data : list F)
    (b s seq_len head_dim : Z) (scores : list F) : option F * list F :=
  for_ (range 0 (s + 1)) (fun t '(max_score, scores) =>
    let score := dot_row q_data k_data b s t seq_len head_dim in
    let score := fmul score scale in
    let scores := set scores t score in
    (max_opt max_score score, scores)) (None, scores).

(** Second loop: exponentials and their sum. *)
Definition exp_pass (max_score : option F) (s : Z) (scores : list F)
  : F * list F :=
  for_ (range 0 (s + 1)) (fun t '(sum_exp, scores) =>
    let scores := set scores t (fexp (sub_max (get fzero scores t) max_score)) in
    (fadd sum_exp (get fzero scores t), scores)) (fzero, scores).

(** [if (sum_exp > 0)] normalise. *)
Definition normalize (sum_exp : F) (s : Z) (scores : list F) : list F :=
  if fltb fzero sum_exp then
    for_ (range 0 (s + 1)) (fun t scores =>
      set scores t (fdiv (get fzero scores t) sum_exp)) scores
  else scores.

(** The attention weights of query position [s]: the [scores] vector
    after the three loops. *)
Definition attention_weights (scale : F) (q_data k_data : list F)
    (b s seq_len head_dim : Z) : list F :=
  let scores := repeat fzero (Z.to_nat seq_len) in
  let '(max_score, scores) :=
    score_pass scale q_data k_data b s seq_len head_dim scores in
  let '(sum_exp, scores) := exp_pass max_score s scores in
  normalize sum_exp s scores.

Definition weighted_sum (scores v_data : list F) (b s d seq_len head_dim : Z)
  : F :=
  for_ (range 0 (s + 1)) (fun t weighted_sum =>
    let v_idx := b * seq_len * head_dim + t * head_dim + d in
    fadd weighted_sum (fmul (get fzero scores t) (get fzero v_data v_idx)))
    fzero.

(** The loop nest of [compute_attention] on the raw arrays. *)
Definition attention_loops (scale : F) (q_data k_data v_data : list F)
    (batch_size seq_len head_dim : Z) (output_data : list F) : list F :=
  for_ (range 0 batch_size) (fun b output_data =>
    for_ (range 0 seq_len) (fun s output_data =>
      let scores :=
        attention_weights scale q_data k_data b s seq_len head_dim in
      for_ (range 0 head_dim) (fun d output_data =>
        let output_idx := b * seq_len * head_dim + s * head_dim + d in
        set output_data output_idx
          (weighted_sum scores v_data b s d seq_len head_dim))
        output_data) output_data) output_data.

(** [FlashAttention::compute_attention].  The cache pointer is a
    parameter the body never dereferences: it is handed back as it came. *)
Definition compute_attention (fa : FlashAttention F)
    (Q K V output : Tensor F) (cache : option (KVCache F))
  : result (Tensor F) * option (KVCache F) :=
  let shape := shape_ Q in
  let batch_size := dim shape 0 in
  let seq_len := dim shape 1 in
  let head_dim := dim shape 2 in
  (q_data <- data_float Q ;;
   k_data <- data_float K ;;
   v_data <- data_float V ;;
   output_data <- data_float output ;;
   inr (with_data output
          (attention_loops (scale_ fa) q_data k_data v_data
             batch_size seq_len head_dim output_data)),
   cache).
End Attention.

(** Calls that may throw and that are handed the cache pointer: the cache
    is threaded as state, the exception ends the call. *)
Definition M (F A : Type) : Type :=
  option (KVCache F) -> result A * option (KVCache F).

Definition ret {F A} (a : A) : M F A := fun cache => (inr a, cache).
Definition throw {F A} (e : exn) : M F A := fun cache => (inl e, cache).
Definition lift {F A} (r : result A) : M F A := fun cache => (r, cache).

Definition mbind {F A B} (m : M F A) (k : A -> M F B) : M F B :=
  fun cache =>
    match m cache with
    | (inl e, cache') => (inl e, cache')
    | (inr a, cache') => k a cache'
    end.

Notation "x <~ m ;; k" := (mbind m (fun x => k))
  (at level 61, m at next level, right associativity).

Definition for_M {F S} (idx : list Z) (body : Z -> S -> M F S) (s : S)
  : M F S :=
  fold_left (fun acc i => mbind acc (body i)) idx (ret s).

Section Forward.
Context {F : Type} `{Scalar F}.

(** "Simple head extraction": the guarded copy of the slice of head
    [head] out of the three inputs. *)
Definition extract_head (query Q_head : Tensor F)
    (q_data k_data v_data : list F)
    (head batch_size seq_len hidden_size head_dim : Z)
    (heads : list F * list F * list F) : list F * list F * list F :=
  for_ (range 0 batch_size) (fun b heads =>
    for_ (range 0 seq_len) (fun s heads =>
      for_ (range 0 head_dim) (fun d '(q_head_data, k_head_data, v_head_data) =>
        let src_idx :=
          b * seq_len * hidden_size + s * hidden_size + head * head_dim + d in
        let dst_idx := b * seq_len * head_dim + s * head_dim + d in
        if (wrap_size src_idx <? numel_ query)
           && (wrap_size dst_idx <? numel_ Q_head) then
          (set q_head_data dst_idx (get fzero q_data src_idx),
           set k_head_data dst_idx (get fzero k_data src_idx),
           set v_head_data dst_idx (get fzero v_data src_idx))
        else (q_head_data, k_head_data, v_head_data)) heads) heads) heads.

(** "Copy back to output": the guarded copy of a head's result. *)
Definition copy_back (output head_output : Tensor F)
    (head_output_data : list F)
    (head batch_size seq_len hidden_size head_dim : Z)
    (output_data : list F) : list F :=
  for_ (range 0 batch_size) (fun b output_data =>
    for_ (range 0 seq_len) (fun s output_data =>
      for_ (range 0 head_dim) (fun d output_data =>
        let src_idx := b * seq_len * head_dim + s * head_dim + d in
        let dst_idx :=
          b * seq_len * hidden_size + s * hidden_size + head * head_dim + d in
        if (wrap_size src_idx <? numel_ head_output)
           && (wrap_size dst_idx <? numel_ output) then
          set output_data dst_idx (get fzero head_output_data src_idx)
        else output_data) output_data) output_data) output_data.

(** One iteration of the loop over heads. *)
Definition forward_head (fa : FlashAttention F) (query key value : Tensor F)
    (batch_size seq_len hidden_size : Z) (head : Z) (output : Tensor F)
  : M F (Tensor F) :=
  let head_shape := [batch_size; seq_len; head_dim_ fa] in
  let Q_head := Tensor_f32 head_shape in
  let K_head := Tensor_f32 head_shape in
  let V_head := Tensor_f32 head_shape in
  q_data <~ lift (data_float query) ;;
  k_data <~ lift (data_float key) ;;
  v_data <~ lift (data_float value) ;;
  q_head_data <~ lift (data_float Q_head) ;;
  k_head_data <~ lift (data_float K_head) ;;
  v_head_data <~ lift (data_float V_head) ;;
  let '(q_head_data, k_head_data, v_head_data) :=
    extract_head query Q_head q_data k_data v_data
      head batch_size seq_len hidden_size (head_dim_ fa)
      (q_head_data, k_head_data, v_head_data) in
  let Q_head := with_data Q_head q_head_data in
  let K_head := with_data K_head k_head_data in
  let V_head := with_data V_head v_head_data in
  let head_output := Tensor_f32 head_shape in
  head_output <~ compute_attention fa Q_head K_head V_head head_output ;;
  output_data <~ lift (data_float output) ;;
  head_output_data <~ lift (data_float head_output) ;;
  ret (with_data output
         (copy_back output head_output head_output_data
            head batch_size seq_len hidden_size (head_dim_ fa)
            output_data)).

(** [FlashAttention::forward]. *)
Definition forward (fa : FlashAttention F) (query key value : Tensor F)
  : M F (Tensor F) :=
  let q_shape := shape_ query in
  let k_shape := shape_ key in
  let v_shape := shape_ value in
  if negb (List.length q_shape =? 3)%nat || negb (List.length k_shape =? 3)%nat
     || negb (List.length v_shape =? 3)%nat then
    throw (runtime_error
             "FlashAttention requires 3D tensors [batch, seq, hidden]")
  else if negb (dim q_shape 0 =? dim k_shape 0)
          || negb (dim q_shape 0 =? dim v_shape 0) then
    throw (runtime_error "Batch size mismatch in attention inputs")
  else if negb (dim q_shape 2 =? dim k_shape 2)
          || negb (dim q_shape 2 =? dim v_shape 2) then
    throw (runtime_error "Hidden size mismatch in attention inputs")
  else
    let batch_size := dim q_shape 0 in
    let seq_len := dim q_shape 1 in
    let hidden_size := dim q_shape 2 in
    let output := Tensor_f32 [batch_size; seq_len; hidden_size] in
    for_M (range 0 (num_heads_ fa))
      (forward_head fa query key value batch_size seq_len hidden_size)
      output.
End Forward.

(** ** Notions used to state the properties *)

Section Q4Values.
Context {F : Type} `{Arith F}.

(** The value of element [(m, k)] after dequantisation. *)
Definition dequant_value (qweights : list uint8_t) (scales : list F)
    (m K k : Z) : F :=
  fmul (of_int8 (decode_q4_signed (nibble_at qweights m K k)))
    (get fzero scales m).
End Q4Values.

(** The sum of [f t] over [lo <= t < hi], accumulated left to right as the
    kernels do. *)
Definition sum_range {F} `{Arith F} (f : Z -> F) (lo hi : Z) : F :=
  for_ (range lo hi) (fun t acc => fadd acc (f t)) fzero.

(** The scaled score of key position [t] for query position [s]. *)
Definition score_at {F} `{Scalar F} (scale : F) (q_data k_data : list F)
    (b s t seq_len head_dim : Z) : F :=
  fmul (dot_row q_data k_data b s t seq_len head_dim) scale.

(** The specification's formula for the fused product:
    [y[m] = scale[m] * sum over k of signed_nibble(m,k) * x[k]]. *)
Definition spec_matvec_q4 {F} `{Arith F} (qweights : list uint8_t)
    (scales x : list F) (K m : Z) : F :=
  fmul (get fzero scales m)
    (sum_range (fun k => fmul (of_int8 (signed_nibble qweights m K k))
                           (get fzero x k)) 0 K).

(** A call that hands the cache back as it received it. *)
Definition keeps_cache {F A} (m : M F A) : Prop :=
  forall cache, snd (m cache) = cache.

(** The mismatches [forward] tests for: a rank other than 3, different
    batch sizes, different hidden sizes and, when there is a head to
    process, an input whose dtype is not FP32. *)
Definition checked_mismatch {F} (fa : FlashAttention F)
    (query key value : Tensor F) : Prop :=
  List.length (shape_ query) <> 3%nat \/
  List.length (shape_ key) <> 3%nat \/
  List.length (shape_ value) <> 3%nat \/
  dim (shape_ query) 0 <> dim (shape_ key) 0 \/
  dim (shape_ query) 0 <> dim (shape_ value) 0 \/
  dim (shape_ query) 2 <> dim (shape_ key) 2 \/
  dim (shape_ query) 2 <> dim (shape_ value) 2 \/
  (0 < num_heads_ fa /\
   (dtype_ query <> FP32 \/ dtype_ key <> FP32 \/ dtype_ value <> FP32)).

(** [f] fills the cells [lo, lo+len) of any array long enough, each cell
    [lo + j] with a value satisfying [P j], and touches nothing else. *)
Definition writes_block {A} (d : A) (f : list A -> list A) (lo len : Z)
    (P : Z -> A -> Prop) : Prop :=
  forall a, 0 <= lo -> lo + len <= Z.of_nat (List.length a) ->
    List.length (f a) = List.length a /\
    (forall j, 0 <= j < len -> P j (get d (f a) (lo + j))) /\
    (forall j, j < lo \/ lo + len <= j -> get d (f a) j = get d a j).

(** Floating-point arithmetic in the standard model of rounding error
    analysis: every operation returns the rounding [rnd] of its exact
    result; small integers convert exactly. *)
Definition Rounded_Arith (rnd : R -> R) : Arith R := {|
  fzero := 0%R;
  fone := 1%R;
  fadd := fun a b => rnd (a + b)%R;
  fmul := fun a b => rnd (a * b)%R;
  of_int8 := IZR
|}.

(** [(1 + u)^j - 1]: the relative error [j] roundings can accumulate. *)
Definition gamma (u : R) (j : nat) : R := ((1 + u) ^ j - 1)%R.

(** [f] updates the cells whose index is in [S], each from its old value
    [old] to a new value [new] with [P j old new], and touches no other
    cell; every index of [S] must lie inside the array. *)
Definition cellwise {A} (d : A) (f : list A -> list A) (S : Z -> Prop)
    (P : Z -> A -> A -> Prop) : Prop :=
  forall a,
    (forall j, S j -> 0 <= j < Z.of_nat (List.length a)) ->
    List.length (f a) = List.length a /\
    (forall j, S j -> P j (get d a j) (get d (f a) j)) /\
    (forall j, ~ S j -> get d (f a) j = get d a j).

(** ** Vectorised Q4 product and copy (kernels/optimized/simd_gemm.cpp) *)

Section SimdQ4.
Context {F : Type} `{Arith F}.

(** [_mm256_broadcast_ss]: the scalar in every lane. *)
Definition mm_broadcast_ss (W : Z) (x : F) : list F := repeat x (Z.to_nat W).

(** [matvec_q4_avx2].  [sum_vec] is the array of [BLOCK_SIZE] registers;
    [static_cast<float>] of the small integers [nib - 16] and [nib] is the
    conversion [of_int8]. *)
Definition matvec_q4_avx2 (qweights : list uint8_t) (scales x y : list F)
    (M K : Z) : list F :=
  let BLOCK_SIZE := 8 in
  for_ (range_step 0 M BLOCK_SIZE) (fun m y =>
    let sum_vec :=
      for_ (range 0 BLOCK_SIZE) (fun i sum_vec =>
        set sum_vec i (mm_setzero_ps 8))
        (repeat (mm_setzero_ps 8) (Z.to_nat BLOCK_SIZE)) in
    let m_end := Z.min (m + BLOCK_SIZE) M in
    let sum_vec :=
      for_ (range 0 K) (fun k sum_vec =>
        let x_vec := mm_broadcast_ss 8 (get fzero x k) in
        for_ (range m m_end) (fun mm sum_vec =>
          let nib := nibble_at qweights mm K k in
          let dequant_val :=
            if negb (Z.land nib 8 =? 0) then of_int8 (nib - 16)
            else of_int8 nib in
          let dequant_vec := mm_broadcast_ss 8 dequant_val in
          set sum_vec (mm - m)
            (mm_fmadd_ps dequant_vec x_vec (get [] sum_vec (mm - m))))
          sum_vec) sum_vec in
    for_ (range m m_end) (fun mm y =>
      let sum_ptr := get [] sum_vec (mm - m) in
      let total_sum :=
        for_ (range 0 8) (fun i total_sum =>
          fadd total_sum (get fzero sum_ptr i)) fzero in
      set y mm (fmul (get fzero scales mm) total_sum)) y) y.
End SimdQ4.

(** [std::memcpy(dst + off, src + off, n)]. *)
Definition memcpy_at {A} (dst src : list A) (off n : Z) : list A :=
  firstn (Z.to_nat off) dst
  ++ firstn (Z.to_nat n) (skipn (Z.to_nat off) src)
  ++ skipn (Z.to_nat (off + n)) dst.

(** [_mm256_load_ps] and [_mm256_store_ps] on the bytes behind the
    [float] pointers: a register holds 32 bytes. *)
Definition mm256_load_bytes (src : list uint8_t) (off : Z) : list uint8_t :=
  firstn 32 (skipn (Z.to_nat off) src).

Definition mm256_store_bytes (dst : list uint8_t) (off : Z)
    (reg : list uint8_t) : list uint8_t :=
  firstn (Z.to_nat off) dst ++ reg
  ++ skipn (Z.to_nat off + List.length reg) dst.

(** [memcpy_aligned]; [dst_addr] and [src_addr] are the addresses the two
    pointers hold. *)
Definition memcpy_aligned (dst_addr src_addr : Z) (dst src : list uint8_t)
    (size : Z) : list uint8_t :=
  if (32 <=? size) && (dst_addr mod 32 =? 0) && (src_addr mod 32 =? 0) then
    let num_chunks := size / 32 in
    let dst :=
      for_ (range 0 num_chunks) (fun i dst =>
        let data := mm256_load_bytes src (i * 8 * 4) in
        mm256_store_bytes dst (i * 8 * 4) data) dst in
    let remaining := size mod 32 in
    if 0 <? remaining then
      memcpy_at dst src (size - remaining) remaining
    else dst
  else memcpy dst src size.

(** ** The pool's destructor and a client's calls (alloc.cpp) *)

(** [TensorPool::~TensorPool]: [reset()], then the walk that hands every
    chunk's [data] to [AlignedAllocator::deallocate].  The heap is that of
    the aligned blocks; the chunk nodes themselves ([delete current]) are
    not part of it. *)
Definition TensorPool_destroy (h : Heap) (p : TensorPool) : Heap :=
  let p := TensorPool_reset p in
  fold_left (fun h current => AlignedAllocator_deallocate h (data current))
    (head_ p) h.

(** The calls a client makes on a pool. *)
Inductive PoolOp : Type :=
| Alloc (sz : Z)
| Reset.

(** The calls [ops] made in order; the result lists the blocks
    [(pointer, size)] that [allocate] handed out.  Each [allocate] may
    recurse once. *)
Fixpoint run_pool (h : Heap) (p : TensorPool) (ops : list PoolOp)
  : option (list (Z * Z)) :=
  match ops with
  | [] => Some []
  | Alloc sz :: ops =>
      match TensorPool_allocate 1 h p sz with
      | Some (h', p', ptr) =>
          match run_pool h' p' ops with
          | Some blocks => Some ((ptr, sz) :: blocks)
          | None => None
          end
      | None => None
      end
  | Reset :: ops => run_pool h (TensorPool_reset p) ops
  end.

(** Two blocks [(pointer, size)] that share no byte. *)
Definition disjoint_blocks (b1 b2 : Z * Z) : Prop :=
  fst b1 + snd b1 <= fst b2 \/ fst b2 + snd b2 <= fst b1.

Definition positive_sizes (ops : list PoolOp) : Prop :=
  Forall (fun op => match op with Alloc sz => 0 < sz | Reset => True end) ops.

(** Two chunks whose memory does not overlap; a taken chunk ([data] null)
    has none. *)
Definition chunks_disjoint (c1 c2 : Chunk) : Prop :=
  data c1 = nullptr \/ data c2 = nullptr \/
  data c1 + size c1 <= data c2 \/ data c2 + size c2 <= data c1.

(** The chunks with memory lie below the bound [B] and do not overlap. *)
Definition chunks_ok (B : Z) (chunks : list Chunk) : Prop :=
  (forall c, In c chunks -> data c <> nullptr ->
     0 < data c /\ data c + size c <= B) /\
  ForallOrdPairs chunks_disjoint chunks.

(** The invariant of a pool over a heap: its free memory lies below the
    heap's frontier. *)
Definition pool_inv (h : Heap) (p : TensorPool) : Prop :=
  0 < next_block h /\ chunks_ok (next_block h) (head_ p).

(** The block [b] lies in memory the pool can still hand out: inside a
    chunk with memory, or beyond the heap's frontier. *)
Definition available (h : Heap) (p : TensorPool) (b : Z * Z) : Prop :=
  (exists c, In c (head_ p) /\ data c <> nullptr /\
             data c <= fst b /\ fst b + snd b <= data c + size c) \/
  next_block h <= fst b.

(** [f] keeps the length of an array and every cell from index [bound]
    on. *)
Definition keeps_beyond {A} (d : A) (f : list A -> list A) (bound : Z)
  : Prop :=
  forall a,
    List.length (f a) = List.length a /\
    forall j, bound <= j -> get d (f a) j = get d a j.

(** ** Dtype names of the Safetensors loader (loaders/safetensors_loader.cpp) *)

Definition string_to_dtype (dtype_str : string) : result DType :=
  if String.eqb dtype_str "F32" then inr FP32
  else if String.eqb dtype_str "F16" then inr FP16
  else if String.eqb dtype_str "I8" then inr INT8
  else if String.eqb dtype_str "Q4" then inr Q4
  else inl (runtime_error (String.append "Unsupported dtype: " dtype_str)).

Definition dtype_to_string (dtype : DType) : string :=
  match dtype with
  | FP32 => "F32"
  | FP16 => "F16"
  | INT8 => "I8"
  | Q4 => "Q4"
  end.

(** ** The tokenizer (tokenizer/sentencepiece_wrapper.cpp) *)

(** The members [encode] and [decode] read; the placeholder vocabulary
    [vocabulary_] is read by neither. *)
Record Tokenizer : Type := mkTokenizer {
  vocab_size_ : Z;
  bos_token_id_ : Z;
  eos_token_id_ : Z;
  pad_token_id_ : Z
}.

Definition Tokenizer_new (model_path : string) : Tokenizer :=
  mkTokenizer 32000 1 2 0.

(** The character classes of the regular expression: [\w] is a letter, a
    digit or the underscore, [\s] is white space (classic locale). *)
Definition is_word_char (c : Ascii.ascii) : bool :=
  let n := Z.of_nat (Ascii.nat_of_ascii c) in
  ((48 <=? n) && (n <=? 57)) || ((65 <=? n) && (n <=? 90))
  || ((97 <=? n) && (n <=? 122)) || (n =? 95).

Definition is_space_char (c : Ascii.ascii) : bool :=
  let n := Z.of_nat (Ascii.nat_of_ascii c) in
  (n =? 32) || ((9 <=? n) && (n <=? 13)).

(** The matches [std::sregex_iterator] yields for [\w+|[^\w\s]], left to
    right: a maximal run of word characters, or one character that is
    neither a word character nor white space.  [run] is the run of word
    characters read so far. *)
Fixpoint regex_matches (text : string) (run : string) : list string :=
  match text with
  | EmptyString =>
      if String.eqb run EmptyString then [] else [run]
  | String c rest =>
      if is_word_char c then
        regex_matches rest (String.append run (String c EmptyString))
      else
        (if String.eqb run EmptyString then [] else [run])
        ++ (if is_space_char c then [] else [String c EmptyString])
        ++ regex_matches rest EmptyString
  end.

(** The id [encode] gives one match. *)
Definition encode_token (token : string) : Z :=
  if String.eqb token "hello" || String.eqb token "Hello" then 9900
  else if String.eqb token "world" || String.eqb token "World" then 1917
  else if String.eqb token "the" || String.eqb token "The" then 5
  else if String.eqb token "." then 13
  else if String.eqb token "," then 11
  else 3.

Definition encode (tk : Tokenizer) (text : string) : list Z :=
  let tokens :=
    fold_left (fun tokens token => tokens ++ [encode_token token])
      (regex_matches text EmptyString) [] in
  let tokens := bos_token_id_ tk :: tokens in
  tokens ++ [eos_token_id_ tk].

(** The text [decode] appends for a token that it does not skip. *)
Definition decode_token (token_id : Z) : string :=
  if token_id =? 9900 then "hello"
  else if token_id =? 1917 then "world"
  else if token_id =? 5 then "the"
  else if token_id =? 13 then "."
  else if token_id =? 11 then ","
  else "<unk>".

(** The loop of [decode] from index [i] on; [tokens] holds the tokens from
    [i] on, so that [i < tokens.size() - 1] is "a token follows". *)
Fixpoint decode_loop (tk : Tokenizer) (i : Z) (tokens : list Z)
    (result : string) : string :=
  match tokens with
  | [] => result
  | token_id :: rest =>
      if (token_id =? bos_token_id_ tk) && (i =? 0) then
        decode_loop tk (i + 1) rest result           (* continue *)
      else if token_id =? eos_token_id_ tk then
        result                                        (* break *)
      else if token_id =? pad_token_id_ tk then
        decode_loop tk (i + 1) rest result           (* continue *)
      else
        let result := String.append result (decode_token token_id) in
        let result :=
          match rest with
          | next_token :: _ =>
              if negb (next_token =? 13) && negb (next_token =? 11)
                 && negb (next_token =? eos_token_id_ tk)
              then String.append result " "
              else result
          | [] => result
          end in
        decode_loop tk (i + 1) rest result
  end.

Definition decode (tk : Tokenizer) (tokens : list Z) : string :=
  decode_loop tk 0 tokens EmptyString.

(** Words separated by single spaces. *)
Fixpoint join_words (ws : list string) : string :=
  match ws with
  | [] => EmptyString
  | [w] => w
  | w :: rest => String.append w (String.append " " (join_words rest))
  end.

Definition known_word (w : string) : Prop :=
  w = "hello"%string \/ w = "world"%string \/ w = "the"%string.

(** ** The slice of a head *)

(** The [B*S x D] array whose row [r] holds the columns
    [h*D .. h*D + D - 1] of row [r] of the [B*S x H] array [data]: what
    head [h] is given of an input of [forward]. *)
Definition head_slice {F} `{Arith F} (data : list F) (B S H D h : Z)
  : list F :=
  map (fun i => get fzero data (i / D * H + h * D + i mod D))
    (range 0 (B * S * D)).
(** * Properties *)

(** ** Machine integers *)

Lemma wrap_int_small x : is_int x -> wrap_int x = x.
Proof.
  unfold is_int, wrap_int. intros H.
  rewrite Z.mod_small by lia. lia.
Qed.

Lemma wrap_size_small x : 0 <= x < 2 ^ 64 -> wrap_size x = x.
Proof. unfold wrap_size. intros H. now apply Z.mod_small. Qed.

Lemma wrap_int_idem x : wrap_int (wrap_int x) = wrap_int x.
Proof.
  apply wrap_int_small. unfold is_int, wrap_int.
  pose proof (Z.mod_pos_bound (x + 2 ^ 31) (2 ^ 32)). lia.
Qed.

Lemma wrap_int_add_mul x k : wrap_int (x + k * 2 ^ 32) = wrap_int x.
Proof.
  unfold wrap_int.
  replace (x + k * 2 ^ 32 + 2 ^ 31) with (x + 2 ^ 31 + k * 2 ^ 32) by lia.
  now rewrite Z.mod_add by lia.
Qed.

Lemma wrap_int_spec x : exists k, wrap_int x = x + k * 2 ^ 32.
Proof.
  exists (- ((x + 2 ^ 31) / 2 ^ 32)). unfold wrap_int.
  pose proof (Z.div_mod (x + 2 ^ 31) (2 ^ 32)). lia.
Qed.

Lemma wrap_int_mul x y : wrap_int (wrap_int x * wrap_int y) = wrap_int (x * y).
Proof.
  destruct (wrap_int_spec x) as [k ->], (wrap_int_spec y) as [j ->].
  replace ((x + k * 2 ^ 32) * (y + j * 2 ^ 32))
    with (x * y + (x * j + k * y + k * j * 2 ^ 32) * 2 ^ 32) by lia.
  apply wrap_int_add_mul.
Qed.

Lemma wrap_int_wrap_size x : wrap_int (wrap_size x) = wrap_int x.
Proof.
  unfold wrap_size.
  pose proof (Z.div_mod x (2 ^ 64)).
  replace (x mod 2 ^ 64) with (x + (- (x / 2 ^ 64) * 2 ^ 32) * 2 ^ 32) by lia.
  apply wrap_int_add_mul.
Qed.

(** ** Tensor *)

(** The accumulation keeps the product of the dimensions modulo [2^32]. *)
Lemma fold_multiplies_int shape acc :
  fold_left multiplies_int shape (wrap_size (wrap_int acc)) =
  wrap_size (wrap_int (acc * product shape)).
Proof.
  revert acc. induction shape as [|d shape IH]; intros acc; simpl.
  - now rewrite Z.mul_1_r.
  - unfold multiplies_int at 2.
    rewrite wrap_int_wrap_size, wrap_int_idem, wrap_int_mul, IH.
    now rewrite Z.mul_assoc.
Qed.

Lemma product_nonneg shape :
  Forall (fun d => 0 <= d) shape -> 0 <= product shape.
Proof.
  induction 1; simpl; lia.
Qed.

Lemma calculate_numel_product shape :
  shape <> [] -> 0 <= product shape < 2 ^ 31 ->
  calculate_numel shape = product shape.
Proof.
  intros Hne Hp. unfold calculate_numel.
  destruct shape as [|d shape]; [congruence|].
  change 1 with (wrap_size (wrap_int 1)) at 1.
  rewrite fold_multiplies_int, Z.mul_1_l.
  rewrite wrap_int_small by (unfold is_int; lia).
  apply wrap_size_small. lia.
Qed.

(** C7, as the code has it: for a shape of non-negative dimensions whose
    product fits a 32-bit [int], [numel] is the product of the dimensions
    (0 for the empty shape) and [byte_size] is [numel*4] for FP32,
    [numel*2] for FP16, [numel] for INT8 and the ceiling of [numel/2]
    for Q4. *)
Theorem tensor_numel_byte_size shape dtype :
  Forall (fun d => 0 <= d) shape ->
  product shape < 2 ^ 31 ->
  let t := Tensor_new shape dtype in
  numel_ t = spec_numel shape /\
  match dtype with
  | FP32 => byte_size_ t = numel_ t * 4
  | FP16 => byte_size_ t = numel_ t * 2
  | INT8 => byte_size_ t = numel_ t
  | Q4 => 2 * byte_size_ t - 1 <= numel_ t <= 2 * byte_size_ t
  end.
Proof.
  intros Hnn Hp. unfold Tensor_new. cbn [numel_ byte_size_].
  assert (Hn : calculate_numel shape = spec_numel shape).
  { destruct shape as [|d shape]; [reflexivity|].
    apply calculate_numel_product; [discriminate|].
    split; [now apply product_nonneg | assumption]. }
  assert (Hb : 0 <= calculate_numel shape < 2 ^ 31).
  { rewrite Hn. destruct shape; simpl; [lia|].
    split; [apply (product_nonneg (_ :: _) Hnn) | exact Hp]. }
  split; [exact Hn|].
  unfold calculate_byte_size.
  destruct dtype; rewrite wrap_size_small by lia; try lia.
  pose proof (Z.div_mod (calculate_numel shape + 1) 2).
  pose proof (Z.mod_pos_bound (calculate_numel shape + 1) 2). lia.
Qed.

Lemma tensor_numel_byte_size_witness :
  let t := Tensor_new [2; 3] Q4 in
  numel_ t = 6 /\ 2 * byte_size_ t - 1 <= numel_ t <= 2 * byte_size_ t.
Proof.
  apply (tensor_numel_byte_size [2; 3] Q4).
  - repeat constructor; lia.
  - vm_compute. reflexivity.
Defined.

(** C7 as stated fails once the product leaves the range of [int]: the
    dimensions [65536 x 65536] multiply to [2^32], and the [int]
    multiplication of the accumulation yields [0]. *)
Lemma tensor_numel_overflow :
  let shape := [65536; 65536] in
  Forall (fun d => 0 <= d < 2 ^ 31) shape /\
  numel_ (Tensor_new shape FP32) = 0 /\
  spec_numel shape = 2 ^ 32 /\
  numel_ (Tensor_new shape FP32) <> spec_numel shape.
Proof.
  split; [repeat constructor; lia|].
  vm_compute. repeat split; congruence.
Qed.

Lemma memcpy_whole {A} (dst src : list A) n :
  Z.of_nat (List.length src) = n -> Z.of_nat (List.length dst) = n ->
  memcpy dst src n = src.
Proof.
  intros Hs Hd. unfold memcpy.
  replace (Z.to_nat n) with (List.length src) by lia.
  rewrite firstn_all.
  rewrite skipn_all2 by lia.
  apply app_nil_r.
Qed.

Lemma Tensor_new_wf shape dtype : tensor_wf (Tensor_new shape dtype).
Proof.
  unfold tensor_wf, Tensor_new; cbn [numel_ shape_ byte_size_ dtype_ data_].
  repeat split. rewrite repeat_length.
  apply Z2Nat.id.
  unfold calculate_byte_size, wrap_size.
  destruct dtype;
    try (apply Z.mod_pos_bound; lia).
  apply Z.div_pos; [|lia].
  apply Z.mod_pos_bound; lia.
Qed.



(** ** Tensor pool *)

Lemma first_fit_reset (p : TensorPool) (sz : Z) :
  first_fit (head_ (TensorPool_reset p)) sz = None.
Proof.
  unfold TensorPool_reset; cbn [head_].
  induction (head_ p) as [|c cs IH]; cbn [map first_fit]; [reflexivity|].
  cbn [data size]. unfold nullptr at 1. rewrite Z.eqb_refl.
  rewrite andb_false_r. now rewrite IH.
Qed.

(** After [reset] no chunk passes the first-fit test, whatever the size. *)
Lemma reset_leaves_no_free_chunk (p : TensorPool) (sz : Z) :
  existsb (chunk_fits sz) (head_ (TensorPool_reset p)) = false.
Proof.
  unfold TensorPool_reset; cbn [head_].
  induction (head_ p) as [|c cs IH]; cbn [map existsb]; [reflexivity|].
  rewrite IH. unfold chunk_fits; cbn [data size].
  unfold nullptr. rewrite Z.eqb_refl. now rewrite andb_false_r.
Qed.

(** Hence every allocation after [reset] links a new chunk and grows
    [total_allocated_]. *)
Lemma allocate_after_reset_grows h p sz h' p' ptr :
  0 < sz ->
  0 <= total_allocated_ p ->
  total_allocated_ p + Z.max sz (total_allocated_ p / 2) < 2 ^ 64 ->
  TensorPool_allocate 1 h (TensorPool_reset p) sz = Some (h', p', ptr) ->
  total_allocated_ p' = total_allocated_ p + Z.max sz (total_allocated_ p / 2)
  /\ total_allocated_ p < total_allocated_ p'.
Proof.
  intros Hsz Hta Hfit Halloc.
  cbn [TensorPool_allocate] in Halloc.
  rewrite first_fit_reset in Halloc.
  cbn [total_allocated_ TensorPool_reset head_ total_used_] in Halloc.
  destruct (AlignedAllocator_allocate h _ 32) as [h1 ptr1].
  cbn [head_] in Halloc.
  destruct (first_fit _ sz) as [[r cs]|]; [|discriminate].
  injection Halloc as <- <- <-. cbn [total_allocated_].
  rewrite wrap_size_small by lia. lia.
Qed.

(** C4 on the code: a pool of 1024 bytes serves a request of 100 bytes from
    its chunk without growing; after [reset] the same request finds no
    chunk that passes the first-fit test, a new chunk of 512 bytes is
    linked in and [total_allocated_] grows from 1024 to 1536.  Nothing was
    handed back to the system: both blocks are live. *)
Theorem TensorPool_reset_then_allocate_grows :
  let h1 := fst (TensorPool_new (mkHeap 4096 []) 1024) in
  let p0 := snd (TensorPool_new (mkHeap 4096 []) 1024) in
  let p1 := mkTensorPool [mkChunk 0 0; mkChunk 4196 924] 1024 100 in
  let p3 := mkTensorPool
              [mkChunk 0 0; mkChunk 5220 412; mkChunk 0 0; mkChunk 0 0]
              1536 100 in
  total_allocated_ p0 = 1024 /\
  TensorPool_allocate 1 h1 p0 100 = Some (h1, p1, 4096) /\
  existsb (chunk_fits 100) (head_ p1) = true /\
  existsb (chunk_fits 100) (head_ (TensorPool_reset p1)) = false /\
  TensorPool_allocate 1 h1 (TensorPool_reset p1) 100 =
    Some (mkHeap 5632 [5120; 4096], p3, 5120) /\
  total_allocated_ p1 < total_allocated_ p3.
Proof.
  vm_compute. repeat split; reflexivity.
Qed.

(** ** Arrays and loops *)

Lemma set_nth_length {A} (a : list A) n x :
  List.length (set_nth a n x) = List.length a.
Proof.
  revert n; induction a as [|y a IH]; intros [|n]; cbn; auto.
Qed.

Lemma set_length {A} (a : list A) i x :
  List.length (set a i x) = List.length a.
Proof.
  unfold set. destruct (i <? 0); [reflexivity | apply set_nth_length].
Qed.

Lemma nth_set_nth_eq {A} (d : A) a n x :
  (n < List.length a)%nat -> nth n (set_nth a n x) d = x.
Proof.
  revert n; induction a as [|y a IH]; intros [|n] Hn; cbn in *;
    try lia; auto.
  apply IH. lia.
Qed.

Lemma nth_set_nth_ne {A} (d : A) a n m x :
  n <> m -> nth m (set_nth a n x) d = nth m a d.
Proof.
  revert n m; induction a as [|y a IH]; intros [|n] [|m] Hn; cbn;
    try congruence; auto.
Qed.

Lemma get_set_eq {A} (d : A) a i x :
  0 <= i < Z.of_nat (List.length a) -> get d (set a i x) i = x.
Proof.
  intros Hi. unfold get, set.
  destruct (i <? 0) eqn:E; [apply Z.ltb_lt in E; lia|].
  apply nth_set_nth_eq. lia.
Qed.

Lemma get_set_ne {A} (d : A) a i j x :
  i <> j -> get d (set a i x) j = get d a j.
Proof.
  intros Hij. unfold get, set.
  destruct (j <? 0) eqn:Ej; [reflexivity|].
  destruct (i <? 0) eqn:Ei; [reflexivity|].
  apply nth_set_nth_ne.
  apply Z.ltb_ge in Ej, Ei. lia.
Qed.

Lemma get_repeat {A} (d : A) n i : get d (repeat d n) i = d.
Proof.
  unfold get. destruct (i <? 0); [reflexivity|].
  generalize (Z.to_nat i). induction n as [|n IH]; intros [|m]; cbn; auto.
Qed.

Lemma range_from_app n m lo step :
  range_from (n + m) lo step =
  range_from n lo step ++ range_from m (lo + Z.of_nat n * step) step.
Proof.
  revert lo; induction n as [|n IH]; intros lo.
  - cbn [range_from Nat.add app]. f_equal. lia.
  - cbn [range_from Nat.add app]. f_equal. rewrite IH. f_equal. f_equal. lia.
Qed.

Lemma range_nil lo hi : hi <= lo -> range lo hi = [].
Proof.
  intros H. unfold range. now replace (Z.to_nat (hi - lo)) with O by lia.
Qed.

Lemma range_snoc lo hi : lo <= hi -> range lo (hi + 1) = range lo hi ++ [hi].
Proof.
  intros H. unfold range.
  replace (Z.to_nat (hi + 1 - lo)) with (Z.to_nat (hi - lo) + 1)%nat by lia.
  rewrite range_from_app. f_equal. cbn [range_from]. f_equal. lia.
Qed.

Lemma range_from_In n lo i : In i (range_from n lo 1) <-> lo <= i < lo + Z.of_nat n.
Proof.
  revert lo; induction n as [|n IH]; intros lo; cbn [range_from In].
  - lia.
  - rewrite IH. lia.
Qed.

Lemma range_In lo hi i : In i (range lo hi) <-> lo <= i < hi.
Proof.
  unfold range. rewrite range_from_In. lia.
Qed.

Lemma for_app {S} (l1 l2 : list Z) (body : Z -> S -> S) s :
  for_ (l1 ++ l2) body s = for_ l2 body (for_ l1 body s).
Proof. unfold for_. apply fold_left_app. Qed.

Lemma for_snoc {S} lo hi (body : Z -> S -> S) s :
  lo <= hi ->
  for_ (range lo (hi + 1)) body s = body hi (for_ (range lo hi) body s).
Proof.
  intros H. now rewrite range_snoc, for_app.
Qed.

Lemma for_ext {S} (l : list Z) (body body' : Z -> S -> S) s :
  (forall i s, In i l -> body i s = body' i s) ->
  for_ l body s = for_ l body' s.
Proof.
  unfold for_. revert s; induction l as [|i l IH]; intros s Hb; cbn.
  - reflexivity.
  - rewrite Hb by (left; reflexivity). apply IH.
    intros j s' Hj. apply Hb. now right.
Qed.

(** Loop invariants over [range lo hi]. *)
Lemma for_range_inv {St} (P : Z -> St -> Prop) lo hi (body : Z -> St -> St) s :
  lo <= hi ->
  P lo s ->
  (forall i s, lo <= i < hi -> P i s -> P (i + 1) (body i s)) ->
  P hi (for_ (range lo hi) body s).
Proof.
  intros Hle H0 Hstep.
  replace hi with (lo + Z.of_nat (Z.to_nat (hi - lo))) by lia.
  assert (Hn : lo + Z.of_nat (Z.to_nat (hi - lo)) <= hi) by lia.
  revert Hn. generalize (Z.to_nat (hi - lo)) as n.
  induction n as [|n IH]; intros Hn.
  - rewrite Z.add_0_r, range_nil by lia. exact H0.
  - replace (lo + Z.of_nat (S n)) with (lo + Z.of_nat n + 1) by lia.
    rewrite for_snoc by lia.
    apply Hstep; [lia|]. apply IH. lia.
Qed.

(** ** GEMM: the vectorised kernel against the reference *)

(** C3 on the code, in exact integer arithmetic.  With [K = 9] the kernel
    runs two k-blocks and each stores [alpha * (its own partial sum) +
    beta * C], so with [beta = 0] only the last block survives: [9]
    instead of [1 + ... + 9 = 45].  With [K = 8] and [N = 2] the vector
    load of [B] takes eight consecutive floats of a row of the row-major
    [[K,N]] matrix where the column [B[kk..kk+7][nn]] is meant. *)
Theorem matmul_avx2_f32_disagrees :
  (let A := [1; 2; 3; 4; 5; 6; 7; 8; 9] in
   let B := [1; 1; 1; 1; 1; 1; 1; 1; 1] in
   simple_matmul (F := Z) A B [0] 1 9 1 1 0 = [45] /\
   matmul_avx2_f32 (F := Z) A B [0] 1 9 1 1 0 = [9]) /\
  (let A := [0; 1; 0; 0; 0; 0; 0; 0] in
   let B := [0; 1; 2; 3; 4; 5; 6; 7; 8; 9; 10; 11; 12; 13; 14; 15] in
   simple_matmul (F := Z) A B [0; 0] 1 8 2 1 0 = [2; 3] /\
   matmul_avx2_f32 (F := Z) A B [0; 0] 1 8 2 1 0 = [1; 2]).
Proof.
  vm_compute. repeat split; reflexivity.
Qed.

(** ** Loops that fill a block of an array *)

Section Blocks.
Context {A : Type} (d : A).

Lemma writes_block_set lo x :
  writes_block d (fun a => set a lo x) lo 1 (fun _ y => y = x).
Proof.
  intros a Hlo Hlen. split; [apply set_length|]. split.
  - intros j Hj. replace (lo + j) with lo by lia.
    apply get_set_eq. lia.
  - intros j Hj. apply get_set_ne. lia.
Qed.

Lemma writes_block_id lo P :
  writes_block d (fun a => a) lo 0 P.
Proof.
  intros a _ _. split; [reflexivity|]. split; [intros; lia | reflexivity].
Qed.

Lemma writes_block_for_nat (body : Z -> list A -> list A) lo D
    (P : Z -> Z -> A -> Prop) (n : nat) :
  0 <= D -> 0 <= lo ->
  (forall i, 0 <= i < Z.of_nat n ->
     writes_block d (body i) (lo + i * D) D (P i)) ->
  writes_block d (for_ (range 0 (Z.of_nat n)) body) lo (Z.of_nat n * D)
    (fun j y => forall i k, 0 <= i < Z.of_nat n -> 0 <= k < D ->
                j = i * D + k -> P i k y).
Proof.
  intros HD Hlo0. induction n as [|n IH]; intros Hbody a Hlo Hlen.
  - cbn [Z.of_nat]. rewrite range_nil by lia. cbn.
    split; [reflexivity|]. split; [intros; lia | reflexivity].
  - replace (Z.of_nat (S n)) with (Z.of_nat n + 1) in * by lia.
    rewrite for_snoc by lia.
    set (a' := for_ (range 0 (Z.of_nat n)) body a).
    destruct (IH (fun i Hi => Hbody i ltac:(lia)) a Hlo ltac:(nia))
      as (Hl1 & Hp1 & Hf1).
    fold a' in Hl1, Hp1, Hf1.
    destruct (Hbody (Z.of_nat n) ltac:(lia) a' ltac:(nia) ltac:(nia))
      as (Hl2 & Hp2 & Hf2).
    split; [congruence|]. split.
    + intros j Hj i k Hi Hk ->.
      destruct (Z.eq_dec i (Z.of_nat n)) as [->|Hne].
      * replace (lo + (Z.of_nat n * D + k)) with (lo + Z.of_nat n * D + k)
          by lia.
        now apply Hp2.
      * assert (Hik : i * D + k < Z.of_nat n * D) by nia.
        rewrite Hf2 by lia.
        apply (Hp1 (i * D + k)); lia || nia.
    + intros j Hj. rewrite Hf2 by nia. apply Hf1. nia.
Qed.

Lemma writes_block_for (body : Z -> list A -> list A) lo D n
    (P : Z -> Z -> A -> Prop) :
  0 <= D -> 0 <= n -> 0 <= lo ->
  (forall i, 0 <= i < n -> writes_block d (body i) (lo + i * D) D (P i)) ->
  writes_block d (for_ (range 0 n) body) lo (n * D)
    (fun j y => forall i k, 0 <= i < n -> 0 <= k < D -> j = i * D + k ->
                P i k y).
Proof.
  intros HD Hn Hlo Hbody.
  rewrite <- (Z2Nat.id n Hn) in *.
  now apply writes_block_for_nat.
Qed.

Lemma writes_block_ext f g lo len P :
  (forall a, f a = g a) -> writes_block d f lo len P -> writes_block d g lo len P.
Proof.
  intros Hfg Hf a Hlo Hlen. rewrite <- Hfg. now apply Hf.
Qed.
End Blocks.

Lemma writes_block_weaken {A} (d : A) f lo len (P Q : Z -> A -> Prop) :
  (forall j y, 0 <= j < len -> P j y -> Q j y) ->
  writes_block d f lo len P -> writes_block d f lo len Q.
Proof.
  intros HPQ Hf a Hlo Hlen. destruct (Hf a Hlo Hlen) as (Hl & Hp & Hfr).
  split; [exact Hl|]. split; [|exact Hfr].
  intros j Hj. apply HPQ; auto.
Qed.

(** The innermost loop of a kernel: [for k in [0, n): a[base + k] = v k]. *)
Lemma writes_cells {A} (d : A) (v : Z -> A) base n :
  0 <= n -> 0 <= base ->
  writes_block d (for_ (range 0 n) (fun k a => set a (base + k) (v k)))
    base n (fun k y => y = v k).
Proof.
  intros Hn Hbase.
  pose proof (writes_block_for d (fun k a => set a (base + k) (v k))
                base 1 n (fun i _ y => y = v i)) as Hfor.
  rewrite Z.mul_1_r in Hfor.
  eapply writes_block_weaken; [|apply Hfor; try lia].
  - intros j y Hj Hy. apply (Hy j 0); lia.
  - intros i Hi.
    replace (base + i * 1) with (base + i) by lia.
    apply writes_block_set.
Qed.

(** ** Row-wise Q4 codec *)

Section Q4Props.
Context {F : Type} `{Arith F}.

Lemma dequantize_row_block qweights (scales : list F) m K :
  0 <= K -> 0 <= m ->
  writes_block fzero
    (for_ (range 0 K) (fun k out =>
       let nib := nibble_at qweights m K k in
       let dequant := decode_q4_signed nib in
       set out (m * K + k) (fmul (of_int8 dequant) (get fzero scales m))))
    (m * K) K (fun k y => y = dequant_value qweights scales m K k).
Proof.
  intros HK Hm.
  apply (writes_cells fzero (dequant_value qweights scales m K)); nia.
Qed.

Lemma dequantize_q4_rowwise_cell qweights (scales out : list F) M K m k :
  M * K <= Z.of_nat (List.length out) ->
  0 <= m < M -> 0 <= k < K ->
  get fzero (dequantize_q4_rowwise qweights scales out M K) (m * K + k) =
  dequant_value qweights scales m K k.
Proof.
  intros Hlen Hm Hk.
  pose proof (writes_block_for fzero
    (fun m out =>
       for_ (range 0 K) (fun k out =>
         let nib := nibble_at qweights m K k in
         let dequant := decode_q4_signed nib in
         set out (m * K + k) (fmul (of_int8 dequant) (get fzero scales m)))
         out)
    0 K M
    (fun m k y => y = dequant_value qweights scales m K k)) as Hfor.
  destruct (Hfor ltac:(lia) ltac:(lia) ltac:(lia)) with (a := out)
    as (_ & Hp & _); try lia.
  - intros i Hi. cbn [Z.add].
    apply (dequantize_row_block qweights scales i K); lia.
  - specialize (Hp (m * K + k) ltac:(nia) m k Hm Hk eq_refl).
    exact Hp.
Qed.
End Q4Props.

Section Q4Cells.
Context {F : Type} `{Arith F}.

(** The fused kernel stores in [y[m]] the scale of row [m] times the dot
    product of the decoded nibbles of the row with [x]. *)
Lemma matvec_q4_rowwise_cell qweights (scales x y : list F) M K m :
  M <= Z.of_nat (List.length y) -> 0 <= m < M ->
  get fzero (matvec_q4_rowwise qweights scales x y M K) m =
  spec_matvec_q4 qweights scales x K m.
Proof.
  intros Hlen Hm. unfold spec_matvec_q4, sum_range, signed_nibble.
  pose proof (writes_cells fzero
    (fun m => fmul (get fzero scales m)
       (for_ (range 0 K) (fun k sum =>
          fadd sum
            (fmul (of_int8 (decode_q4_signed (nibble_at qweights m K k)))
               (get fzero x k))) fzero)) 0 M ltac:(lia) ltac:(lia) y
    ltac:(lia) ltac:(lia)) as (_ & Hp & _).
  specialize (Hp m Hm). cbn [Z.add] in Hp. exact Hp.
Qed.
End Q4Cells.

#[export] Instance Z_ArithLaws : ArithLaws Z.
Proof.
  constructor; intros; cbv [fadd fmul fzero fone Z_Arith]; ring.
Qed.

#[export] Instance R_ArithLaws : ArithLaws R.
Proof.
  constructor; intros; cbv [fadd fmul fzero fone R_Arith]; ring.
Qed.

Section Q4Equiv.
Context {F : Type} `{ArithLaws F}.

(** Scaling a dot product: the scale can be applied to each weight. *)
Lemma scale_dot (s : F) (a x : Z -> F) (l : list Z) (acc : F) :
  fmul s (for_ l (fun k sum => fadd sum (fmul (a k) (x k))) acc) =
  for_ l (fun k sum => fadd sum (fmul (fmul (a k) s) (x k))) (fmul s acc).
Proof.
  unfold for_. revert acc. induction l as [|k l IH]; intros acc; cbn.
  - reflexivity.
  - rewrite IH. f_equal.
    rewrite fmul_add_distr_l. f_equal.
    rewrite fmul_assoc. f_equal. apply fmul_comm.
Qed.

(** In exact arithmetic the fused kernel computes, for every input, the
    very vector that dequantising into a buffer of [M*K] floats and then
    running the dense matrix-vector product ([alpha = 1], [beta = 0])
    computes, and [y[m]] is the formula of the specification.
    Associativity and distributivity are the laws used; they are what
    floating-point rounding breaks. *)
Lemma matvec_q4_rowwise_fused_exact
    (qweights : list uint8_t) (scales x y out : list F) (M K : Z) :
  M * K <= Z.of_nat (List.length out) ->
  M <= Z.of_nat (List.length y) ->
  let fused := matvec_q4_rowwise qweights scales x y M K in
  fused =
  matvec_loop (dequantize_q4_rowwise qweights scales out M K) x y M K
    fone fzero /\
  forall m, 0 <= m < M ->
    get fzero fused m = spec_matvec_q4 qweights scales x K m.
Proof.
  intros Hlen Hy fused. split.
  - unfold fused, matvec_q4_rowwise, matvec_loop.
    apply for_ext. intros m ym Hm. apply range_In in Hm.
    cbv zeta. f_equal.
    rewrite fmul_1_l, fmul_0_l, fadd_0_r.
    rewrite (scale_dot (get fzero scales m)
               (fun k => of_int8 (decode_q4_signed (nibble_at qweights m K k)))
               (get fzero x)).
    rewrite fmul_0_r.
    apply for_ext. intros k sum Hk. apply range_In in Hk.
    rewrite dequantize_q4_rowwise_cell by lia.
    reflexivity.
  - intros m Hm. now apply matvec_q4_rowwise_cell.
Qed.
End Q4Equiv.

Example matvec_q4_rowwise_fused_exact_Z :
  matvec_q4_rowwise (F := Z) [33; 200] [1; 2] [1; 3] [0; 0] 2 2 = [7; -40] /\
  matvec_loop (dequantize_q4_rowwise [33; 200] [1; 2] [0; 0; 0; 0] 2 2)
    [1; 3] [0; 0] 2 2 1 0 = [7; -40].
Proof. vm_compute. split; reflexivity. Qed.

(** *** Quantisation of one weight, in real arithmetic *)

Lemma Rround_IZR z : Rround (IZR z) = z.
Proof.
  unfold Rround. destruct (Rle_dec 0 (IZR z)) as [Hz|Hz].
  - apply Zfloor_eq. split; lra.
  - rewrite <- opp_IZR.
    rewrite (Zfloor_eq (- z)%Z); [lia|]. split; lra.
Qed.

(** [std::round] is within one half of its argument. *)
Lemma Rround_bound x : (Rabs (IZR (Rround x) - x) <= / 2)%R.
Proof.
  unfold Rround. destruct (Rle_dec 0 x) as [Hx|Hx].
  - pose proof (Zfloor_bound (x + / 2)).
    apply Rabs_le. lra.
  - pose proof (Zfloor_bound (- x + / 2)).
    rewrite opp_IZR. apply Rabs_le. lra.
Qed.

Lemma Rround_le_7 x : (x <= 7)%R -> Rround x <= 7.
Proof.
  intros Hx. unfold Rround. destruct (Rle_dec 0 x) as [H0|H0].
  - pose proof (Zfloor_bound (x + / 2)) as Hb.
    assert (IZR (Zfloor (x + / 2)) < IZR 8)%R by lra.
    apply lt_IZR in H. lia.
  - pose proof (Zfloor_bound (- x + / 2)) as Hb.
    assert (IZR (-1) < IZR (Zfloor (- x + / 2)))%R by lra.
    apply lt_IZR in H. lia.
Qed.

Lemma Rround_ge_m8 x : (-8 <= x)%R -> -8 <= Rround x.
Proof.
  intros Hx. unfold Rround. destruct (Rle_dec 0 x) as [H0|H0].
  - pose proof (Zfloor_bound (x + / 2)) as Hb.
    assert (IZR (-1) < IZR (Zfloor (x + / 2)))%R by lra.
    apply lt_IZR in H. lia.
  - pose proof (Zfloor_bound (- x + / 2)) as Hb.
    assert (IZR (Zfloor (- x + / 2)) < IZR 9)%R by lra.
    apply lt_IZR in H. lia.
Qed.

(** Within the representable range the quantised weight is the rounded
    quotient and the dequantised value is within half a scale of the
    weight. *)
Lemma quantize_q4_in_range (w scale : R) :
  (0 < scale)%R -> (-8 * scale <= w <= 7 * scale)%R ->
  let q := quantize_q4 w scale in
  -8 <= q <= 7 /\ (Rabs (IZR q * scale - w) <= scale / 2)%R.
Proof.
  intros Hs Hw. unfold quantize_q4. cbn [fdiv R_Scalar fround].
  set (x := (w / scale)%R).
  assert (Hx : (-8 <= x <= 7)%R).
  { unfold x. split.
    - apply Rmult_le_reg_r with scale; [lra|]. unfold Rdiv.
      rewrite Rmult_assoc, Rinv_l by lra. lra.
    - apply Rmult_le_reg_r with scale; [lra|]. unfold Rdiv.
      rewrite Rmult_assoc, Rinv_l by lra. lra. }
  pose proof (Rround_le_7 x (proj2 Hx)) as H7.
  pose proof (Rround_ge_m8 x (proj1 Hx)) as H8.
  assert (Hq : clamp_q4 (to_int8 (Rround x)) = Rround x).
  { unfold clamp_q4, to_int8. rewrite Z.mod_small by lia. lia. }
  rewrite Hq. split; [lia|].
  pose proof (Rround_bound x) as Hb.
  replace (IZR (Rround x) * scale - w)%R
    with ((IZR (Rround x) - x) * scale)%R by (unfold x; field; lra).
  rewrite Rabs_mult, (Rabs_pos_eq scale) by lra.
  apply Rmult_le_compat_r with (r := scale) in Hb; lra.
Qed.

(** While the rounded quotient fits [int8_t] the clamp saturates. *)
Lemma quantize_q4_saturates (w scale : R) :
  -128 <= Rround (w / scale) <= 127 ->
  quantize_q4 w scale = clamp_q4 (Rround (w / scale)).
Proof.
  intros Hr. unfold quantize_q4. cbn [fdiv R_Scalar fround].
  unfold to_int8. rewrite Z.mod_small by lia. f_equal. lia.
Qed.

Lemma quantize_q4_IZR z :
  quantize_q4 (F := R) (IZR z) 1%R = clamp_q4 (to_int8 z).
Proof.
  unfold quantize_q4. cbn [fdiv R_Scalar fround].
  replace (IZR z / 1)%R with (IZR z) by field.
  now rewrite Rround_IZR.
Qed.

(** Evaluation of a kernel on concrete real inputs: everything is computed
    except the real operations themselves. *)
Ltac eval_R :=
  cbv -[IZR Rdiv Rmult Rplus Rminus Ropp Rinv exp Rltb Rround Rabs Rlt Rle].

(** The same with the quantiser kept folded, to be rewritten by
    [quantize_q4_IZR]. *)
Ltac eval_pack :=
  cbv -[quantize_q4 IZR Rdiv Rmult Rplus Rminus Ropp Rinv exp Rltb Rround
        to_uint8 to_int8 Z.land Z.lor Z.shiftl Z.shiftr Rabs Rlt Rle].

(** C6 on the code.  (1) With an odd row length the rows share a byte:
    for [M = 2], [K = 1] both weights are written to the low nibble of
    byte 0, the second store replaces the first, and the weight [1] comes
    back as [3].  (2) The narrowing to [int8_t] precedes the clamp: the
    quotient [130] is first reduced to [-126] and then clamped to [-8],
    where saturation would give [7]. *)
Theorem pack_q4_rowwise_roundtrip_fails :
  (let weights := [1; 3]%R in
   let qw := fst (pack_q4_rowwise weights [1; 1]%R [0] [0; 0]%R 2 1) in
   let so := snd (pack_q4_rowwise weights [1; 1]%R [0] [0; 0]%R 2 1) in
   let out := dequantize_q4_rowwise qw so [0; 0]%R 2 1 in
   qw = [3] /\ so = [1; 1]%R /\
   get 0%R out 0 = 3%R /\
   (1 / 2 < Rabs (get 0%R out 0 - get 0%R weights 0))%R) /\
  (let weights := [130]%R in
   let qw := fst (pack_q4_rowwise weights [1]%R [0] [0]%R 1 1) in
   let so := snd (pack_q4_rowwise weights [1]%R [0] [0]%R 1 1) in
   let out := dequantize_q4_rowwise qw so [0]%R 1 1 in
   quantize_q4 130%R 1%R = -8 /\ qw = [8] /\
   get 0%R out 0 = (-8)%R).
Proof.
  split.
  - assert (Hp : pack_q4_rowwise [1; 3]%R [1; 1]%R [0] [0; 0]%R 2 1
                 = ([3], [1; 1]%R)).
    { eval_pack. rewrite !quantize_q4_IZR. reflexivity. }
    cbv zeta. rewrite Hp. cbn [fst snd].
    assert (Ho : get 0%R (dequantize_q4_rowwise [3] [1; 1]%R [0; 0]%R 2 1) 0
                 = 3%R).
    { eval_R. lra. }
    rewrite Ho. repeat split.
    replace (get 0%R [1; 3]%R 0) with 1%R by reflexivity.
    replace (3 - 1)%R with 2%R by lra.
    rewrite Rabs_pos_eq; lra.
  - assert (Hp : pack_q4_rowwise [130]%R [1]%R [0] [0]%R 1 1
                 = ([8], [1]%R)).
    { eval_pack. rewrite !quantize_q4_IZR. reflexivity. }
    cbv zeta. rewrite Hp. cbn [fst snd].
    split; [rewrite quantize_q4_IZR; reflexivity|].
    split; [reflexivity|].
    eval_R. lra.
Qed.

(** ** Causal attention *)

Section AttentionCells.
Context {F : Type} `{Scalar F}.

(** What [compute_attention] stores for query position [s], channel [d]
    of batch element [b]. *)
Lemma attention_loops_cell (scale : F) (q_data k_data v_data : list F)
    B S D (output : list F) b s d :
  B * S * D <= Z.of_nat (List.length output) ->
  0 <= b < B -> 0 <= s < S -> 0 <= d < D ->
  get fzero (attention_loops scale q_data k_data v_data B S D output)
    (b * S * D + s * D + d) =
  weighted_sum (attention_weights scale q_data k_data b s S D) v_data
    b s d S D.
Proof.
  intros Hlen Hb Hs Hd.
  set (ws := fun b s d =>
         weighted_sum (attention_weights scale q_data k_data b s S D) v_data
           b s d S D).
  assert (Hrow : forall b s, 0 <= b -> 0 <= s ->
    writes_block fzero
      (fun output_data =>
         let scores := attention_weights scale q_data k_data b s S D in
         for_ (range 0 D) (fun d output_data =>
           let output_idx := b * S * D + s * D + d in
           set output_data output_idx
             (weighted_sum scores v_data b s d S D)) output_data)
      (b * S * D + s * D) D (fun d y => y = ws b s d)).
  { intros b0 s0 Hb0 Hs0. cbv zeta.
    assert (0 <= b0 * S) by nia.
    apply (writes_cells fzero (ws b0 s0)); nia. }
  assert (Hbatch : forall b, 0 <= b ->
    writes_block fzero
      (fun output_data =>
         for_ (range 0 S) (fun s output_data =>
           let scores := attention_weights scale q_data k_data b s S D in
           for_ (range 0 D) (fun d output_data =>
             let output_idx := b * S * D + s * D + d in
             set output_data output_idx
               (weighted_sum scores v_data b s d S D)) output_data)
           output_data)
      (b * S * D) (S * D)
      (fun j y => forall s d, 0 <= s < S -> 0 <= d < D -> j = s * D + d ->
                  y = ws b s d)).
  { intros b0 Hb0.
    assert (0 <= b0 * S) by nia.
    apply (writes_block_for fzero _ (b0 * S * D) D S
             (fun s d y => y = ws b0 s d)); try nia.
    intros i Hi. apply Hrow; lia. }
  pose proof (writes_block_for fzero
    (fun b output_data =>
       for_ (range 0 S) (fun s output_data =>
         let scores := attention_weights scale q_data k_data b s S D in
         for_ (range 0 D) (fun d output_data =>
           let output_idx := b * S * D + s * D + d in
           set output_data output_idx
             (weighted_sum scores v_data b s d S D)) output_data)
         output_data)
    0 (S * D) B
    (fun b j y => forall s d, 0 <= s < S -> 0 <= d < D -> j = s * D + d ->
                  y = ws b s d)) as Hall.
  assert (Hsd : 0 <= s * D + d < S * D) by nia.
  assert (HSD : 0 <= S * D) by nia.
  assert (HbSD : 0 <= b * (S * D)) by nia.
  assert (HBSD : b * (S * D) + S * D <= B * (S * D)) by nia.
  destruct (Hall HSD ltac:(lia) ltac:(lia)) with (a := output)
    as (_ & Hp & _); try lia.
  - intros i Hi. replace (0 + i * (S * D)) with (i * S * D) by ring.
    apply Hbatch. lia.
  - unfold attention_loops.
    specialize (Hp (b * S * D + s * D + d) ltac:(lia) b (s * D + d)
                  Hb Hsd ltac:(ring) s d Hs Hd eq_refl).
    exact Hp.
Qed.

Lemma dot_row_ext (q_data k_data k_data' : list F) b s t S D :
  (forall d, 0 <= d < D ->
     get fzero k_data (b * S * D + t * D + d) =
     get fzero k_data' (b * S * D + t * D + d)) ->
  dot_row q_data k_data b s t S D = dot_row q_data k_data' b s t S D.
Proof.
  intros Hk. unfold dot_row. apply for_ext.
  intros d score Hd. apply range_In in Hd. cbv zeta.
  now rewrite Hk.
Qed.

Lemma attention_weights_ext (scale : F) (q_data k_data k_data' : list F)
    b s S D :
  (forall t d, 0 <= t <= s -> 0 <= d < D ->
     get fzero k_data (b * S * D + t * D + d) =
     get fzero k_data' (b * S * D + t * D + d)) ->
  attention_weights scale q_data k_data b s S D =
  attention_weights scale q_data k_data' b s S D.
Proof.
  intros Hk. unfold attention_weights.
  assert (Hsp : forall scores,
            score_pass scale q_data k_data b s S D scores =
            score_pass scale q_data k_data' b s S D scores).
  { intros scores. unfold score_pass. apply for_ext.
    intros t [m sc] Ht. apply range_In in Ht.
    rewrite (dot_row_ext q_data k_data k_data'); [reflexivity|].
    intros d Hd. apply Hk; lia. }
  now rewrite Hsp.
Qed.

Lemma weighted_sum_ext (scores v_data v_data' : list F) b s d S D :
  (forall t, 0 <= t <= s ->
     get fzero v_data (b * S * D + t * D + d) =
     get fzero v_data' (b * S * D + t * D + d)) ->
  weighted_sum scores v_data b s d S D =
  weighted_sum scores v_data' b s d S D.
Proof.
  intros Hv. unfold weighted_sum. apply for_ext.
  intros t acc Ht. apply range_In in Ht. cbv zeta.
  rewrite Hv by lia. reflexivity.
Qed.

(** C5 on the loop nest: the output at query position [s] is the same
    for any two key/value arrays that agree on the positions [t <= s] of
    that batch element, whatever they hold at the later positions. *)
Theorem attention_loops_causal (scale : F)
    (q_data k_data k_data' v_data v_data' : list F)
    B S D (output : list F) b s d :
  B * S * D <= Z.of_nat (List.length output) ->
  0 <= b < B -> 0 <= s < S -> 0 <= d < D ->
  (forall t d', 0 <= t <= s -> 0 <= d' < D ->
     get fzero k_data (b * S * D + t * D + d') =
     get fzero k_data' (b * S * D + t * D + d') /\
     get fzero v_data (b * S * D + t * D + d') =
     get fzero v_data' (b * S * D + t * D + d')) ->
  get fzero (attention_loops scale q_data k_data v_data B S D output)
    (b * S * D + s * D + d) =
  get fzero (attention_loops scale q_data k_data' v_data' B S D output)
    (b * S * D + s * D + d).
Proof.
  intros Hlen Hb Hs Hd Hagree.
  rewrite !attention_loops_cell by assumption.
  rewrite (attention_weights_ext scale q_data k_data k_data')
    by (intros t d' Ht Hd'; now apply Hagree).
  apply weighted_sum_ext. intros t Ht. now apply Hagree.
Qed.
End AttentionCells.

Lemma compute_attention_data {F} `{Scalar F} (fa : FlashAttention F)
    (Q K V output : Tensor F) cache :
  dtype_ Q = FP32 -> dtype_ K = FP32 -> dtype_ V = FP32 ->
  dtype_ output = FP32 ->
  compute_attention fa Q K V output cache =
  (inr (with_data output
          (attention_loops (scale_ fa) (data_ Q) (data_ K) (data_ V)
             (dim (shape_ Q) 0) (dim (shape_ Q) 1) (dim (shape_ Q) 2)
             (data_ output))), cache).
Proof.
  intros HQ HK HV HO. unfold compute_attention, data_float.
  rewrite HQ, HK, HV, HO. reflexivity.
Qed.

(** C5: for tensors of dtype FP32, [compute_attention] succeeds, and its
    output at query position [s] is the same for any two key/value pairs
    that agree on the positions [t <= s] of the batch element: it depends
    on no position [t > s]. *)
Theorem compute_attention_causal {F} `{Scalar F} (fa : FlashAttention F)
    (Q K K' V V' output : Tensor F) (cache : option (KVCache F)) (b s d : Z) :
  let B := dim (shape_ Q) 0 in
  let S := dim (shape_ Q) 1 in
  let D := dim (shape_ Q) 2 in
  dtype_ Q = FP32 -> dtype_ K = FP32 -> dtype_ V = FP32 ->
  dtype_ K' = FP32 -> dtype_ V' = FP32 -> dtype_ output = FP32 ->
  B * S * D <= Z.of_nat (List.length (data_ output)) ->
  0 <= b < B -> 0 <= s < S -> 0 <= d < D ->
  (forall t d', 0 <= t <= s -> 0 <= d' < D ->
     get fzero (data_ K) (b * S * D + t * D + d') =
     get fzero (data_ K') (b * S * D + t * D + d') /\
     get fzero (data_ V) (b * S * D + t * D + d') =
     get fzero (data_ V') (b * S * D + t * D + d')) ->
  exists o o',
    fst (compute_attention fa Q K V output cache) = inr o /\
    fst (compute_attention fa Q K' V' output cache) = inr o' /\
    get fzero (data_ o) (b * S * D + s * D + d) =
    get fzero (data_ o') (b * S * D + s * D + d).
Proof.
  intros B S D HQ HK HV HK' HV' HO Hlen Hb Hs Hd Hagree.
  rewrite !compute_attention_data by assumption. cbn [fst].
  do 2 eexists. split; [reflexivity|]. split; [reflexivity|].
  cbn [with_data data_].
  now apply attention_loops_causal.
Qed.

Lemma compute_attention_causal_witness :
  let fa := mkFlashAttention 1 1 1 1%R in
  let Q := mkTensor [1; 2; 1] FP32 2 8 [1; 1]%R in
  let K := mkTensor [1; 2; 1] FP32 2 8 [1; 2]%R in
  let K' := mkTensor [1; 2; 1] FP32 2 8 [1; 3]%R in
  let V := mkTensor [1; 2; 1] FP32 2 8 [4; 5]%R in
  let V' := mkTensor [1; 2; 1] FP32 2 8 [4; 9]%R in
  let output := mkTensor [1; 2; 1] FP32 2 8 [0; 0]%R in
  exists o o',
    fst (compute_attention fa Q K V output None) = inr o /\
    fst (compute_attention fa Q K' V' output None) = inr o' /\
    get 0%R (data_ o) 0 = get 0%R (data_ o') 0.
Proof.
  intros fa Q K K' V V' output.
  refine (compute_attention_causal fa Q K K' V V' output None 0 0 0
            eq_refl eq_refl eq_refl eq_refl eq_refl eq_refl _ _ _ _ _);
    try (cbn; lia).
  intros t d' Ht Hd'.
  assert (t = 0) by lia.
  assert (d' = 0) by (cbn in Hd'; lia).
  subst. split; reflexivity.
Defined.

(** ** The softmax of a row, in real arithmetic *)

Lemma Rltb_true a b : (a < b)%R -> Rltb a b = true.
Proof. intros Hab. unfold Rltb. now destruct (Rlt_dec a b). Qed.

Lemma Rltb_false a b : (b <= a)%R -> Rltb a b = false.
Proof. intros Hab. unfold Rltb. destruct (Rlt_dec a b); [lra | reflexivity]. Qed.

Lemma fltb_R_cases (m x : R) :
  (fltb m x = true /\ (m < x)%R) \/ (fltb m x = false /\ (x <= m)%R).
Proof.
  change (fltb m x) with (Rltb m x). unfold Rltb.
  destruct (Rlt_dec m x); [left | right]; split; auto; lra.
Qed.

Lemma range_ind (P : Z -> Prop) lo :
  P lo -> (forall hi, lo <= hi -> P hi -> P (hi + 1)) ->
  forall hi, lo <= hi -> P hi.
Proof.
  intros H0 Hstep hi Hle.
  apply (for_range_inv (fun n (_ : unit) => P n) lo hi (fun _ u => u) tt);
    auto.
  intros i _ Hi HP. apply Hstep; [lia | exact HP].
Qed.

Lemma sum_range_nil {F} `{Arith F} (f : Z -> F) lo hi :
  hi <= lo -> sum_range f lo hi = fzero.
Proof. intros Hle. unfold sum_range. now rewrite range_nil. Qed.

Lemma sum_range_snoc {F} `{Arith F} (f : Z -> F) lo hi :
  lo <= hi -> sum_range f lo (hi + 1) = fadd (sum_range f lo hi) (f hi).
Proof. intros Hle. unfold sum_range. now rewrite for_snoc. Qed.

Lemma sum_range_ext {F} `{Arith F} (f g : Z -> F) lo hi :
  (forall t, lo <= t < hi -> f t = g t) ->
  sum_range f lo hi = sum_range g lo hi.
Proof.
  intros Hfg. unfold sum_range. apply for_ext.
  intros t acc Ht. apply range_In in Ht. now rewrite Hfg.
Qed.

Lemma sum_range_nonneg (f : Z -> R) lo hi :
  lo <= hi -> (forall t, lo <= t < hi -> (0 <= f t)%R) ->
  (0 <= sum_range f lo hi)%R.
Proof.
  intros Hle. revert hi Hle. apply (range_ind (fun hi =>
    (forall t, lo <= t < hi -> (0 <= f t)%R) -> (0 <= sum_range f lo hi)%R)).
  - intros _. rewrite sum_range_nil by lia. cbn. lra.
  - intros hi Hle IH Hf. rewrite sum_range_snoc by lia.
    assert (0 <= sum_range f lo hi)%R by (apply IH; intros; apply Hf; lia).
    assert (0 <= f hi)%R by (apply Hf; lia).
    cbn. lra.
Qed.

Lemma sum_range_ge_term (f : Z -> R) lo hi t0 :
  (forall t, lo <= t < hi -> (0 <= f t)%R) ->
  lo <= t0 < hi -> (f t0 <= sum_range f lo hi)%R.
Proof.
  intros Hf Ht0.
  assert (Hle : lo <= hi) by lia.
  revert hi Hle Hf Ht0. apply (range_ind (fun hi =>
    (forall t, lo <= t < hi -> (0 <= f t)%R) -> lo <= t0 < hi ->
    (f t0 <= sum_range f lo hi)%R)).
  - intros _ Ht0. lia.
  - intros hi Hle IH Hf Ht0. rewrite sum_range_snoc by lia. cbn.
    assert (0 <= f hi)%R by (apply Hf; lia).
    destruct (Z.eq_dec t0 hi) as [->|Hne].
    + assert (0 <= sum_range f lo hi)%R
        by (apply sum_range_nonneg; [lia | intros; apply Hf; lia]).
      lra.
    + assert (f t0 <= sum_range f lo hi)%R
        by (apply IH; [intros; apply Hf; lia | lia]).
      lra.
Qed.

Lemma sum_range_div (f : Z -> R) (c : R) lo hi :
  lo <= hi ->
  sum_range (fun t => (f t / c)%R) lo hi = (sum_range f lo hi / c)%R.
Proof.
  intros Hle. revert hi Hle. apply range_ind.
  - rewrite !sum_range_nil by lia. cbn. unfold Rdiv. ring.
  - intros hi Hle IH. rewrite !sum_range_snoc by lia. rewrite IH.
    cbn. unfold Rdiv. ring.
Qed.

Section SoftmaxR.
Variables (scale : R) (q_data k_data : list R).
Variables (b s seq_len head_dim : Z).
Hypothesis Hs : 0 <= s < seq_len.

Local Abbreviation sc :=
  (fun t => score_at scale q_data k_data b s t seq_len head_dim).

(** After the first loop the window holds the scaled scores, and the
    running maximum is one of them and bounds them all. *)
Lemma score_pass_spec (scores : list R) :
  Z.of_nat (List.length scores) = seq_len ->
  let r := score_pass scale q_data k_data b s seq_len head_dim scores in
  Z.of_nat (List.length (snd r)) = seq_len /\
  (forall t, 0 <= t <= s -> get 0%R (snd r) t = sc t) /\
  exists m, fst r = Some m /\
            (exists t, 0 <= t <= s /\ m = sc t) /\
            (forall t, 0 <= t <= s -> (sc t <= m)%R).
Proof.
  intros Hlen r.
  pose proof (for_range_inv
    (fun n (st : option R * list R) =>
       Z.of_nat (List.length (snd st)) = seq_len /\
       (forall t, 0 <= t < n -> get 0%R (snd st) t = sc t) /\
       (n = 0 -> fst st = None) /\
       (0 < n -> exists m, fst st = Some m /\
                  (exists t, 0 <= t < n /\ m = sc t) /\
                  (forall t, 0 <= t < n -> (sc t <= m)%R)))
    0 (s + 1)
    (fun t '(max_score, scores) =>
       let score := dot_row q_data k_data b s t seq_len head_dim in
       let score := fmul score scale in
       let scores := set scores t score in
       (max_opt max_score score, scores))
    (None, scores)) as Hinv.
  destruct Hinv as (Hl & Hg & _ & Hm).
  - lia.
  - cbn [fst snd]. repeat split; auto; intros; lia.
  - intros i [mx scs] Hi (Hl & Hg & H0 & Hpos). cbn [fst snd] in *.
    change (fmul (dot_row q_data k_data b s i seq_len head_dim) scale)
      with (sc i).
    split; [now rewrite set_length|]. split; [|split].
    + intros t Ht. destruct (Z.eq_dec t i) as [->|Hne].
      * apply get_set_eq. lia.
      * rewrite get_set_ne by lia. apply Hg. lia.
    + intros Hz. lia.
    + intros _. destruct (Z.eq_dec i 0) as [->|Hne].
      * rewrite (H0 eq_refl). cbn [max_opt]. eexists. split; [reflexivity|].
        split; [exists 0; split; [lia | reflexivity]|].
        intros t Ht. replace t with 0 by lia. apply Rle_refl.
      * destruct (Hpos ltac:(lia)) as (m & -> & (t0 & Ht0 & Hmt0) & Hub).
        cbn [max_opt].
        destruct (fltb_R_cases m (sc i)) as [[-> Hlt]|[-> Hge]];
          (eexists; split; [reflexivity|]).
        -- split; [exists i; split; [lia | reflexivity]|].
           intros t Ht. destruct (Z.eq_dec t i) as [->|Hti];
             [apply Rle_refl|].
           specialize (Hub t ltac:(lia)). lra.
        -- split; [exists t0; split; [lia | exact Hmt0]|].
           intros t Ht. destruct (Z.eq_dec t i) as [->|Hti]; [lra|].
           apply Hub. lia.
  - fold r in Hl, Hg, Hm. split; [exact Hl|]. split.
    + intros t Ht. apply Hg. lia.
    + destruct (Hm ltac:(lia)) as (m & Hfm & (t0 & Ht0 & Hmt0) & Hub).
      exists m. split; [exact Hfm|].
      split; [exists t0; split; [lia | exact Hmt0]|].
      intros t Ht. apply Hub. lia.
Qed.

(** After the second loop the window holds the exponentials of the
    shifted scores and [sum_exp] is their sum. *)
Lemma exp_pass_spec (m : R) (scores : list R) :
  Z.of_nat (List.length scores) = seq_len ->
  let e := fun t => exp (get 0%R scores t - m) in
  let r := exp_pass (Some m) s scores in
  Z.of_nat (List.length (snd r)) = seq_len /\
  (forall t, 0 <= t <= s -> get 0%R (snd r) t = e t) /\
  fst r = sum_range e 0 (s + 1).
Proof.
  intros Hlen e r.
  pose proof (for_range_inv
    (fun n (st : R * list R) =>
       Z.of_nat (List.length (snd st)) = seq_len /\
       (forall t, 0 <= t < n -> get 0%R (snd st) t = e t) /\
       (forall t, n <= t -> get 0%R (snd st) t = get 0%R scores t) /\
       fst st = sum_range e 0 n)
    0 (s + 1)
    (fun t '(sum_exp, scores) =>
       let scores :=
         set scores t (fexp (sub_max (get fzero scores t) (Some m))) in
       (fadd sum_exp (get fzero scores t), scores))
    (fzero, scores)) as Hinv.
  destruct Hinv as (Hl & Hg & _ & Hsum).
  - lia.
  - cbn [fst snd]. repeat split; auto; intros; lia.
  - intros i [sum scs] Hi (Hl & Hg & Hrest & Hsum). cbn [fst snd] in *.
    cbn [sub_max].
    change (fexp (fsub (get fzero scs i) m))
      with (exp (get 0%R scs i - m)).
    rewrite (Hrest i) by lia. fold (e i).
    split; [now rewrite set_length|]. split; [|split].
    + intros t Ht. destruct (Z.eq_dec t i) as [->|Hne].
      * apply get_set_eq. lia.
      * rewrite get_set_ne by lia. apply Hg. lia.
    + intros t Ht. rewrite get_set_ne by lia. apply Hrest. lia.
    + rewrite sum_range_snoc by lia. rewrite Hsum.
      f_equal. apply get_set_eq. lia.
  - fold r in Hl, Hg, Hsum. split; [exact Hl|]. split; [|exact Hsum].
    intros t Ht. apply Hg. lia.
Qed.

(** The third loop divides the window by [sum_exp]. *)
Lemma normalize_spec (sum_exp : R) (scores : list R) :
  Z.of_nat (List.length scores) = seq_len ->
  (0 < sum_exp)%R ->
  forall t, 0 <= t <= s ->
    get 0%R (normalize sum_exp s scores) t =
    (get 0%R scores t / sum_exp)%R.
Proof.
  intros Hlen Hpos. unfold normalize.
  change (fltb fzero sum_exp) with (Rltb 0 sum_exp).
  rewrite Rltb_true by exact Hpos.
  pose proof (for_range_inv
    (fun n (scs : list R) =>
       Z.of_nat (List.length scs) = seq_len /\
       (forall t, 0 <= t < n ->
          get 0%R scs t = (get 0%R scores t / sum_exp)%R) /\
       (forall t, n <= t -> get 0%R scs t = get 0%R scores t))
    0 (s + 1)
    (fun t scores => set scores t (fdiv (get fzero scores t) sum_exp))
    scores) as Hinv.
  destruct Hinv as (_ & Hg & _).
  - lia.
  - repeat split; auto; intros; lia.
  - intros i scs Hi (Hl & Hg & Hrest).
    split; [now rewrite set_length|]. split.
    + intros t Ht. destruct (Z.eq_dec t i) as [->|Hne].
      * rewrite get_set_eq by lia.
        change (fdiv (get fzero scs i) sum_exp)
          with (get 0%R scs i / sum_exp)%R.
        rewrite (Hrest i) by lia. reflexivity.
      * rewrite get_set_ne by lia. apply Hg. lia.
    + intros t Ht. rewrite get_set_ne by lia. apply Hrest. lia.
  - intros t Ht. apply Hg. lia.
Qed.
End SoftmaxR.



(** ** The forward pass: validation and the cache *)

Lemma exp_eq_1 x : x = 0%R -> exp x = 1%R.
Proof. intros ->. apply exp_0. Qed.

(** Evaluation of the attention kernels on concrete real inputs:
    comparisons are decided by [lra] and the exponentials that occur are
    those of [0]. *)
Ltac eval_attention :=
  repeat first
    [ progress eval_R
    | match goal with
      | |- context [Rltb ?a ?b] =>
          first [ rewrite (Rltb_true a b) by lra
                | rewrite (Rltb_false a b) by lra ]
      end
    | match goal with
      | |- context [exp ?x] => rewrite (exp_eq_1 x) by lra
      end ].

Section CacheUntouched.
Context {F : Type} `{Scalar F}.

Lemma keeps_cache_ret {A} (a : A) : keeps_cache (@ret F A a).
Proof. intros c. reflexivity. Qed.

Lemma keeps_cache_throw {A} e : keeps_cache (@throw F A e).
Proof. intros c. reflexivity. Qed.

Lemma keeps_cache_lift {A} (r : result A) : keeps_cache (@lift F A r).
Proof. intros c. reflexivity. Qed.

Lemma keeps_cache_mbind {A B} (m : M F A) (k : A -> M F B) :
  keeps_cache m -> (forall a, keeps_cache (k a)) -> keeps_cache (mbind m k).
Proof.
  intros Hm Hk c. unfold mbind. specialize (Hm c).
  destruct (m c) as [[e|a] c']; cbn [snd] in *; subst; [reflexivity|].
  apply Hk.
Qed.

Lemma keeps_cache_for_M {St} (idx : list Z) (body : Z -> St -> M F St) s :
  (forall i s, keeps_cache (body i s)) -> keeps_cache (for_M idx body s).
Proof.
  intros Hbody. unfold for_M.
  assert (Hgen : forall acc, keeps_cache acc ->
            keeps_cache (fold_left (fun acc i => mbind acc (body i)) idx acc)).
  { induction idx as [|i idx IH]; intros acc Hacc; cbn [fold_left].
    - exact Hacc.
    - apply IH. apply keeps_cache_mbind; [exact Hacc | intros; apply Hbody]. }
  apply Hgen. apply keeps_cache_ret.
Qed.

Lemma keeps_cache_compute_attention (fa : FlashAttention F)
    (Q K V output : Tensor F) :
  keeps_cache (compute_attention fa Q K V output).
Proof. intros c. reflexivity. Qed.

Lemma keeps_cache_forward_head (fa : FlashAttention F)
    (query key value : Tensor F) batch_size seq_len hidden_size head output :
  keeps_cache
    (forward_head fa query key value batch_size seq_len hidden_size head
       output).
Proof.
  unfold forward_head.
  repeat (apply keeps_cache_mbind;
          [first [apply keeps_cache_lift | idtac] | intros ?]);
    try apply keeps_cache_lift.
  destruct (extract_head _ _ _ _ _ _ _ _ _ _ _) as [[qh kh] vh].
  repeat (apply keeps_cache_mbind; [|intros ?]);
    try apply keeps_cache_compute_attention;
    try apply keeps_cache_lift; try apply keeps_cache_ret.
Qed.

(** Whatever the inputs, [forward] neither appends to the cache nor
    advances [current_length]: the cache after the call is the cache
    before it. *)
Lemma forward_cache_unchanged (fa : FlashAttention F)
    (query key value : Tensor F) (cache : option (KVCache F)) :
  snd (forward fa query key value cache) = cache.
Proof.
  unfold forward.
  destruct (_ || _ || _); [reflexivity|].
  destruct (_ || _); [reflexivity|].
  destruct (_ || _); [reflexivity|].
  apply keeps_cache_for_M. intros i s. apply keeps_cache_forward_head.
Qed.
End CacheUntouched.

(** C1 on the code.  A sequence of two positions, one head, one channel,
    all queries and keys [0], values [0] and [2].  One full pass gives
    position 1 the mean of both values, [1].  Prefilling position 0 and
    then decoding position 1 with the cache gives [2]: the decode call
    attends to its own key/value only.  After both calls the cache is the
    empty cache it was: no key or value was appended and [current_length]
    is still 0. *)
Theorem forward_ignores_cache :
  let fa := mkFlashAttention 1 1 1 1%R in
  let cache0 := Some (mkKVCache [] [] 0) in
  let tensor := fun shape xs => mkTensor shape FP32 (calculate_numel shape)
                                  (calculate_byte_size (calculate_numel shape) FP32)
                                  (xs : list R) in
  let full := forward fa (tensor [1; 2; 1] [0; 0]%R)
                (tensor [1; 2; 1] [0; 0]%R) (tensor [1; 2; 1] [0; 2]%R) None in
  let prefill := forward fa (tensor [1; 1; 1] [0]%R)
                   (tensor [1; 1; 1] [0]%R) (tensor [1; 1; 1] [0]%R) cache0 in
  let decode := forward fa (tensor [1; 1; 1] [0]%R)
                  (tensor [1; 1; 1] [0]%R) (tensor [1; 1; 1] [2]%R)
                  (snd prefill) in
  snd prefill = cache0 /\
  snd decode = cache0 /\
  exists o_full o_decode,
    fst full = inr o_full /\ fst decode = inr o_decode /\
    get 0%R (data_ o_full) 1 = 1%R /\
    get 0%R (data_ o_decode) 0 = 2%R /\
    get 0%R (data_ o_decode) 0 <> get 0%R (data_ o_full) 1.
Proof.
  intros fa cache0 tensor full prefill decode.
  assert (Hp : snd prefill = cache0) by apply forward_cache_unchanged.
  split; [exact Hp|].
  split; [unfold decode; rewrite forward_cache_unchanged; exact Hp|].
  assert (Hfull : exists x0 x1,
            fst full = inr (tensor [1; 2; 1] [x0; x1]) /\ x1 = 1%R).
  { unfold full, fa, tensor. eval_attention.
    do 2 eexists. split; [reflexivity|]. field. }
  assert (Hdec : exists x0,
            fst decode = inr (tensor [1; 1; 1] [x0]) /\ x0 = 2%R).
  { unfold decode. rewrite Hp. unfold cache0, fa, tensor. eval_attention.
    eexists. split; [reflexivity|]. field. }
  destruct Hfull as (x0 & x1 & Hf & Hx1), Hdec as (y0 & Hd & Hy0).
  exists (tensor [1; 2; 1] [x0; x1]), (tensor [1; 1; 1] [y0]).
  split; [exact Hf|]. split; [exact Hd|].
  unfold tensor; cbn [data_]. subst x1 y0.
  change (get 0%R [x0; 1%R] 1) with 1%R.
  change (get 0%R [2%R] 0) with 2%R.
  repeat split; lra.
Qed.

(** *** Validation in [forward] *)

Lemma range_cons lo hi : lo < hi -> range lo hi = lo :: range (lo + 1) hi.
Proof.
  intros Hlt. unfold range.
  replace (Z.to_nat (hi - lo)) with (S (Z.to_nat (hi - (lo + 1)))) by lia.
  reflexivity.
Qed.

Lemma for_M_throws {F St} (idx : list Z) (body : Z -> St -> M F St)
    (acc : M F St) e cache cache' :
  acc cache = (inl e, cache') ->
  fold_left (fun acc i => mbind acc (body i)) idx acc cache = (inl e, cache').
Proof.
  revert acc. induction idx as [|i idx IH]; intros acc Hacc; cbn [fold_left].
  - exact Hacc.
  - apply IH. unfold mbind. now rewrite Hacc.
Qed.

Lemma mbind_ret {F A B} (a : A) (k : A -> M F B) cache :
  mbind (ret a) k cache = k a cache.
Proof. reflexivity. Qed.

Lemma for_M_head_throws {F St} (idx : list Z) (body : Z -> St -> M F St)
    i s e cache :
  body i s cache = (inl e, cache) ->
  for_M (i :: idx) body s cache = (inl e, cache).
Proof.
  intros Hb. unfold for_M. cbn [fold_left].
  apply for_M_throws. rewrite mbind_ret. exact Hb.
Qed.

Lemma forward_head_dtype {F} `{Scalar F} (fa : FlashAttention F)
    (query key value : Tensor F) batch_size seq_len hidden_size head output
    cache :
  dtype_ query <> FP32 \/ dtype_ key <> FP32 \/ dtype_ value <> FP32 ->
  exists e,
    forward_head fa query key value batch_size seq_len hidden_size head output
      cache = (inl e, cache).
Proof.
  intros Hd. unfold forward_head, mbind, lift, data_float.
  destruct (dtype_ query), (dtype_ key), (dtype_ value);
    cbn [element_size Z.eqb Pos.eqb negb];
    try (eexists; reflexivity).
  exfalso. destruct Hd as [Hd|[Hd|Hd]]; now apply Hd.
Qed.

Lemma forward_head_ok {F} `{Scalar F} (fa : FlashAttention F)
    (query key value : Tensor F) batch_size seq_len hidden_size head
    (output : Tensor F) cache :
  dtype_ query = FP32 -> dtype_ key = FP32 -> dtype_ value = FP32 ->
  dtype_ output = FP32 ->
  exists o,
    forward_head fa query key value batch_size seq_len hidden_size head output
      cache = (inr o, cache) /\
    shape_ o = shape_ output /\ dtype_ o = FP32.
Proof.
  intros HQ HK HV HO.
  unfold forward_head, mbind, lift, data_float. rewrite HQ, HK, HV.
  cbn [dtype_ Tensor_f32 with_data element_size Z.eqb Pos.eqb negb].
  destruct (extract_head _ _ _ _ _ _ _ _ _ _ _) as [[qh kh] vh].
  unfold compute_attention, data_float.
  cbn [dtype_ Tensor_f32 with_data element_size Z.eqb Pos.eqb negb bind].
  rewrite HO.
  cbn [dtype_ Tensor_f32 with_data element_size Z.eqb Pos.eqb negb bind].
  eexists. split; [reflexivity|]. cbn [with_data shape_ dtype_].
  split; [reflexivity | exact HO].
Qed.

Lemma for_M_ok {F St} (I : St -> Prop) (idx : list Z)
    (body : Z -> St -> M F St) s cache :
  (forall i s, In i idx -> I s ->
     exists s', body i s cache = (inr s', cache) /\ I s') ->
  I s ->
  exists s', for_M idx body s cache = (inr s', cache) /\ I s'.
Proof.
  intros Hbody Hs. unfold for_M.
  assert (Hgen : forall (acc : M F St) s,
            acc cache = (inr s, cache) -> I s ->
            exists s',
              fold_left (fun acc i => mbind acc (body i)) idx acc cache
              = (inr s', cache) /\ I s').
  { induction idx as [|i idx IH]; intros acc s0 Hacc Hs0; cbn [fold_left].
    - exists s0. split; assumption.
    - destruct (Hbody i s0 (or_introl eq_refl) Hs0) as (s1 & Hb & Hs1).
      apply (IH (fun j s Hj => Hbody j s (or_intror Hj))
               (mbind acc (body i)) s1); [|exact Hs1].
      unfold mbind. rewrite Hacc. exact Hb. }
  apply (Hgen (ret s) s); [reflexivity | exact Hs].
Qed.

Lemma dtype_eq_dec (a b : DType) : {a = b} + {a <> b}.
Proof. decide equality. Qed.




(** ** The round trip of the packer for an even row length *)

Lemma range_from_shift n lo a step :
  range_from n lo step =
  map (fun i => lo + (i - a) * step) (range_from n a 1).
Proof.
  revert lo a. induction n as [|n IH]; intros lo a; cbn [range_from map].
  - reflexivity.
  - f_equal; [lia|].
    rewrite (IH (lo + step) (a + 1)). apply map_ext. intros i. lia.
Qed.

Lemma range_step_even H :
  0 <= H -> range_step 0 (2 * H) 2 = map (fun i => 2 * i) (range 0 H).
Proof.
  intros HH. unfold range_step, range.
  replace ((2 * H - 0 + 2 - 1) / 2) with H.
  - rewrite (range_from_shift _ 0 0 2), Z.sub_0_r.
    apply map_ext. intros i. lia.
  - apply Z.div_unique with (r := 1); lia.
Qed.

Lemma for_map {St} (f : Z -> Z) (l : list Z) (body : Z -> St -> St) s :
  for_ (map f l) body s = for_ l (fun i => body (f i)) s.
Proof.
  unfold for_. revert s. induction l as [|i l IH]; intros s; cbn; auto.
Qed.

(** The byte the packer builds from two quantised weights, and the two
    nibbles the decoder reads back from it. *)
Lemma nibbles_roundtrip q1 q2 :
  -8 <= q1 <= 7 -> -8 <= q2 <= 7 ->
  let byte :=
    to_uint8
      (Z.lor (to_uint8 (Z.lor 0 (Z.land (to_uint8 q1) 15)))
         (Z.shiftl (Z.land (to_uint8 q2) 15) 4)) in
  0 <= byte < 256 /\
  decode_q4_signed (Z.land byte 15) = q1 /\
  decode_q4_signed (Z.shiftr byte 4) = q2.
Proof.
  intros H1 H2.
  assert (Hall : forallb (fun q1 => forallb (fun q2 =>
            let byte :=
              to_uint8
                (Z.lor (to_uint8 (Z.lor 0 (Z.land (to_uint8 q1) 15)))
                   (Z.shiftl (Z.land (to_uint8 q2) 15) 4)) in
            (0 <=? byte) && (byte <? 256)
            && (decode_q4_signed (Z.land byte 15) =? q1)
            && (decode_q4_signed (Z.shiftr byte 4) =? q2))
            (range (-8) 8)) (range (-8) 8) = true) by (vm_compute; reflexivity).
  rewrite forallb_forall in Hall.
  specialize (Hall q1 (proj2 (range_In (-8) 8 q1) ltac:(lia))).
  rewrite forallb_forall in Hall.
  specialize (Hall q2 (proj2 (range_In (-8) 8 q2) ltac:(lia))).
  cbv zeta in Hall.
  apply andb_prop in Hall as [Hall Hq2].
  apply andb_prop in Hall as [Hall Hq1].
  apply andb_prop in Hall as [Hlo Hhi].
  cbv zeta. split; [lia|]. split; lia.
Qed.

Section PackEven.
Context {F : Type} `{Scalar F}.

Lemma pack_scales_out (weights scales : list F) qweights
    (scales_out : list F) M K m :
  M <= Z.of_nat (List.length scales_out) -> 0 <= m < M ->
  get fzero (snd (pack_q4_rowwise weights scales qweights scales_out M K)) m =
  get fzero scales m.
Proof.
  intros Hlen Hm. unfold pack_q4_rowwise. cbn [snd].
  rewrite (for_ext (range 0 M) _
             (fun i so => set so (0 + i) (get fzero scales i)))
    by (intros i so _; reflexivity).
  destruct (writes_cells fzero (fun i => get fzero scales i) 0 M
              ltac:(lia) ltac:(lia) scales_out ltac:(lia) ltac:(lia))
    as (_ & Hp & _).
  apply (Hp m Hm).
Qed.

(** The byte that holds the weights [(m, 2i)] and [(m, 2i+1)]. *)
Lemma pack_byte_even (weights scales_out : list F) qweights M Kh m i :
  0 <= Kh -> M * Kh <= Z.of_nat (List.length qweights) ->
  0 <= m < M -> 0 <= i < Kh ->
  let K := 2 * Kh in
  let q := fun k => quantize_q4 (get fzero weights (m * K + k))
                      (get fzero scales_out m) in
  get 0
    (for_ (range 0 M) (fun m qw =>
       for_ (range_step 0 K 2) (fun k qw =>
         let byte := 0 in
         let q1 := quantize_q4 (get fzero weights (m * K + k))
                     (get fzero scales_out m) in
         let byte := to_uint8 (Z.lor byte (Z.land (to_uint8 q1) 15)) in
         let byte :=
           if k + 1 <? K then
             let q2 := quantize_q4 (get fzero weights (m * K + k + 1))
                         (get fzero scales_out m) in
             to_uint8 (Z.lor byte (Z.shiftl (Z.land (to_uint8 q2) 15) 4))
           else byte in
         set qw (Z.quot (m * K + k) 2) byte) qw) qweights)
    (m * Kh + i) =
  to_uint8
    (Z.lor (to_uint8 (Z.lor 0 (Z.land (to_uint8 (q (2 * i))) 15)))
       (Z.shiftl (Z.land (to_uint8 (q (2 * i + 1))) 15) 4)).
Proof.
  intros HH Hlen Hm Hi K q.
  set (B := fun m i =>
    to_uint8
      (Z.lor
         (to_uint8 (Z.lor 0 (Z.land (to_uint8
            (quantize_q4 (get fzero weights (m * K + 2 * i))
               (get fzero scales_out m))) 15)))
         (Z.shiftl (Z.land (to_uint8
            (quantize_q4 (get fzero weights (m * K + (2 * i + 1)))
               (get fzero scales_out m))) 15) 4))).
  match goal with
  | |- get 0 ?L _ = _ => change (get 0 L (m * Kh + i) = B m i)
  end.
  assert (Hrow : forall m0, 0 <= m0 ->
    writes_block 0
      (fun qw =>
         for_ (range_step 0 K 2) (fun k qw =>
           let byte := 0 in
           let q1 := quantize_q4 (get fzero weights (m0 * K + k))
                       (get fzero scales_out m0) in
           let byte := to_uint8 (Z.lor byte (Z.land (to_uint8 q1) 15)) in
           let byte :=
             if k + 1 <? K then
               let q2 := quantize_q4 (get fzero weights (m0 * K + k + 1))
                           (get fzero scales_out m0) in
               to_uint8 (Z.lor byte (Z.shiftl (Z.land (to_uint8 q2) 15) 4))
             else byte in
           set qw (Z.quot (m0 * K + k) 2) byte) qw)
      (m0 * Kh) Kh (fun i y => y = B m0 i)).
  { intros m0 Hm0.
    eapply writes_block_ext;
      [|apply (writes_cells 0 (B m0) (m0 * Kh) Kh HH); nia].
    intros a. unfold K. rewrite range_step_even by lia. rewrite for_map.
    apply for_ext. intros j qw Hj. apply range_In in Hj. cbv zeta.
    replace (2 * j + 1 <? 2 * Kh) with true by (symmetry; apply Z.ltb_lt; lia).
    rewrite Z.quot_div_nonneg by nia.
    replace (m0 * (2 * Kh) + 2 * j) with ((m0 * Kh + j) * 2) by ring.
    rewrite Z.div_mul by lia.
    unfold B, K.
    replace ((m0 * Kh + j) * 2 + 1) with (m0 * (2 * Kh) + (2 * j + 1)) by ring.
    replace ((m0 * Kh + j) * 2) with (m0 * (2 * Kh) + 2 * j) by ring.
    reflexivity. }
  destruct (writes_block_for 0 _ 0 Kh M (fun m i y => y = B m i) HH
              ltac:(lia) ltac:(lia)
              (fun m0 Hm0 => Hrow m0 (proj1 Hm0)) qweights
              ltac:(lia) ltac:(lia)) as (_ & Hp & _).
  assert (HmH : 0 <= m * Kh + i < M * Kh) by nia.
  apply (Hp (m * Kh + i) HmH m i Hm Hi eq_refl).
Qed.
End PackEven.

Lemma quantize_q4_range {F} `{Scalar F} (w scale : F) :
  -8 <= quantize_q4 w scale <= 7.
Proof. unfold quantize_q4, clamp_q4. lia. Qed.

(** For an even row length every element has a nibble of its own: the
    nibble read back at [(m, k)] is the quantised weight [(m, k)]. *)
Lemma pack_nibble_even {F} `{Scalar F} (weights scales : list F) qweights
    (scales_out : list F) M Kh m k :
  let K := 2 * Kh in
  M * Kh <= Z.of_nat (List.length qweights) ->
  M <= Z.of_nat (List.length scales_out) ->
  0 <= m < M -> 0 <= k < K ->
  signed_nibble
    (fst (pack_q4_rowwise weights scales qweights scales_out M K)) m K k =
  quantize_q4 (get fzero weights (m * K + k)) (get fzero scales m).
Proof.
  intros K Hq Hso Hm Hk.
  pose proof (pack_scales_out weights scales qweights scales_out M K m Hso Hm)
    as Hscale.
  unfold pack_q4_rowwise in *. cbn [fst snd] in *.
  set (so := for_ (range 0 M) (fun i so => set so i (get fzero scales i))
               scales_out) in *.
  assert (HKh : 0 <= Kh) by (unfold K in Hk; lia).
  set (i := k / 2).
  assert (Hk2 : k = 2 * i + k mod 2) by (unfold i; apply Z.div_mod; lia).
  assert (Hr : 0 <= k mod 2 < 2) by (apply Z.mod_pos_bound; lia).
  assert (Hi : 0 <= i < Kh) by (unfold K in Hk; lia).
  pose proof (pack_byte_even weights so qweights M Kh m i HKh Hq Hm Hi)
    as Hbyte.
  cbv zeta in Hbyte. fold K in Hbyte.
  unfold signed_nibble, nibble_at.
  assert (Hidx : Z.quot (m * K + k) 2 = m * Kh + i).
  { rewrite Z.quot_div_nonneg by nia.
    unfold K. rewrite Hk2.
    replace (m * (2 * Kh) + (2 * i + k mod 2))
      with (k mod 2 + (m * Kh + i) * 2) by ring.
    rewrite Z.div_add by lia. rewrite Z.div_small by lia. lia. }
  rewrite Hidx, Hbyte.
  destruct (nibbles_roundtrip
              (quantize_q4 (get fzero weights (m * K + 2 * i)) (get fzero so m))
              (quantize_q4 (get fzero weights (m * K + (2 * i + 1)))
                 (get fzero so m))
              (quantize_q4_range _ _) (quantize_q4_range _ _))
    as (_ & Hlo & Hhi).
  cbv zeta in Hlo, Hhi.
  rewrite Z.rem_mod_nonneg by lia.
  destruct (Z.eq_dec (k mod 2) 0) as [E|E].
  - rewrite E, Z.eqb_refl, Hlo, Hscale.
    replace (2 * i) with k by lia. reflexivity.
  - replace (k mod 2 =? 0) with false by (symmetry; apply Z.eqb_neq; exact E).
    rewrite Hhi, Hscale.
    replace (2 * i + 1) with k by lia. reflexivity.
Qed.


(** The example of the unit test: the weights [-3 .. 4] as a [2 x 4] matrix
    with row scale 1 are packed into four bytes, come back exactly, and the
    fused product with [x = [1, 1, 1, 1]] gives the row sums. *)
Example q4_unit_test :
  let weights := [-3; -2; -1; 0; 1; 2; 3; 4]%R in
  let scales := [1; 1]%R in
  let packed := pack_q4_rowwise weights scales [0; 0; 0; 0] [0; 0]%R 2 4 in
  fst packed = [237; 15; 33; 67] /\
  (forall i, 0 <= i < 8 ->
     get 0%R (dequantize_q4_rowwise (fst packed) (snd packed)
                [0; 0; 0; 0; 0; 0; 0; 0]%R 2 4) i = get 0%R weights i) /\
  get 0%R (matvec_q4_rowwise (fst packed) (snd packed) [1; 1; 1; 1]%R
             [0; 0]%R 2 4) 0 = (-6)%R /\
  get 0%R (matvec_q4_rowwise (fst packed) (snd packed) [1; 1; 1; 1]%R
             [0; 0]%R 2 4) 1 = 10%R.
Proof.
  intros weights scales packed.
  assert (Hp : packed = ([237; 15; 33; 67], [1; 1]%R)).
  { unfold packed, weights, scales. eval_pack.
    rewrite !quantize_q4_IZR. reflexivity. }
  rewrite Hp. cbn [fst snd]. split; [reflexivity|]. split.
  - intros i Hi.
    assert (Hcases : i = 0 \/ i = 1 \/ i = 2 \/ i = 3 \/ i = 4 \/ i = 5 \/
                     i = 6 \/ i = 7) by lia.
    unfold weights.
    destruct Hcases as [->|[->|[->|[->|[->|[->|[->| ->]]]]]]];
      eval_R; lra.
  - split; eval_R; lra.
Qed.

(** ** The codec equivalence under rounding *)

Section RoundingError.
Variable rnd : R -> R.
Variable u : R.
Hypothesis Hu : (0 <= u)%R.
Hypothesis Hrnd : forall x, (Rabs (rnd x - x) <= u * Rabs x)%R.

Lemma gamma_succ j : gamma u (S j) = ((1 + u) * gamma u j + u)%R.
Proof. unfold gamma. cbn [pow]. ring. Qed.

Lemma gamma_nonneg j : (0 <= gamma u j)%R.
Proof.
  induction j as [|j IH].
  - unfold gamma. cbn [pow]. lra.
  - rewrite gamma_succ. nra.
Qed.

Lemma gamma_le_succ j : (gamma u j <= gamma u (S j))%R.
Proof.
  rewrite gamma_succ. pose proof (gamma_nonneg j). nra.
Qed.

Lemma gamma_mono j k : (j <= k)%nat -> (gamma u j <= gamma u k)%R.
Proof.
  induction 1 as [|k Hle IH]; [apply Rle_refl|].
  pose proof (gamma_le_succ k). lra.
Qed.

Lemma rnd_0 : rnd 0 = 0%R.
Proof.
  pose proof (Hrnd 0) as H0.
  rewrite Rabs_R0, Rmult_0_r, Rminus_0_r in H0.
  pose proof (Rabs_pos (rnd 0)).
  destruct (Req_dec (rnd 0) 0) as [E|E]; [exact E|].
  apply Rabs_pos_lt in E. lra.
Qed.

(** One more rounding adds one step to the accumulated error. *)
Lemma round_step (v E B : R) j :
  (Rabs (v - E) <= gamma u j * B)%R -> (Rabs E <= B)%R ->
  (Rabs (rnd v - E) <= gamma u (S j) * B)%R.
Proof.
  intros Hv HE.
  pose proof (Hrnd v) as Hr.
  pose proof (gamma_nonneg j) as Hg.
  assert (HB : (0 <= B)%R) by (pose proof (Rabs_pos E); lra).
  assert (Hav : (Rabs v <= Rabs E + Rabs (v - E))%R).
  { replace v with (E + (v - E))%R at 1 by ring. apply Rabs_triang. }
  assert (Htri : (Rabs (rnd v - E) <= Rabs (rnd v - v) + Rabs (v - E))%R).
  { replace (rnd v - E)%R with ((rnd v - v) + (v - E))%R by ring.
    apply Rabs_triang. }
  rewrite gamma_succ.
  assert (Huv : (u * Rabs v <= u * (B + gamma u j * B))%R)
    by (apply Rmult_le_compat_l; lra).
  nra.
Qed.
Lemma sum_range_abs (t : Z -> R) n :
  0 <= n ->
  (Rabs (@sum_range R R_Arith t 0 n)
   <= @sum_range R R_Arith (fun k => Rabs (t k)) 0 n)%R.
Proof.
  revert n. apply range_ind.
  - rewrite !sum_range_nil by lia. cbn. rewrite Rabs_R0. lra.
  - intros hi Hle IH. rewrite !sum_range_snoc by lia. cbn [fadd R_Arith].
    pose proof (Rabs_triang (@sum_range R R_Arith t 0 hi) (t hi)). lra.
Qed.

Lemma sum_range_scale (s : R) (t : Z -> R) n :
  0 <= n ->
  @sum_range R R_Arith (fun k => (s * t k)%R) 0 n =
  (s * @sum_range R R_Arith t 0 n)%R.
Proof.
  revert n. apply range_ind.
  - rewrite !sum_range_nil by lia. cbn. ring.
  - intros hi Hle IH. rewrite !sum_range_snoc by lia. cbn [fadd R_Arith].
    rewrite IH. ring.
Qed.

(** A dot product accumulated with rounding, from terms that carry [p]
    roundings themselves. *)
Lemma dot_error (c t : Z -> R) (p : nat) (n : Z) :
  0 <= n ->
  (forall k, 0 <= k < n -> (Rabs (c k - t k) <= gamma u p * Rabs (t k))%R) ->
  (Rabs (for_ (range 0 n) (fun k acc => rnd (acc + c k)) 0%R
         - @sum_range R R_Arith t 0 n)
   <= gamma u (Z.to_nat n + p)
      * @sum_range R R_Arith (fun k => Rabs (t k)) 0 n)%R.
Proof.
  intros Hn. revert n Hn. apply (range_ind (fun n =>
    (forall k, 0 <= k < n ->
       (Rabs (c k - t k) <= gamma u p * Rabs (t k))%R) ->
    (Rabs (for_ (range 0 n) (fun k acc => rnd (acc + c k)) 0%R
           - @sum_range R R_Arith t 0 n)
     <= gamma u (Z.to_nat n + p)
        * @sum_range R R_Arith (fun k => Rabs (t k)) 0 n)%R)).
  - intros _. rewrite range_nil, !sum_range_nil by lia. cbn.
    rewrite Rminus_0_r, Rabs_R0. lra.
  - intros hi Hle IH Hc.
    specialize (IH (fun k Hk => Hc k ltac:(lia))).
    rewrite for_snoc, !sum_range_snoc by lia. cbn [fadd R_Arith].
    set (acc := for_ (range 0 hi) (fun k acc => rnd (acc + c k)) 0%R) in *.
    set (S := @sum_range R R_Arith t 0 hi) in *.
    set (A := @sum_range R R_Arith (fun k => Rabs (t k)) 0 hi) in *.
    replace (Z.to_nat (hi + 1) + p)%nat with (Datatypes.S (Z.to_nat hi + p))
      by lia.
    pose proof (Hc hi ltac:(lia)) as Hterm.
    pose proof (sum_range_abs t hi Hle) as HSA. fold S A in HSA.
    pose proof (gamma_mono p (Z.to_nat hi + p) ltac:(lia)) as Hgp.
    pose proof (gamma_nonneg p) as Hg0.
    pose proof (Rabs_pos (t hi)) as Ht0.
    apply round_step.
    + replace (acc + c hi - (S + t hi))%R
        with ((acc - S) + (c hi - t hi))%R by ring.
      pose proof (Rabs_triang (acc - S) (c hi - t hi)). nra.
    + pose proof (Rabs_triang S (t hi)). lra.
Qed.
End RoundingError.

(** A loop whose store at [base + k] reads the cell it overwrites, as the
    [beta * C] term of the GEMM kernels does. *)
Lemma writes_cells_dep {A} (d : A) (v : Z -> A -> A) base n (a : list A) k :
  0 <= base -> base + n <= Z.of_nat (List.length a) -> 0 <= k < n ->
  get d (for_ (range 0 n)
           (fun k a => set a (base + k) (v k (get d a (base + k)))) a)
    (base + k) =
  v k (get d a (base + k)).
Proof.
  intros Hbase Hlen Hk.
  pose proof (for_range_inv
    (fun i (cur : list A) =>
       List.length cur = List.length a /\
       (forall j, 0 <= j < i ->
          get d cur (base + j) = v j (get d a (base + j))) /\
       (forall j, i <= j -> get d cur (base + j) = get d a (base + j)))
    0 n
    (fun k a => set a (base + k) (v k (get d a (base + k)))) a) as Hinv.
  destruct Hinv as (_ & Hp & _).
  - lia.
  - repeat split; auto; intros; lia.
  - intros i cur Hi (Hl & Hp & Hrest).
    split; [now rewrite set_length|]. split.
    + intros j Hj. destruct (Z.eq_dec j i) as [->|Hne].
      * rewrite get_set_eq by lia. now rewrite Hrest by lia.
      * rewrite get_set_ne by lia. apply Hp. lia.
    + intros j Hj. rewrite get_set_ne by lia. apply Hrest. lia.
  - apply Hp. exact Hk.
Qed.

Lemma matvec_loop_cell {F} `{Arith F} (A_data x_data y_data : list F)
    M K (alpha beta : F) m :
  M <= Z.of_nat (List.length y_data) -> 0 <= m < M ->
  get fzero (matvec_loop A_data x_data y_data M K alpha beta) m =
  fadd
    (fmul alpha
       (sum_range (fun k => fmul (get fzero A_data (m * K + k))
                              (get fzero x_data k)) 0 K))
    (fmul beta (get fzero y_data m)).
Proof.
  intros Hlen Hm.
  pose proof (writes_cells_dep fzero
    (fun m ym =>
       fadd
         (fmul alpha
            (sum_range (fun k => fmul (get fzero A_data (m * K + k))
                                   (get fzero x_data k)) 0 K))
         (fmul beta ym))
    0 M y_data m ltac:(lia) ltac:(lia) Hm) as Hc.
  cbn [Z.add] in Hc. exact Hc.
Qed.

Lemma gamma_1 u : gamma u 1 = u.
Proof. unfold gamma. cbn [pow]. ring. Qed.



(** ** Loops that update disjoint cells *)

Lemma get_ext {A} (d : A) (a b : list A) :
  List.length a = List.length b ->
  (forall j, 0 <= j < Z.of_nat (List.length a) -> get d a j = get d b j) ->
  a = b.
Proof.
  intros Hl Hg. apply (nth_ext a b d d Hl). intros n Hn.
  specialize (Hg (Z.of_nat n)). unfold get in Hg.
  destruct (Z.of_nat n <? 0) eqn:E; [lia|].
  rewrite Nat2Z.id in Hg. apply Hg. lia.
Qed.

Lemma get_out_of_range {A} (d : A) (a : list A) j :
  j < 0 \/ Z.of_nat (List.length a) <= j -> get d a j = d.
Proof.
  intros Hj. unfold get. destruct (j <? 0) eqn:E; [reflexivity|].
  apply nth_overflow. lia.
Qed.

Lemma cellwise_set {A} (d : A) i (v : A -> A) (P : Z -> A -> A -> Prop) :
  (forall old, P i old (v old)) ->
  cellwise d (fun a => set a i (v (get d a i))) (fun j => j = i) P.
Proof.
  intros HP a Hin. split; [apply set_length|]. split.
  - intros j ->. rewrite get_set_eq by (apply Hin; reflexivity). apply HP.
  - intros j Hj. apply get_set_ne. congruence.
Qed.

Lemma cellwise_id {A} (d : A) (P : Z -> A -> A -> Prop) :
  cellwise d (fun a => a) (fun _ => False) P.
Proof. intros a _. split; [reflexivity|]. split; [tauto|reflexivity]. Qed.

Lemma cellwise_iff {A} (d : A) f (S S' : Z -> Prop) P :
  (forall j, S j <-> S' j) -> cellwise d f S P -> cellwise d f S' P.
Proof.
  intros HS Hf a Hin.
  destruct (Hf a) as (Hl & Hw & Hk).
  { intros j Hj. apply Hin, HS, Hj. }
  split; [exact Hl|]. split.
  - intros j Hj. apply Hw, HS, Hj.
  - intros j Hj. apply Hk. intros Hj'. apply Hj, HS, Hj'.
Qed.

Lemma cellwise_ext {A} (d : A) f g (S : Z -> Prop) P :
  (forall a, f a = g a) -> cellwise d f S P -> cellwise d g S P.
Proof. intros E Hf a Hin. rewrite <- E. apply Hf, Hin. Qed.

(** A loop whose iterations update pairwise disjoint sets of cells updates
    their union. *)
Lemma cellwise_for {A} (d : A) (l : list Z) (body : Z -> list A -> list A)
    (S : Z -> Z -> Prop) (P : Z -> A -> A -> Prop) :
  NoDup l ->
  (forall i, In i l -> cellwise d (body i) (S i) P) ->
  (forall i i' j, In i l -> In i' l -> i <> i' -> S i j -> S i' j -> False) ->
  cellwise d (for_ l body) (fun j => exists i, In i l /\ S i j) P.
Proof.
  induction l as [|i l IH]; intros Hnd Hb Hdis a Hin.
  - split; [reflexivity|]. split.
    + intros j (i & [] & _).
    + reflexivity.
  - inversion Hnd as [|? ? Hni Hnd']; subst.
    unfold for_ in *. cbn [fold_left].
    destruct (Hb i (or_introl eq_refl) a) as (Hl1 & Hw1 & Hk1).
    { intros j Hj. apply Hin. exists i. split; [left; reflexivity|exact Hj]. }
    destruct (IH Hnd'
                (fun i' Hi' => Hb i' (or_intror Hi'))
                (fun i1 i2 j H1 H2 => Hdis i1 i2 j (or_intror H1) (or_intror H2))
                (body i a)) as (Hl2 & Hw2 & Hk2).
    { intros j (i' & Hi' & Hj). rewrite Hl1. apply Hin.
      exists i'. split; [right; exact Hi'|exact Hj]. }
    split; [congruence|]. split.
    + intros j (i' & [<-|Hi'] & Hj).
      * rewrite Hk2; [apply Hw1, Hj|].
        intros (i2 & Hi2 & Hj2).
        apply (Hdis i i2 j); [left; reflexivity|right; exact Hi2| |exact Hj|exact Hj2].
        intros ->. contradiction.
      * rewrite <- (Hk1 j); [apply Hw2; exists i'; split; assumption|].
        intros Hj1.
        apply (Hdis i i' j); [left; reflexivity|right; exact Hi'| |exact Hj1|exact Hj].
        intros ->. contradiction.
    + intros j Hj. rewrite Hk2, Hk1; [reflexivity| |].
      * intros Hj1. apply Hj. exists i. split; [left; reflexivity|exact Hj1].
      * intros (i' & Hi' & Hj'). apply Hj. exists i'.
        split; [right; exact Hi'|exact Hj'].
Qed.

Lemma range_from_NoDup n lo : NoDup (range_from n lo 1).
Proof.
  revert lo. induction n as [|n IH]; intros lo; cbn [range_from].
  - constructor.
  - constructor; [|apply IH]. rewrite range_from_In. lia.
Qed.

Lemma range_NoDup lo hi : NoDup (range lo hi).
Proof. apply range_from_NoDup. Qed.

Lemma row_major_inj N m n m' n' :
  0 <= n < N -> 0 <= n' < N -> m * N + n = m' * N + n' -> m = m' /\ n = n'.
Proof.
  intros Hn Hn' E.
  assert (m = m') by nia. subst m'. split; [reflexivity|lia].
Qed.

(** ** Reference GEMM *)

Section GemmCells.
Context {F : Type} `{Arith F}.

Lemma simple_matmul_cellwise (A B : list F) M K N (alpha beta : F) :
  cellwise fzero (fun C => simple_matmul A B C M K N alpha beta)
    (fun j => exists m n, 0 <= m < M /\ 0 <= n < N /\ j = m * N + n)
    (fun j old new => forall m n, 0 <= m < M -> 0 <= n < N -> j = m * N + n ->
       new =
       fadd (fmul alpha
               (sum_range (fun k => fmul (get fzero A (m * K + k))
                                      (get fzero B (k * N + n))) 0 K))
         (fmul beta old)).
Proof.
  unfold simple_matmul.
  eapply cellwise_iff; cycle 1.
  - apply cellwise_for with
      (S := fun m j => exists n, 0 <= n < N /\ j = m * N + n).
    + apply range_NoDup.
    + intros m Hm. apply range_In in Hm.
      eapply cellwise_iff; cycle 1.
      * apply cellwise_for with (S := fun n j => j = m * N + n).
        -- apply range_NoDup.
        -- intros n Hn. apply range_In in Hn.
           apply (cellwise_set fzero (m * N + n)
                    (fun old =>
                       fadd (fmul alpha
                               (for_ (range 0 K) (fun k sum =>
                                  fadd sum (fmul (get fzero A (m * K + k))
                                              (get fzero B (k * N + n))))
                                  fzero))
                         (fmul beta old))).
           intros old m' n' Hm' Hn' E.
           destruct (row_major_inj N m n m' n' Hn Hn' E) as [<- <-].
           reflexivity.
        -- intros n n' j _ _ Hne -> E. apply Hne. lia.
      * intros j. split.
        -- intros (n & Hn & ->). apply range_In in Hn. exists n. auto.
        -- intros (n & Hn & ->). exists n. split; [apply range_In; exact Hn|reflexivity].
    + intros m m' j Hm Hm' Hne (n & Hn & ->) (n' & Hn' & E).
      apply Hne. apply (row_major_inj N m n m' n' Hn Hn' E).
  - intros j. split.
    + intros (m & Hm & n & Hn & ->). apply range_In in Hm. exists m, n. auto.
    + intros (m & n & Hm & Hn & ->). exists m. split; [apply range_In; exact Hm|].
      exists n. auto.
Qed.

End GemmCells.

Lemma data_float_FP32 {F} (t : Tensor F) :
  dtype_ t = FP32 -> data_float t = inr (data_ t).
Proof. intros E. unfold data_float. rewrite E. reflexivity. Qed.

Lemma data_float_other {F} (t : Tensor F) :
  dtype_ t <> FP32 -> exists e, data_float t = inl e.
Proof.
  intros E. unfold data_float.
  destruct (dtype_ t); try (eexists; reflexivity). now elim E.
Qed.

Lemma cell_in_bounds M N len m n :
  M * N <= len -> 0 <= m < M -> 0 <= n < N -> 0 <= m * N + n < len.
Proof. intros. nia. Qed.

(** [GemmRef::matmul] on FP32 tensors of shapes [M x K], [K x N] and
    [M x N] returns, and [C[m][n]] becomes
    [alpha * sum_k A[m][k] * B[k][n] + beta * C[m][n]]; nothing else of [C]
    changes. *)
Theorem GemmRef_matmul_computes {F} `{Arith F} (A B C : Tensor F)
    (alpha beta : F) (M K N : Z) :
  shape_ A = [M; K] -> shape_ B = [K; N] -> shape_ C = [M; N] ->
  dtype_ A = FP32 -> dtype_ B = FP32 -> dtype_ C = FP32 ->
  M * N <= Z.of_nat (List.length (data_ C)) ->
  exists C',
    GemmRef_matmul A B C alpha beta = inr C' /\
    shape_ C' = [M; N] /\ dtype_ C' = FP32 /\
    List.length (data_ C') = List.length (data_ C) /\
    (forall m n, 0 <= m < M -> 0 <= n < N ->
       get fzero (data_ C') (m * N + n) =
       fadd (fmul alpha
               (sum_range (fun k => fmul (get fzero (data_ A) (m * K + k))
                                      (get fzero (data_ B) (k * N + n))) 0 K))
         (fmul beta (get fzero (data_ C) (m * N + n)))) /\
    (forall j, M * N <= j -> get fzero (data_ C') j = get fzero (data_ C) j).
Proof.
  intros HA HB HC HdA HdB HdC Hlen.
  unfold GemmRef_matmul, GemmRef_validate_shapes.
  rewrite HA, HB, HC. cbn [List.length Nat.eqb negb orb dim nth].
  rewrite !Z.eqb_refl. cbn [negb orb bind].
  rewrite (data_float_FP32 A HdA), (data_float_FP32 B HdB),
    (data_float_FP32 C HdC). cbn [bind].
  eexists. split; [reflexivity|]. cbn [with_data shape_ dtype_ data_].
  destruct (simple_matmul_cellwise (data_ A) (data_ B) M K N alpha beta
              (data_ C)) as (Hl & Hw & Hk).
  { intros j (m & n & Hm & Hn & ->). apply (cell_in_bounds M N); assumption. }
  split; [exact HC|]. split; [exact HdC|]. split; [exact Hl|]. split.
  - intros m n Hm Hn. apply (Hw (m * N + n)); try assumption; try reflexivity.
    exists m, n. auto.
  - intros j Hj. apply Hk. intros (m & n & Hm & Hn & ->). nia.
Qed.

Lemma GemmRef_matmul_computes_witness :
  let A := mkTensor [2; 2] FP32 4 16 [1; 2; 3; 4] in
  let B := mkTensor [2; 2] FP32 4 16 [5; 6; 7; 8] in
  let C := mkTensor [2; 2] FP32 4 16 [1; 1; 1; 1] in
  exists C',
    GemmRef_matmul A B C 1 10 = inr C' /\
    get 0 (data_ C') (1 * 2 + 0) = 1 * (0 + 3 * 5 + 4 * 7) + 10 * 1.
Proof.
  intros A B C.
  destruct (GemmRef_matmul_computes A B C 1 10 2 2 2
              eq_refl eq_refl eq_refl eq_refl eq_refl eq_refl)
    as (C' & HC' & _ & _ & _ & Hcell & _).
  - cbn. lia.
  - exists C'. split; [exact HC'|].
    refine (eq_trans (Hcell 1 0 _ _) _); [lia|lia|reflexivity].
Defined.

(** [GemmRef::matmul] throws exactly when a shape is not two-dimensional,
    the inner dimensions differ, the output shape does not fit, or a tensor
    is not FP32. *)
Theorem GemmRef_matmul_throws_iff {F} `{Arith F} (A B C : Tensor F)
    (alpha beta : F) :
  (exists e, GemmRef_matmul A B C alpha beta = inl e) <->
  (List.length (shape_ A) <> 2%nat \/ List.length (shape_ B) <> 2%nat \/
   List.length (shape_ C) <> 2%nat \/
   dim (shape_ A) 1 <> dim (shape_ B) 0 \/
   dim (shape_ A) 0 <> dim (shape_ C) 0 \/
   dim (shape_ B) 1 <> dim (shape_ C) 1 \/
   dtype_ A <> FP32 \/ dtype_ B <> FP32 \/ dtype_ C <> FP32).
Proof.
  unfold GemmRef_matmul, GemmRef_validate_shapes.
  destruct (Nat.eqb_spec (List.length (shape_ A)) 2) as [EA|EA];
    [|split; [tauto|intros _; eexists; reflexivity]].
  destruct (Nat.eqb_spec (List.length (shape_ B)) 2) as [EB|EB];
    [|split; [tauto|intros _; eexists; reflexivity]].
  destruct (Nat.eqb_spec (List.length (shape_ C)) 2) as [EC|EC];
    [|split; [tauto|intros _; eexists; reflexivity]].
  cbn [negb orb].
  destruct (Z.eqb_spec (dim (shape_ A) 1) (dim (shape_ B) 0)) as [E1|E1];
    [|split; [tauto|intros _; eexists; reflexivity]].
  destruct (Z.eqb_spec (dim (shape_ A) 0) (dim (shape_ C) 0)) as [E2|E2];
    [|split; [tauto|intros _; eexists; reflexivity]].
  destruct (Z.eqb_spec (dim (shape_ B) 1) (dim (shape_ C) 1)) as [E3|E3];
    [|split; [tauto|intros _; eexists; reflexivity]].
  cbn [negb orb bind].
  destruct (dtype_eq_dec (dtype_ A) FP32) as [dA|dA].
  2:{ destruct (data_float_other A dA) as [e ->].
      split; [tauto|intros _; eexists; reflexivity]. }
  destruct (dtype_eq_dec (dtype_ B) FP32) as [dB|dB].
  2:{ rewrite (data_float_FP32 A dA).
      destruct (data_float_other B dB) as [e ->].
      split; [tauto|intros _; eexists; reflexivity]. }
  destruct (dtype_eq_dec (dtype_ C) FP32) as [dC|dC].
  2:{ rewrite (data_float_FP32 A dA), (data_float_FP32 B dB).
      destruct (data_float_other C dC) as [e ->].
      split; [tauto|intros _; eexists; reflexivity]. }
  rewrite (data_float_FP32 A dA), (data_float_FP32 B dB),
    (data_float_FP32 C dC). cbn [bind].
  split.
  - intros [e He]. discriminate He.
  - intros Hd. exfalso. tauto.
Qed.

Lemma matvec_loop_cellwise {F} `{Arith F} (A_data x_data : list F) M K
    (alpha beta : F) :
  cellwise fzero (fun y => matvec_loop A_data x_data y M K alpha beta)
    (fun j => 0 <= j < M)
    (fun m old new =>
       new =
       fadd (fmul alpha
               (sum_range (fun k => fmul (get fzero A_data (m * K + k))
                                      (get fzero x_data k)) 0 K))
         (fmul beta old)).
Proof.
  unfold matvec_loop.
  eapply cellwise_iff; cycle 1.
  - apply cellwise_for with (S := fun m j => j = m).
    + apply range_NoDup.
    + intros m _.
      apply (cellwise_set fzero m
               (fun old =>
                  fadd (fmul alpha
                          (for_ (range 0 K) (fun k sum =>
                             fadd sum (fmul (get fzero A_data (m * K + k))
                                         (get fzero x_data k))) fzero))
                    (fmul beta old))).
      intros old. reflexivity.
    + intros m m' j _ _ Hne -> E. apply Hne. exact E.
  - intros j. split.
    + intros (m & Hm & ->). apply range_In in Hm. exact Hm.
    + intros Hj. exists j. split; [apply range_In; exact Hj|reflexivity].
Qed.

(** [GemmRef::matvec] on FP32 tensors of shapes [M x K], [K] and [M]
    returns, and [y[m]] becomes
    [alpha * sum_k A[m][k] * x[k] + beta * y[m]]; nothing else of [y]
    changes. *)
Theorem GemmRef_matvec_computes {F} `{Arith F} (A x y : Tensor F)
    (alpha beta : F) (M K : Z) :
  shape_ A = [M; K] -> shape_ x = [K] -> shape_ y = [M] ->
  dtype_ A = FP32 -> dtype_ x = FP32 -> dtype_ y = FP32 ->
  M <= Z.of_nat (List.length (data_ y)) ->
  exists y',
    GemmRef_matvec A x y alpha beta = inr y' /\
    shape_ y' = [M] /\ dtype_ y' = FP32 /\
    List.length (data_ y') = List.length (data_ y) /\
    (forall m, 0 <= m < M ->
       get fzero (data_ y') m =
       fadd (fmul alpha
               (sum_range (fun k => fmul (get fzero (data_ A) (m * K + k))
                                      (get fzero (data_ x) k)) 0 K))
         (fmul beta (get fzero (data_ y) m))) /\
    (forall j, M <= j -> get fzero (data_ y') j = get fzero (data_ y) j).
Proof.
  intros HA Hx Hy HdA Hdx Hdy Hlen.
  unfold GemmRef_matvec.
  rewrite HA, Hx, Hy. cbn [List.length Nat.eqb negb orb dim nth].
  rewrite !Z.eqb_refl. cbn [negb orb bind].
  rewrite (data_float_FP32 A HdA), (data_float_FP32 x Hdx),
    (data_float_FP32 y Hdy). cbn [bind].
  eexists. split; [reflexivity|]. cbn [with_data shape_ dtype_ data_].
  destruct (matvec_loop_cellwise (data_ A) (data_ x) M K alpha beta
              (data_ y)) as (Hl & Hw & Hk).
  { intros j Hj. lia. }
  split; [exact Hy|]. split; [exact Hdy|]. split; [exact Hl|]. split.
  - intros m Hm. apply (Hw m Hm).
  - intros j Hj. apply Hk. lia.
Qed.

Lemma GemmRef_matvec_computes_witness :
  let A := mkTensor [2; 2] FP32 4 16 [1; 2; 3; 4] in
  let x := mkTensor [2] FP32 2 8 [5; 7] in
  let y := mkTensor [2] FP32 2 8 [1; 1] in
  exists y',
    GemmRef_matvec A x y 1 10 = inr y' /\
    get 0 (data_ y') 1 = 1 * (0 + 3 * 5 + 4 * 7) + 10 * 1.
Proof.
  intros A x y.
  destruct (GemmRef_matvec_computes A x y 1 10 2 2
              eq_refl eq_refl eq_refl eq_refl eq_refl eq_refl)
    as (y' & Hy' & _ & _ & _ & Hcell & _).
  - cbn. lia.
  - exists y'. split; [exact Hy'|].
    refine (eq_trans (Hcell 1 _) _); [lia|reflexivity].
Defined.

Lemma simple_matmul_single_column {F} `{Arith F} (A x y : list F) M K
    (alpha beta : F) :
  simple_matmul A x y M K 1 alpha beta = matvec_loop A x y M K alpha beta.
Proof.
  unfold simple_matmul, matvec_loop.
  apply for_ext. intros m C _.
  change (range 0 1) with [0]. unfold for_ at 1. cbn [fold_left].
  replace (m * 1 + 0) with m by lia.
  f_equal. f_equal. f_equal.
  apply for_ext. intros k s _.
  replace (k * 1 + 0) with k by lia. reflexivity.
Qed.

(** A matrix product with a single column is the matrix-vector product:
    [GemmRef::matmul] on [B : K x 1] and [C : M x 1] leaves in [C] what
    [GemmRef::matvec] leaves in [y] on the same data. *)
Theorem GemmRef_matmul_single_column {F} `{Arith F} (A B C x y : Tensor F)
    (alpha beta : F) (M K : Z) :
  shape_ A = [M; K] -> shape_ B = [K; 1] -> shape_ C = [M; 1] ->
  shape_ x = [K] -> shape_ y = [M] ->
  dtype_ A = FP32 -> dtype_ B = FP32 -> dtype_ C = FP32 ->
  dtype_ x = FP32 -> dtype_ y = FP32 ->
  data_ B = data_ x -> data_ C = data_ y ->
  exists C' y',
    GemmRef_matmul A B C alpha beta = inr C' /\
    GemmRef_matvec A x y alpha beta = inr y' /\
    data_ C' = data_ y'.
Proof.
  intros HA HB HC Hx Hy HdA HdB HdC Hdx Hdy EB EC.
  unfold GemmRef_matmul, GemmRef_validate_shapes, GemmRef_matvec.
  rewrite HA, HB, HC, Hx, Hy. cbn [List.length Nat.eqb negb orb dim nth].
  rewrite !Z.eqb_refl. cbn [negb orb bind].
  rewrite (data_float_FP32 A HdA), (data_float_FP32 B HdB),
    (data_float_FP32 C HdC), (data_float_FP32 x Hdx),
    (data_float_FP32 y Hdy). cbn [bind].
  eexists. eexists. split; [reflexivity|]. split; [reflexivity|].
  cbn [with_data data_]. rewrite EB, EC.
  apply simple_matmul_single_column.
Qed.

Lemma GemmRef_matmul_single_column_witness :
  let A := mkTensor [2; 2] FP32 4 16 [1; 2; 3; 4] in
  let B := mkTensor [2; 1] FP32 2 8 [5; 7] in
  let C := mkTensor [2; 1] FP32 2 8 [1; 1] in
  let x := mkTensor [2] FP32 2 8 [5; 7] in
  let y := mkTensor [2] FP32 2 8 [1; 1] in
  exists C' y',
    GemmRef_matmul A B C 1 10 = inr C' /\
    GemmRef_matvec A x y 1 10 = inr y' /\
    data_ C' = data_ y'.
Proof.
  intros A B C x y.
  apply (GemmRef_matmul_single_column A B C x y 1 10 2 2); reflexivity.
Defined.

(** ** Vectorised kernels *)

Lemma get_repeat_in {A} (d v : A) n i :
  0 <= i < Z.of_nat n -> get d (repeat v n) i = v.
Proof.
  intros Hi. unfold get. destruct (i <? 0) eqn:E; [lia|].
  apply nth_repeat_lt. lia.
Qed.

Lemma range_step_map M W :
  0 < W ->
  range_step 0 M W = map (fun i => i * W) (range 0 ((M + W - 1) / W)).
Proof.
  intros HW. unfold range_step, range.
  rewrite (range_from_shift _ 0 0 W).
  replace (M - 0 + W - 1) with (M + W - 1) by lia.
  rewrite Z.sub_0_r.
  apply map_ext. intros i. lia.
Qed.

(** The blocks [i*W, min (i*W + W) M) of a strip-mined loop tile [0, M). *)
Lemma blocks_cover M W j :
  0 < W ->
  (exists i, In i (range 0 ((M + W - 1) / W)) /\
             i * W <= j < Z.min (i * W + W) M) <->
  0 <= j < M.
Proof.
  intros HW. split.
  - intros (i & Hi & Hj). apply range_In in Hi. nia.
  - intros Hj. exists (j / W). split.
    + apply range_In. split; [apply Z.div_pos; lia|].
      apply Z.div_lt_upper_bound; [lia|].
      pose proof (Z.mul_div_le (M + W - 1) W HW).
      pose proof (Z.mod_pos_bound (M + W - 1) W HW).
      pose proof (Z.div_mod (M + W - 1) W ltac:(lia)). nia.
    + pose proof (Z.div_mod j W ltac:(lia)).
      pose proof (Z.mod_pos_bound j W HW). nia.
Qed.

Lemma blocks_disjoint M W i i' j :
  0 < W -> i <> i' ->
  i * W <= j < Z.min (i * W + W) M ->
  i' * W <= j < Z.min (i' * W + W) M -> False.
Proof. intros HW Hne H1 H2. nia. Qed.

Lemma get_Forall {A} (P : A -> Prop) (d : A) (a : list A) i :
  P d -> Forall P a -> P (get d a i).
Proof.
  intros Hd Ha. unfold get. destruct (i <? 0); [exact Hd|].
  destruct (Nat.lt_ge_cases (Z.to_nat i) (List.length a)) as [Hlt|Hge].
  - rewrite Forall_forall in Ha. apply Ha, nth_In, Hlt.
  - rewrite nth_overflow by exact Hge. exact Hd.
Qed.

Lemma nibble_at_range qweights m K k :
  Forall (fun b => 0 <= b < 256) qweights ->
  0 <= nibble_at qweights m K k < 16.
Proof.
  intros Hq. unfold nibble_at.
  assert (Hb : 0 <= get 0 qweights (Z.quot (m * K + k) 2) < 256).
  { apply (get_Forall (fun b => 0 <= b < 256)); [lia|exact Hq]. }
  destruct (Z.rem k 2 =? 0).
  - change 15 with (Z.ones 4). rewrite Z.land_ones by lia.
    apply Z.mod_pos_bound. reflexivity.
  - rewrite Z.shiftr_div_pow2 by lia. change (2 ^ 4) with 16.
    split; [apply Z.div_pos; lia|apply Z.div_lt_upper_bound; lia].
Qed.

Lemma to_int8_small x : -128 <= x <= 127 -> to_int8 x = x.
Proof. intros Hx. unfold to_int8. rewrite Z.mod_small; lia. Qed.

Lemma decode_q4_signed_small nib :
  0 <= nib < 16 ->
  decode_q4_signed nib = if negb (Z.land nib 8 =? 0) then nib - 16 else nib.
Proof.
  intros Hn. unfold decode_q4_signed.
  destruct (negb (Z.land nib 8 =? 0)); apply to_int8_small; lia.
Qed.

Section SimdQ4Props.
Context {F : Type} `{Arith F}.

Lemma mm_fmadd_ps_broadcast (a b c : F) :
  mm_fmadd_ps (mm_broadcast_ss 8 a) (mm_broadcast_ss 8 b) (repeat c 8) =
  repeat (fadd (fmul a b) c) 8.
Proof. reflexivity. Qed.

(** The inner loop over the rows of a block adds column [k] to every
    register. *)
Lemma avx2_column_cellwise qweights (x : list F) m m_end K k :
  cellwise []
    (for_ (range m m_end) (fun mm sum_vec =>
       let nib := nibble_at qweights mm K k in
       let dequant_val :=
         if negb (Z.land nib 8 =? 0) then of_int8 (nib - 16)
         else of_int8 nib in
       let dequant_vec := mm_broadcast_ss 8 dequant_val in
       set sum_vec (mm - m)
         (mm_fmadd_ps dequant_vec (mm_broadcast_ss 8 (get fzero x k))
            (get [] sum_vec (mm - m)))))
    (fun j => m <= j + m < m_end)
    (fun j old new =>
       new =
       mm_fmadd_ps
         (mm_broadcast_ss 8
            (let nib := nibble_at qweights (j + m) K k in
             if negb (Z.land nib 8 =? 0) then of_int8 (nib - 16)
             else of_int8 nib))
         (mm_broadcast_ss 8 (get fzero x k)) old).
Proof.
  eapply cellwise_iff; cycle 1.
  - apply cellwise_for with (S := fun mm j => j = mm - m).
    + apply range_NoDup.
    + intros mm _.
      apply (cellwise_set [] (mm - m)
               (fun old =>
                  mm_fmadd_ps
                    (mm_broadcast_ss 8
                       (let nib := nibble_at qweights mm K k in
                        if negb (Z.land nib 8 =? 0) then of_int8 (nib - 16)
                        else of_int8 nib))
                    (mm_broadcast_ss 8 (get fzero x k)) old)).
      intros old. replace (mm - m + m) with mm by lia. reflexivity.
    + intros mm mm' j _ _ Hne -> E. apply Hne. lia.
  - intros j. split.
    + intros (mm & Hmm & ->). apply range_In in Hmm. lia.
    + intros Hj. exists (j + m). split; [apply range_In; lia|lia].
Qed.

(** After the columns in [ks], every lane of the register of row [mm]
    holds the sum of that row's products over [ks]. *)
Lemma avx2_sum_vec qweights (x : list F) m m_end K (ks : list Z)
    (sum_vec : list (list F)) (v : Z -> F) :
  m_end <= m + 8 ->
  List.length sum_vec = 8%nat ->
  (forall mm, m <= mm < m_end -> get [] sum_vec (mm - m) = repeat (v mm) 8) ->
  let sum_vec' :=
    for_ ks (fun k sum_vec =>
      let x_vec := mm_broadcast_ss 8 (get fzero x k) in
      for_ (range m m_end) (fun mm sum_vec =>
        let nib := nibble_at qweights mm K k in
        let dequant_val :=
          if negb (Z.land nib 8 =? 0) then of_int8 (nib - 16)
          else of_int8 nib in
        let dequant_vec := mm_broadcast_ss 8 dequant_val in
        set sum_vec (mm - m)
          (mm_fmadd_ps dequant_vec x_vec (get [] sum_vec (mm - m))))
        sum_vec) sum_vec in
  forall mm, m <= mm < m_end ->
    get [] sum_vec' (mm - m) =
    repeat
      (for_ ks (fun k acc =>
         fadd (fmul (let nib := nibble_at qweights mm K k in
                     if negb (Z.land nib 8 =? 0) then of_int8 (nib - 16)
                     else of_int8 nib)
                 (get fzero x k)) acc) (v mm)) 8.
Proof.
  intros Hend. revert sum_vec v.
  induction ks as [|k ks IH]; intros sum_vec v Hlen Hv; cbn zeta.
  - exact Hv.
  - unfold for_ at 1 3. cbn [fold_left].
    destruct (avx2_column_cellwise qweights x m m_end K k sum_vec)
      as (Hl & Hw & _).
    { intros j Hj. rewrite Hlen. lia. }
    apply (IH _ (fun mm =>
                   fadd (fmul (let nib := nibble_at qweights mm K k in
                               if negb (Z.land nib 8 =? 0)
                               then of_int8 (nib - 16) else of_int8 nib)
                           (get fzero x k)) (v mm))).
    + exact (eq_trans Hl Hlen).
    + intros mm Hmm.
      refine (eq_trans (Hw (mm - m) _) _); [lia|].
      rewrite (Hv mm Hmm). replace (mm - m + m) with mm by lia.
      apply mm_fmadd_ps_broadcast.
Qed.

End SimdQ4Props.

Section SimdQ4Cells.
Context {F : Type} `{Arith F}.

Lemma matvec_q4_avx2_cellwise qweights (scales x : list F) M K :
  cellwise fzero (fun y => matvec_q4_avx2 qweights scales x y M K)
    (fun j => 0 <= j < M)
    (fun j old new =>
       new =
       fmul (get fzero scales j)
         (sum_range (fun _ =>
            for_ (range 0 K) (fun k acc =>
              fadd (fmul (let nib := nibble_at qweights j K k in
                          if negb (Z.land nib 8 =? 0) then of_int8 (nib - 16)
                          else of_int8 nib)
                      (get fzero x k)) acc) fzero) 0 8)).
Proof.
  unfold matvec_q4_avx2.
  match goal with
  | |- cellwise _ (fun y => for_ _ ?body y) _ _ => set (B := body)
  end.
  apply (cellwise_ext fzero
           (fun y => for_ (range 0 ((M + 8 - 1) / 8)) (fun i => B (i * 8)) y)).
  { intros y. rewrite range_step_map by lia. symmetry. apply for_map. }
  eapply cellwise_iff; [intros j; apply (blocks_cover M 8 j); lia|].
  apply cellwise_for with
    (S := fun i j => i * 8 <= j < Z.min (i * 8 + 8) M).
  - apply range_NoDup.
  - intros i _. subst B. cbv beta.
    set (m := i * 8). set (m_end := Z.min (m + 8) M).
    eapply cellwise_iff; cycle 1.
    + apply cellwise_for with (S := fun mm j => j = mm).
      * apply range_NoDup.
      * intros mm Hmm. apply range_In in Hmm.
        match goal with
        | |- cellwise _ (fun y => set y mm ?c) _ _ =>
            apply (cellwise_set fzero mm (fun _ => c))
        end.
        intros _. f_equal. unfold sum_range.
        apply for_ext. intros i0 ts Hi0. apply range_In in Hi0. f_equal.
        pose proof (avx2_sum_vec qweights x m m_end K (range 0 K)
                      (repeat (repeat fzero 8) 8) (fun _ => fzero)
                      ltac:(subst m_end; lia) eq_refl) as Hsv.
        cbv zeta in Hsv.
        refine (eq_trans
                  (f_equal (fun r => get fzero r i0)
                     (Hsv (fun mm' Hmm' =>
                             get_repeat_in [] (repeat fzero 8) 8 (mm' - m) _)
                        mm Hmm)) _).
        { subst m_end. cbn. lia. }
        apply get_repeat_in. cbn. lia.
      * intros mm mm' j _ _ Hne -> E. apply Hne. exact E.
    + intros j. split.
      * intros (mm & Hmm & ->). apply range_In in Hmm. exact Hmm.
      * intros Hj. exists j. split; [apply range_In; exact Hj|reflexivity].
  - intros i i' j _ _ Hne H1 H2. apply (blocks_disjoint M 8 i i' j); auto. lia.
Qed.
End SimdQ4Cells.

(** [matvec_q4_avx2] returns in [y[m]] eight times what the reference
    kernel [matvec_q4_rowwise] returns: every lane of a row's register
    accumulates the whole dot product, and the eight lanes are added up. *)
Theorem matvec_q4_avx2_eightfold {F} `{ArithLaws F}
    (qweights : list uint8_t) (scales x y : list F) (M K m : Z) :
  Forall (fun b => 0 <= b < 256) qweights ->
  M <= Z.of_nat (List.length y) ->
  0 <= m < M ->
  get fzero (matvec_q4_avx2 qweights scales x y M K) m =
  sum_range
    (fun _ => get fzero (matvec_q4_rowwise qweights scales x y M K) m) 0 8.
Proof.
  intros Hq Hy Hm.
  destruct (matvec_q4_avx2_cellwise qweights scales x M K y) as (_ & Hw & _).
  { intros j Hj. lia. }
  rewrite (Hw m Hm).
  rewrite (matvec_q4_rowwise_cell qweights scales x y M K m Hy Hm).
  unfold spec_matvec_q4.
  set (D := sum_range _ 0 K).
  cbv zeta.
  assert (HL : for_ (range 0 K) (fun k acc =>
                 fadd (fmul (if negb (Z.land (nibble_at qweights m K k) 8 =? 0)
                             then of_int8 (nibble_at qweights m K k - 16)
                             else of_int8 (nibble_at qweights m K k))
                         (get fzero x k)) acc) fzero = D).
  { subst D. unfold sum_range. apply for_ext. intros k acc _.
    rewrite fadd_comm. f_equal. f_equal.
    unfold signed_nibble.
    rewrite (decode_q4_signed_small _ (nibble_at_range qweights m K k Hq)).
    destruct (negb (Z.land (nibble_at qweights m K k) 8 =? 0)); reflexivity. }
  rewrite HL. set (s := get fzero scales m).
  unfold sum_range. change (range 0 8) with [0; 1; 2; 3; 4; 5; 6; 7].
  unfold for_. cbn [fold_left].
  rewrite !fmul_add_distr_l, fmul_0_r. reflexivity.
Qed.

Lemma matvec_q4_avx2_eightfold_witness :
  get 0 (matvec_q4_avx2 [33; 200] [1; 2] [1; 3] [0; 0] 2 2) 1 =
  sum_range
    (fun _ => get 0 (matvec_q4_rowwise [33; 200] [1; 2] [1; 3] [0; 0] 2 2) 1)
    0 8
  /\ get 0 (matvec_q4_rowwise [33; 200] [1; 2] [1; 3] [0; 0] 2 2) 1 = -40
  /\ get 0 (matvec_q4_avx2 [33; 200] [1; 2] [1; 3] [0; 0] 2 2) 1 = -320.
Proof.
  split; [|split; reflexivity].
  apply (matvec_q4_avx2_eightfold (F := Z) [33; 200] [1; 2] [1; 3] [0; 0]
           2 2 1).
  - repeat constructor; lia.
  - cbn. lia.
  - lia.
Defined.

Lemma firstn_add {A} (a n : nat) (s : list A) :
  firstn a s ++ firstn n (skipn a s) = firstn (a + n) s.
Proof.
  rewrite firstn_skipn_comm.
  rewrite <- (firstn_skipn a (firstn (a + n) s)) at 2.
  rewrite firstn_firstn. replace (Nat.min a (a + n)) with a by lia.
  reflexivity.
Qed.

Lemma memcpy_at_extends {A} (dst src : list A) a n :
  0 <= a -> 0 <= n ->
  a + n <= Z.of_nat (List.length src) ->
  memcpy_at (memcpy dst src a) src a n = memcpy dst src (a + n).
Proof.
  intros Ha Hn Hs. unfold memcpy_at, memcpy.
  assert (Hl : List.length (firstn (Z.to_nat a) src) = Z.to_nat a).
  { rewrite length_firstn. lia. }
  rewrite firstn_app, Hl, Nat.sub_diag. cbn [firstn]. rewrite app_nil_r.
  rewrite firstn_firstn, Nat.min_id.
  rewrite skipn_app, Hl.
  rewrite (skipn_all2 (firstn (Z.to_nat a) src)) by lia.
  cbn [app]. rewrite skipn_skipn.
  replace (Z.to_nat (a + n) - Z.to_nat a + Z.to_nat a)%nat
    with (Z.to_nat (a + n)) by lia.
  rewrite app_assoc, firstn_add.
  replace (Z.to_nat a + Z.to_nat n)%nat with (Z.to_nat (a + n)) by lia.
  reflexivity.
Qed.

Lemma mm256_store_load (dst src : list uint8_t) off :
  0 <= off -> off + 32 <= Z.of_nat (List.length src) ->
  mm256_store_bytes dst off (mm256_load_bytes src off) =
  memcpy_at dst src off 32.
Proof.
  intros Ho Hs. unfold mm256_store_bytes, mm256_load_bytes, memcpy_at.
  rewrite length_firstn, length_skipn.
  replace (Nat.min 32 (List.length src - Z.to_nat off)) with 32%nat by lia.
  replace (Z.to_nat (off + 32)) with (Z.to_nat off + 32)%nat by lia.
  reflexivity.
Qed.

(** [memcpy_aligned] copies exactly what [std::memcpy] copies, on the
    vectorised path (32-byte chunks and a remainder) as on the plain one. *)
Theorem memcpy_aligned_is_memcpy (dst_addr src_addr : Z)
    (dst src : list uint8_t) (size : Z) :
  0 <= size ->
  size <= Z.of_nat (List.length src) ->
  size <= Z.of_nat (List.length dst) ->
  memcpy_aligned dst_addr src_addr dst src size = memcpy dst src size.
Proof.
  intros Hsz Hs _. unfold memcpy_aligned.
  destruct ((32 <=? size) && (dst_addr mod 32 =? 0) && (src_addr mod 32 =? 0));
    [|reflexivity].
  pose proof (Z.div_mod size 32 ltac:(lia)) as Hdm.
  pose proof (Z.mod_pos_bound size 32 ltac:(lia)) as Hmod.
  assert (Hloop :
    for_ (range 0 (size / 32)) (fun i dst =>
      mm256_store_bytes dst (i * 8 * 4) (mm256_load_bytes src (i * 8 * 4)))
      dst = memcpy dst src (32 * (size / 32))).
  { apply (for_range_inv
             (fun i d => i <= size / 32 /\ d = memcpy dst src (32 * i))).
    - apply Z.div_pos; lia.
    - split; [apply Z.div_pos; lia|]. unfold memcpy. reflexivity.
    - intros i d Hi [_ ->]. split; [lia|].
      rewrite mm256_store_load by lia.
      replace (i * 8 * 4) with (32 * i) by lia.
      rewrite memcpy_at_extends by lia. f_equal. lia. }
  cbv zeta. rewrite Hloop.
  destruct (0 <? size mod 32) eqn:Er.
  - replace (size - size mod 32) with (32 * (size / 32)) by lia.
    rewrite memcpy_at_extends by lia. f_equal. lia.
  - f_equal. apply Z.ltb_ge in Er. lia.
Qed.

Lemma memcpy_aligned_is_memcpy_witness :
  let src := map Z.of_nat (seq 1 70) in
  (32 <=? 67) && (64 mod 32 =? 0) && (128 mod 32 =? 0) = true /\
  memcpy_aligned 64 128 (repeat 0 70) src 67 = memcpy (repeat 0 70) src 67.
Proof.
  intros src. split; [reflexivity|].
  apply (memcpy_aligned_is_memcpy 64 128 (repeat 0 70) src 67); cbn; lia.
Defined.

Lemma for_id {St} (l : list Z) (s : St) : for_ l (fun _ s => s) s = s.
Proof. induction l; [reflexivity|exact IHl]. Qed.

Lemma range_step_nil lo hi W : 0 < W -> hi <= lo -> range_step lo hi W = [].
Proof.
  intros HW Hle. unfold range_step.
  replace (Z.to_nat ((hi - lo + W - 1) / W)) with 0%nat; [reflexivity|].
  assert ((hi - lo + W - 1) / W <= 0); [|lia].
  apply Z.lt_succ_r. apply Z.div_lt_upper_bound; lia.
Qed.

Lemma range_step_one lo hi W :
  0 < W -> lo < hi <= lo + W -> range_step lo hi W = [lo].
Proof.
  intros HW Hle. unfold range_step.
  replace ((hi - lo + W - 1) / W) with 1; [reflexivity|].
  apply Z.div_unique with (r := hi - lo - 1); lia.
Qed.

Lemma cells_dec M N j :
  (exists m n, 0 <= m < M /\ 0 <= n < N /\ j = m * N + n) \/
  ~ (exists m n, 0 <= m < M /\ 0 <= n < N /\ j = m * N + n).
Proof.
  destruct (Z_lt_dec 0 N) as [HN|HN];
    [|right; intros (m & n & Hm & Hn & ->); lia].
  destruct (Z_le_dec 0 j) as [H0|H0];
    [|right; intros (m & n & Hm & Hn & ->); nia].
  destruct (Z_lt_dec j (M * N)) as [H1|H1];
    [|right; intros (m & n & Hm & Hn & ->); nia].
  left. exists (j / N), (j mod N).
  pose proof (Z.div_mod j N ltac:(lia)).
  pose proof (Z.mod_pos_bound j N HN).
  split; [|split; [assumption|lia]].
  split; [apply Z.div_pos; lia|apply Z.div_lt_upper_bound; lia].
Qed.

(** Two loops that update the same cells by the same rule compute the same
    array. *)
Lemma cellwise_unique {A} (d : A) f g (S : Z -> Prop) P :
  cellwise d f S P -> cellwise d g S P ->
  (forall j, S j \/ ~ S j) ->
  (forall j old n1 n2, S j -> P j old n1 -> P j old n2 -> n1 = n2) ->
  forall a, (forall j, S j -> 0 <= j < Z.of_nat (List.length a)) ->
    f a = g a.
Proof.
  intros Hf Hg Hdec Hfun a Hin.
  destruct (Hf a Hin) as (Hlf & Hwf & Hkf).
  destruct (Hg a Hin) as (Hlg & Hwg & Hkg).
  apply (get_ext d); [congruence|].
  intros j _. destruct (Hdec j) as [Hj|Hj].
  - apply (Hfun j (get d a j)); auto.
  - rewrite Hkf, Hkg by exact Hj. reflexivity.
Qed.

Section SimdSmall.
Context {F : Type} `{ArithLaws F}.

Lemma matmul_simd_f32_small_K_loops W (A B C : list F) M K N (alpha beta : F) :
  0 < K < W ->
  matmul_simd_f32 W A B C M K N alpha beta =
  for_ (range_step 0 M W) (fun m C =>
    for_ (range_step 0 N W) (fun n C =>
      for_ (range m (Z.min (m + W) M)) (fun mm C =>
        for_ (range n (Z.min (n + W) N)) (fun nn C =>
          set C (mm * N + nn)
            (fadd (fmul alpha
                     (sum_range (fun k => fmul (get fzero A (mm * K + k))
                                            (get fzero B (k * N + nn))) 0 K))
               (fmul beta (get fzero C (mm * N + nn))))) C) C) C) C.
Proof.
  intros HK. unfold matmul_simd_f32.
  apply for_ext. intros m C0 _. apply for_ext. intros n C1 _.
  rewrite (range_step_one 0 K W) by lia.
  unfold for_ at 1. cbn [fold_left].
  apply for_ext. intros mm C2 _. apply for_ext. intros nn C3 _.
  rewrite range_step_nil by lia. unfold for_ at 1. cbn [fold_left].
  replace (Z.min (0 + W) K) with K by lia.
  f_equal. f_equal. f_equal.
  transitivity (for_ (range 0 W) (fun _ (t : F) => t)
                  (for_ (range 0 K) (fun kk sum_scalar =>
                     fadd sum_scalar
                       (fmul (get fzero A (mm * K + kk))
                          (get fzero B (kk * N + nn)))) fzero)).
  - apply for_ext. intros i t _. unfold mm_setzero_ps.
    rewrite get_repeat. apply fadd_0_r.
  - rewrite for_id. reflexivity.
Qed.

Lemma matmul_simd_f32_cellwise W (A B : list F) M K N (alpha beta : F) :
  0 < K < W ->
  cellwise fzero (fun C => matmul_simd_f32 W A B C M K N alpha beta)
    (fun j => exists m n, 0 <= m < M /\ 0 <= n < N /\ j = m * N + n)
    (fun j old new => forall m n, 0 <= m < M -> 0 <= n < N -> j = m * N + n ->
       new =
       fadd (fmul alpha
               (sum_range (fun k => fmul (get fzero A (m * K + k))
                                      (get fzero B (k * N + n))) 0 K))
         (fmul beta old)).
Proof.
  intros HK.
  assert (HW : 0 < W) by lia.
  eapply cellwise_ext.
  { intros C. symmetry. apply matmul_simd_f32_small_K_loops. exact HK. }
  match goal with
  | |- cellwise _ (fun C => for_ _ ?body C) _ _ => set (Bm := body)
  end.
  apply (cellwise_ext fzero
           (fun C => for_ (range 0 ((M + W - 1) / W)) (fun i => Bm (i * W)) C)).
  { intros C. rewrite range_step_map by lia. symmetry. apply for_map. }
  eapply cellwise_iff; cycle 1.
  - apply cellwise_for with
      (S := fun i j => exists mm nn, i * W <= mm < Z.min (i * W + W) M /\
                                     0 <= nn < N /\ j = mm * N + nn).
    + apply range_NoDup.
    + intros i Hi. apply range_In in Hi. subst Bm. cbv beta.
      set (m := i * W).
      match goal with
      | |- cellwise _ (fun C => for_ _ ?body C) _ _ => set (Bn := body)
      end.
      apply (cellwise_ext fzero
               (fun C => for_ (range 0 ((N + W - 1) / W))
                           (fun i => Bn (i * W)) C)).
      { intros C. rewrite range_step_map by lia. symmetry. apply for_map. }
      eapply cellwise_iff; cycle 1.
      * apply cellwise_for with
          (S := fun i' j => exists mm nn, m <= mm < Z.min (m + W) M /\
                              i' * W <= nn < Z.min (i' * W + W) N /\
                              j = mm * N + nn).
        -- apply range_NoDup.
        -- intros i' Hi'. apply range_In in Hi'. subst Bn. cbv beta.
           set (n := i' * W).
           eapply cellwise_iff; cycle 1.
           ++ apply cellwise_for with
                (S := fun mm j => exists nn, n <= nn < Z.min (n + W) N /\
                                    j = mm * N + nn).
              ** apply range_NoDup.
              ** intros mm Hmm. apply range_In in Hmm.
                 eapply cellwise_iff; cycle 1.
                 --- apply cellwise_for with (S := fun nn j => j = mm * N + nn).
                     +++ apply range_NoDup.
                     +++ intros nn Hnn. apply range_In in Hnn.
                         apply (cellwise_set fzero (mm * N + nn)
                                  (fun old =>
                                     fadd (fmul alpha
                                             (sum_range (fun k =>
                                                fmul (get fzero A (mm * K + k))
                                                  (get fzero B (k * N + nn)))
                                                0 K))
                                       (fmul beta old))).
                         intros old m' n' Hm' Hn' E.
                         destruct (row_major_inj N mm nn m' n') as [<- <-];
                           [lia|lia|exact E|reflexivity].
                     +++ intros nn nn' j _ _ Hne -> E. apply Hne. lia.
                 --- intros j. split.
                     +++ intros (nn & Hnn & ->). apply range_In in Hnn.
                         exists nn. auto.
                     +++ intros (nn & Hnn & ->). exists nn.
                         split; [apply range_In; exact Hnn|reflexivity].
              ** intros mm mm' j _ _ Hne (nn & Hnn & ->) (nn' & Hnn' & E).
                 apply Hne. apply (row_major_inj N mm nn mm' nn'); lia.
           ++ intros j. split.
              ** intros (mm & Hmm & nn & Hnn & ->). apply range_In in Hmm.
                 exists mm, nn. auto.
              ** intros (mm & nn & Hmm & Hnn & ->). exists mm.
                 split; [apply range_In; exact Hmm|]. exists nn. auto.
        -- intros i1 i2 j Hi1 Hi2 Hne (mm & nn & Hmm & Hnn & ->)
             (mm' & nn' & Hmm' & Hnn' & E).
           apply range_In in Hi1, Hi2.
           destruct (row_major_inj N mm nn mm' nn') as [<- <-];
             [nia|nia|exact E|].
           apply (blocks_disjoint N W i1 i2 nn); auto.
      * intros j. split.
        -- intros (i' & Hi' & mm & nn & Hmm & Hnn & ->).
           exists mm, nn. split; [exact Hmm|]. split; [|reflexivity].
           apply (blocks_cover N W nn HW). exists i'. auto.
        -- intros (mm & nn & Hmm & Hnn & ->).
           apply (blocks_cover N W nn HW) in Hnn.
           destruct Hnn as (i' & Hi' & Hnn).
           exists i'. split; [exact Hi'|]. exists mm, nn. auto.
    + intros i1 i2 j _ _ Hne (mm & nn & Hmm & Hnn & ->)
        (mm' & nn' & Hmm' & Hnn' & E).
      destruct (row_major_inj N mm nn mm' nn') as [<- <-]; [lia|lia|exact E|].
      apply (blocks_disjoint M W i1 i2 mm); auto.
  - intros j. split.
    + intros (i & Hi & mm & nn & Hmm & Hnn & ->).
      exists mm, nn. split; [|auto].
      apply (blocks_cover M W mm HW). exists i. auto.
    + intros (mm & nn & Hmm & Hnn & ->).
      apply (blocks_cover M W mm HW) in Hmm.
      destruct Hmm as (i & Hi & Hmm).
      exists i. split; [exact Hi|]. exists mm, nn. auto.
Qed.
End SimdSmall.

Lemma matmul_simd_f32_small_K {F} `{ArithLaws F} W (A B C : list F)
    (M K N : Z) (alpha beta : F) :
  0 < K < W ->
  M * N <= Z.of_nat (List.length C) ->
  matmul_simd_f32 W A B C M K N alpha beta =
  simple_matmul A B C M K N alpha beta.
Proof.
  intros HK Hlen.
  refine (cellwise_unique fzero
            (fun C => matmul_simd_f32 W A B C M K N alpha beta)
            (fun C => simple_matmul A B C M K N alpha beta)
            _ _
            (matmul_simd_f32_cellwise W A B M K N alpha beta HK)
            (simple_matmul_cellwise A B M K N alpha beta)
            (cells_dec M N) _ C _).
  - intros j old n1 n2 (m & n & Hm & Hn & E) H1 H2.
    rewrite (H1 m n Hm Hn E), (H2 m n Hm Hn E). reflexivity.
  - intros j (m & n & Hm & Hn & ->).
    apply (cell_in_bounds M N); assumption.
Qed.

(** For [0 < K < 8] ([0 < K < 16] for AVX-512) a vector kernel runs its
    scalar tail only, and computes exactly what the reference
    [simple_matmul] computes. *)
Theorem matmul_avx_small_K {F} `{ArithLaws F} (A B C : list F) (M K N : Z)
    (alpha beta : F) :
  M * N <= Z.of_nat (List.length C) ->
  (0 < K < 8 ->
   matmul_avx2_f32 A B C M K N alpha beta =
   simple_matmul A B C M K N alpha beta) /\
  (0 < K < 16 ->
   matmul_avx512_f32 A B C M K N alpha beta =
   simple_matmul A B C M K N alpha beta).
Proof.
  intros Hlen. unfold matmul_avx2_f32, matmul_avx512_f32.
  split; intros HK.
  - exact (matmul_simd_f32_small_K 8 A B C M K N alpha beta HK Hlen).
  - exact (matmul_simd_f32_small_K 16 A B C M K N alpha beta HK Hlen).
Qed.

Lemma matmul_avx_small_K_witness :
  let A := [1; 2; 3; 4; 5; 6] in
  let B := [1; 0; 0; 1; 1; 1] in
  matmul_avx2_f32 A B [1; 1; 1; 1] 2 3 2 1 10 =
  simple_matmul A B [1; 1; 1; 1] 2 3 2 1 10 /\
  simple_matmul A B [1; 1; 1; 1] 2 3 2 1 10 = [14; 15; 20; 21].
Proof.
  intros A B. split; [|reflexivity].
  destruct (matmul_avx_small_K (F := Z) A B [1; 1; 1; 1] 2 3 2 1 10)
    as [H8 _].
  - cbn. lia.
  - apply H8. lia.
Defined.

(** With no column to multiply ([K <= 0]) the vector kernels have no
    k-block to run and return [C] as it was given. *)
Theorem matmul_avx_no_columns {F} `{Arith F} (A B C : list F) (M K N : Z)
    (alpha beta : F) :
  K <= 0 ->
  matmul_avx2_f32 A B C M K N alpha beta = C /\
  matmul_avx512_f32 A B C M K N alpha beta = C.
Proof.
  intros HK.
  assert (Hgen : forall W, 0 < W ->
            matmul_simd_f32 W A B C M K N alpha beta = C).
  { intros W HW. unfold matmul_simd_f32.
    rewrite <- (for_id (range_step 0 M W) C) at 2.
    apply for_ext. intros m C0 _.
    rewrite <- (for_id (range_step 0 N W) C0) at 2.
    apply for_ext. intros n C1 _.
    rewrite (range_step_nil 0 K W) by lia. reflexivity. }
  unfold matmul_avx2_f32, matmul_avx512_f32.
  split; [exact (Hgen 8 eq_refl)|exact (Hgen 16 eq_refl)].
Qed.

Lemma matmul_avx_no_columns_witness :
  matmul_avx2_f32 [] [] [5] 1 0 1 1 0 = [5] /\
  matmul_avx512_f32 [] [] [5] 1 0 1 1 0 = [5] /\
  simple_matmul [] [] [5] 1 0 1 1 0 = [0].
Proof.
  destruct (matmul_avx_no_columns (F := Z) [] [] [5] 1 0 1 1 0) as [H2 H5];
    [lia|].
  split; [exact H2|]. split; [exact H5|reflexivity].
Defined.

(** ** Reshape *)

Lemma reshape_ok (t : Tensor uint8_t) (new_shape : list Z) :
  tensor_wf t -> calculate_numel new_shape = numel_ t ->
  reshape t new_shape =
  inr (mkTensor new_shape (dtype_ t) (numel_ t) (byte_size_ t) (data_ t)).
Proof.
  intros (Hn & Hb & Hl) Hne. unfold reshape.
  rewrite Hne, Z.eqb_refl. cbn [negb].
  unfold Tensor_new. cbn [shape_ dtype_ numel_ byte_size_ data_].
  rewrite Hne, <- Hb. f_equal. f_equal.
  apply memcpy_whole; [exact Hl|].
  rewrite repeat_length. lia.
Qed.

Lemma reshape_inv (t r : Tensor uint8_t) (new_shape : list Z) :
  reshape t new_shape = inr r -> calculate_numel new_shape = numel_ t.
Proof.
  unfold reshape.
  destruct (Z.eqb_spec (calculate_numel new_shape) (numel_ t)) as [E|E];
    [intros _; exact E|discriminate].
Qed.

(** Reshaping twice is reshaping once to the last shape: the intermediate
    shape leaves no trace. *)
Theorem reshape_compose (t t1 : Tensor uint8_t) (s1 s2 : list Z) :
  tensor_wf t ->
  reshape t s1 = inr t1 ->
  reshape t1 s2 = reshape t s2.
Proof.
  intros Hwf H1.
  pose proof (reshape_inv t t1 s1 H1) as E1.
  rewrite (reshape_ok t s1 Hwf E1) in H1. injection H1 as <-.
  destruct Hwf as (Hn & Hb & Hl).
  unfold reshape. cbn [numel_ dtype_ byte_size_ data_]. reflexivity.
Qed.

Lemma reshape_compose_witness :
  let t := mkTensor [2; 2] Q4 4 2 [33; 67] in
  let t1 := mkTensor [4; 1] Q4 4 2 [33; 67] in
  reshape t [4; 1] = inr t1 /\ reshape t1 [1; 4] = reshape t [1; 4].
Proof.
  intros t t1.
  assert (H1 : reshape t [4; 1] = inr t1) by reflexivity.
  split; [exact H1|].
  apply (reshape_compose t t1 [4; 1] [1; 4]); [repeat split|exact H1].
Defined.

(** Reshaping a tensor to its own shape returns an equal tensor, and
    reshaping back after any successful [reshape] returns the tensor one
    started from. *)
Theorem reshape_round_trip (t : Tensor uint8_t) :
  tensor_wf t ->
  reshape t (shape_ t) = inr t /\
  forall (s : list Z) (r : Tensor uint8_t),
    reshape t s = inr r -> reshape r (shape_ t) = inr t.
Proof.
  intros Hwf.
  assert (Hid : reshape t (shape_ t) = inr t).
  { rewrite (reshape_ok t (shape_ t) Hwf).
    - destruct t; reflexivity.
    - destruct Hwf as (Hn & _). symmetry. exact Hn. }
  split; [exact Hid|].
  intros s r Hr.
  pose proof (reshape_inv t r s Hr) as E.
  rewrite (reshape_ok t s Hwf E) in Hr. injection Hr as <-.
  destruct Hwf as (Hn & Hb & Hl).
  rewrite reshape_ok.
  - cbn [shape_ dtype_ numel_ byte_size_ data_]. destruct t; reflexivity.
  - unfold tensor_wf. cbn [shape_ dtype_ numel_ byte_size_ data_].
    split; [symmetry; exact E|]. split; assumption.
  - cbn [numel_]. symmetry. exact Hn.
Qed.

Lemma reshape_round_trip_witness :
  let t := mkTensor [2; 2] Q4 4 2 [33; 67] in
  reshape t [2; 2] = inr t /\
  exists r, reshape t [4; 1] = inr r /\ reshape r [2; 2] = inr t.
Proof.
  intros t.
  destruct (reshape_round_trip t) as [Hid Hback]; [repeat split|].
  split; [exact Hid|].
  exists (mkTensor [4; 1] Q4 4 2 [33; 67]).
  split; [reflexivity|].
  apply (Hback [4; 1]). reflexivity.
Defined.

(** ** The tensor pool: allocation, recursion, destruction *)

Lemma align_up_ge p a : 0 < a -> p <= align_up p a.
Proof.
  intros Ha. unfold align_up.
  pose proof (Z.div_mod (p + a - 1) a ltac:(lia)).
  pose proof (Z.mod_pos_bound (p + a - 1) a Ha). nia.
Qed.

Lemma first_fit_nonnull chunks sz ptr chunks' :
  first_fit chunks sz = Some (ptr, chunks') -> ptr <> nullptr.
Proof.
  revert ptr chunks'. induction chunks as [|c rest IH]; intros ptr chunks';
    cbn [first_fit]; [discriminate|].
  destruct ((sz <=? size c) && negb (data c =? nullptr)) eqn:E.
  - intros [= <- _]. apply andb_prop in E. destruct E as [_ E].
    apply negb_true_iff, Z.eqb_neq in E. exact E.
  - destruct (first_fit rest sz) as [[r rest']|] eqn:Er; [|discriminate].
    intros [= <- _]. apply (IH r rest'). reflexivity.
Qed.



(** [allocate(0)] on a pool that has no chunk with memory left and has
    allocated fewer than two bytes never returns: the chunk it adds is a
    null chunk of size [0], and the recursive call meets the same pool. *)
Theorem TensorPool_allocate_zero_diverges (p : TensorPool) :
  first_fit (head_ p) 0 = None ->
  0 <= total_allocated_ p < 2 ->
  forall fuel h, TensorPool_allocate fuel h p 0 = None.
Proof.
  intros Hf Ht fuel. revert p Hf Ht.
  induction fuel as [|fuel IH]; intros p Hf Ht h; cbn [TensorPool_allocate];
    rewrite Hf; [reflexivity|].
  assert (E : Z.max 0 (total_allocated_ p / 2) = 0).
  { rewrite Z.div_small by lia. reflexivity. }
  rewrite E. unfold AlignedAllocator_allocate. cbn [Z.eqb].
  apply IH.
  - cbn [head_ first_fit data size]. unfold nullptr. cbn.
    rewrite Hf. reflexivity.
  - cbn [total_allocated_]. rewrite Z.add_0_r.
    rewrite wrap_size_small by lia. exact Ht.
Qed.

Lemma TensorPool_allocate_zero_diverges_witness :
  let p := snd (TensorPool_new (mkHeap 4096 []) 0) in
  p = mkTensorPool [mkChunk nullptr 0] 0 0 /\
  forall fuel h, TensorPool_allocate fuel h p 0 = None.
Proof.
  intros p. split; [reflexivity|].
  apply (TensorPool_allocate_zero_diverges p); [reflexivity|cbn; lia].
Defined.

Lemma deallocate_nullptr_chunks (h : Heap) (chunks : list Chunk) :
  fold_left (fun h current => AlignedAllocator_deallocate h (data current))
    (map (fun _ => mkChunk nullptr 0) chunks) h = h.
Proof.
  induction chunks as [|c chunks IH]; [reflexivity|].
  cbn [map fold_left data]. exact IH.
Qed.

(** The destructor returns no block to the system: [reset()] has nulled
    every chunk's [data] before the walk hands it to [deallocate], so the
    heap after the destructor is the heap before it, the pool's blocks
    still live. *)
Theorem TensorPool_destroy_frees_nothing (h : Heap) (p : TensorPool) :
  TensorPool_destroy h p = h /\
  forall initial_size, 0 < initial_size ->
    let hp := TensorPool_new h initial_size in
    In (align_up (next_block h) 32)
       (live (TensorPool_destroy (fst hp) (snd hp))).
Proof.
  assert (Hd : forall h p, TensorPool_destroy h p = h).
  { intros h0 p0. unfold TensorPool_destroy, TensorPool_reset. cbn [head_].
    apply deallocate_nullptr_chunks. }
  split; [apply Hd|].
  intros n Hn hp. rewrite Hd. subst hp.
  unfold TensorPool_new, AlignedAllocator_allocate.
  destruct (Z.eqb_spec n 0) as [E|E]; [lia|].
  cbn [fst live]. left. reflexivity.
Qed.

Lemma TensorPool_destroy_frees_nothing_witness :
  let hp := TensorPool_new (mkHeap 4096 []) 1024 in
  live (fst hp) = [4096] /\
  In 4096 (live (TensorPool_destroy (fst hp) (snd hp))).
Proof.
  intros hp. split; [reflexivity|].
  destruct (TensorPool_destroy_frees_nothing (mkHeap 4096 []) (snd hp))
    as [_ Hlive].
  apply (Hlive 1024). lia.
Defined.

Lemma first_fit_inv (B : Z) (chunks : list Chunk) (sz ptr : Z)
    (chunks' : list Chunk) :
  0 < sz ->
  chunks_ok B chunks ->
  first_fit chunks sz = Some (ptr, chunks') ->
  (0 < ptr /\ ptr + sz <= B /\
   exists c, In c chunks /\ data c <> nullptr /\
             data c <= ptr /\ ptr + sz <= data c + size c) /\
  (forall c', In c' chunks' -> data c' <> nullptr ->
     (0 < data c' /\ data c' + size c' <= B) /\
     (exists c, In c chunks /\ data c <> nullptr /\
                data c <= data c' /\ data c' + size c' <= data c + size c) /\
     (ptr + sz <= data c' \/ data c' + size c' <= ptr)) /\
  ForallOrdPairs chunks_disjoint chunks'.
Proof.
  intros Hsz. revert ptr chunks'.
  induction chunks as [|c0 rest IH]; intros ptr chunks' [Hb Hd];
    cbn [first_fit]; [discriminate|].
  inversion Hd as [|? ? Hc0 Hrest]; subst.
  rewrite Forall_forall in Hc0.
  destruct ((sz <=? size c0) && negb (data c0 =? nullptr)) eqn:E.
  - apply andb_prop in E. destruct E as [Els Enn].
    apply Z.leb_le in Els. apply negb_true_iff, Z.eqb_neq in Enn.
    destruct (Hb c0 (or_introl eq_refl) Enn) as [Hpos Hle].
    intros [= <- <-].
    assert (Hrem : forall c', In c' rest -> data c' <> nullptr ->
              (0 < data c' /\ data c' + size c' <= B) /\
              (exists c, In c (c0 :: rest) /\ data c <> nullptr /\
                 data c <= data c' /\ data c' + size c' <= data c + size c) /\
              (data c0 + sz <= data c' \/ data c' + size c' <= data c0)).
    { intros c' Hin Hnn. split; [apply Hb; [right; exact Hin|exact Hnn]|].
      split; [exists c'; split; [right; exact Hin|]; split; [exact Hnn|lia]|].
      destruct (Hc0 c' Hin) as [H1|[H1|[H1|H1]]]; try contradiction; lia. }
    split; [|split].
    + split; [exact Hpos|]. split; [lia|].
      exists c0. split; [left; reflexivity|]. split; [exact Enn|lia].
    + intros c' [<-|Hin] Hnn; [now elim Hnn|].
      destruct (sz <? size c0) eqn:El.
      * destruct Hin as [<-|Hin]; [|apply Hrem; assumption].
        apply Z.ltb_lt in El. cbn [data size] in *.
        split; [lia|]. split; [|lia].
        exists c0. split; [left; reflexivity|]. split; [exact Enn|lia].
      * apply Hrem; assumption.
    + constructor.
      * apply Forall_forall. intros c' _. left. reflexivity.
      * destruct (sz <? size c0) eqn:El; [|exact Hrest].
        apply Z.ltb_lt in El. constructor; [|exact Hrest].
        apply Forall_forall. intros c' Hin.
        unfold chunks_disjoint. cbn [data size].
        destruct (Hc0 c' Hin) as [H1|[H1|[H1|H1]]]; try contradiction.
        -- right; left; exact H1.
        -- right; right; left; lia.
        -- right; right; right; lia.
  - destruct (first_fit rest sz) as [[r rest']|] eqn:Er; [|discriminate].
    intros [= <- <-].
    assert (Hok : chunks_ok B rest).
    { split; [|exact Hrest]. intros c Hin. apply Hb. right. exact Hin. }
    destruct (IH r rest' Hok eq_refl) as ((Hp & Hle & c & Hc & Hcn & Hc1 & Hc2)
                                          & Hin' & Hd').
    split; [|split].
    + split; [exact Hp|]. split; [exact Hle|].
      exists c. split; [right; exact Hc|]. auto.
    + intros c' [<-|Hin] Hnn.
      * split; [apply Hb; [left; reflexivity|exact Hnn]|].
        split; [exists c0; split; [left; reflexivity|]; split; [exact Hnn|lia]|].
        destruct (Hc0 c Hc) as [H1|[H1|[H1|H1]]]; try contradiction; lia.
      * destruct (Hin' c' Hin Hnn) as (H1 & (c1 & Hc1in & H2) & H3).
        split; [exact H1|]. split; [|exact H3].
        exists c1. split; [right; exact Hc1in|exact H2].
    + constructor; [|exact Hd'].
      apply Forall_forall. intros c' Hin.
      unfold chunks_disjoint.
      destruct (Z.eq_dec (data c') nullptr) as [E'|E']; [right; left; exact E'|].
      destruct (Hin' c' Hin E') as (_ & (c1 & Hc1in & Hc1n & Hl1 & Hl2) & _).
      destruct (Hc0 c1 Hc1in) as [H1|[H1|[H1|H1]]].
      * left; exact H1.
      * contradiction.
      * right; right; left; lia.
      * right; right; right; lia.
Qed.

Lemma chunks_ok_weaken B B' chunks :
  B <= B' -> chunks_ok B chunks -> chunks_ok B' chunks.
Proof.
  intros HB [Hb Hd]. split; [|exact Hd].
  intros c Hin Hnn. destruct (Hb c Hin Hnn). lia.
Qed.

Lemma TensorPool_allocate_some h p sz :
  0 < sz -> 0 < next_block h ->
  exists r, TensorPool_allocate 1 h p sz = Some r.
Proof.
  intros Hsz Hh. cbn [TensorPool_allocate].
  destruct (first_fit (head_ p) sz) as [[ptr chunks]|] eqn:Ef;
    [eexists; reflexivity|].
  unfold AlignedAllocator_allocate.
  destruct (Z.eqb_spec (Z.max sz (total_allocated_ p / 2)) 0) as [E0|E0];
    [lia|].
  pose proof (align_up_ge (next_block h) 32 ltac:(lia)) as Hge.
  cbn [head_ first_fit data size].
  replace ((sz <=? Z.max sz (total_allocated_ p / 2))
           && negb (align_up (next_block h) 32 =? nullptr)) with true;
    [eexists; reflexivity|].
  symmetry. apply andb_true_intro. split; [apply Z.leb_le; lia|].
  apply negb_true_iff, Z.eqb_neq. unfold nullptr. lia.
Qed.

(** One [allocate]: the pool stays well formed, the block comes out of
    available memory, and what is available afterwards was available
    before and does not meet the block. *)
Lemma TensorPool_allocate_step h p sz h' p' ptr :
  0 < sz -> pool_inv h p ->
  TensorPool_allocate 1 h p sz = Some (h', p', ptr) ->
  pool_inv h' p' /\
  available h p (ptr, sz) /\
  forall b, available h' p' b ->
    available h p b /\ disjoint_blocks (ptr, sz) b.
Proof.
  intros Hsz [Hh Hok]. cbn [TensorPool_allocate].
  destruct (first_fit (head_ p) sz) as [[r chunks]|] eqn:Ef.
  - intros [= <- <- <-].
    destruct (first_fit_inv _ _ _ _ _ Hsz Hok Ef)
      as ((Hp & Hle & c & Hc & Hcn & Hc1 & Hc2) & Hin' & Hd').
    split; [|split].
    + split; [exact Hh|]. cbn [head_]. split; [|exact Hd'].
      intros c' Hi Hn. apply (Hin' c' Hi Hn).
    + left. exists c. cbn [fst snd]. auto.
    + intros b [(c' & Hi & Hn & Hb1 & Hb2)|Hb]; cbn [head_] in *.
      * destruct (Hin' c' Hi Hn) as (_ & (c1 & Hc1' & Hc1n & Hl1 & Hl2) & Hdis).
        split.
        -- left. exists c1. split; [exact Hc1'|]. split; [exact Hc1n|lia].
        -- unfold disjoint_blocks. cbn [fst snd]. lia.
      * split; [right; exact Hb|].
        unfold disjoint_blocks. cbn [fst snd]. lia.
  - set (new_size := Z.max sz (total_allocated_ p / 2)).
    unfold AlignedAllocator_allocate.
    destruct (Z.eqb_spec new_size 0) as [E0|E0]; [lia|].
    set (np := align_up (next_block h) 32).
    assert (Hnp : next_block h <= np) by (apply align_up_ge; lia).
    cbn [head_].
    destruct (first_fit (mkChunk np new_size :: head_ p) sz)
      as [[r chunks]|] eqn:Ef2; [|discriminate].
    intros [= <- <- <-].
    assert (Hok2 : chunks_ok (np + new_size) (mkChunk np new_size :: head_ p)).
    { destruct Hok as [Hb Hd]. split.
      - intros c [<-|Hi] Hn; cbn [data size]; [lia|].
        destruct (Hb c Hi Hn). lia.
      - constructor; [|exact Hd].
        apply Forall_forall. intros c Hi. unfold chunks_disjoint.
        cbn [data size].
        destruct (Z.eq_dec (data c) nullptr) as [E|E]; [right; left; exact E|].
        destruct (Hb c Hi E). right; right; right. lia. }
    destruct (first_fit_inv _ _ _ _ _ Hsz Hok2 Ef2)
      as ((Hp & Hle & c & Hc & Hcn & Hc1 & Hc2) & Hin' & Hd').
    assert (Hold : forall c, In c (mkChunk np new_size :: head_ p) ->
              data c <> nullptr -> forall b, data c <= fst b ->
              fst b + snd b <= data c + size c -> available h p b).
    { intros c1 [<-|Hi] Hn b Hb1 Hb2; cbn [data size] in *.
      - right. lia.
      - left. exists c1. auto. }
    split; [|split].
    + split; cbn [next_block head_]; [lia|]. split; [|exact Hd'].
      intros c' Hi Hn. apply (Hin' c' Hi Hn).
    + apply (Hold c Hc Hcn); cbn [fst snd]; lia.
    + intros b [(c' & Hi & Hn & Hb1 & Hb2)|Hb]; cbn [head_ next_block] in *.
      * destruct (Hin' c' Hi Hn) as (_ & (c1 & Hc1' & Hc1n & Hl1 & Hl2) & Hdis).
        split; [apply (Hold c1 Hc1' Hc1n); lia|].
        unfold disjoint_blocks. cbn [fst snd]. lia.
      * split; [right; lia|].
        unfold disjoint_blocks. cbn [fst snd]. lia.
Qed.

Lemma pool_inv_reset h p : pool_inv h p -> pool_inv h (TensorPool_reset p).
Proof.
  intros [Hh _]. split; [exact Hh|].
  unfold TensorPool_reset. cbn [head_]. split.
  - intros c Hi Hn. apply in_map_iff in Hi. destruct Hi as (c0 & <- & _).
    now elim Hn.
  - induction (head_ p) as [|c rest IH]; cbn [map]; constructor; [|exact IH].
    apply Forall_forall. intros c' _. left. reflexivity.
Qed.

Lemma available_reset h p b :
  available h (TensorPool_reset p) b -> available h p b.
Proof.
  intros [(c & Hi & Hn & _)|Hb]; [|right; exact Hb].
  unfold TensorPool_reset in Hi. cbn [head_] in Hi.
  apply in_map_iff in Hi. destruct Hi as (c0 & <- & _). now elim Hn.
Qed.

Lemma run_pool_disjoint ops : forall h p,
  pool_inv h p -> positive_sizes ops ->
  exists blocks,
    run_pool h p ops = Some blocks /\
    Forall (available h p) blocks /\
    ForallOrdPairs disjoint_blocks blocks.
Proof.
  induction ops as [|op ops IH]; intros h p Hinv Hpos.
  - exists []. split; [reflexivity|]. split; constructor.
  - inversion Hpos as [|? ? Hop Hpos']; subst.
    destruct op as [sz|]; cbn [run_pool].
    + destruct Hinv as [Hh Hok].
      destruct (TensorPool_allocate_some h p sz Hop Hh)
        as ([[h' p'] ptr] & Ha).
      rewrite Ha.
      destruct (TensorPool_allocate_step h p sz h' p' ptr Hop
                  (conj Hh Hok) Ha) as (Hinv' & Hav & Hnext).
      destruct (IH h' p' Hinv' Hpos') as (blocks & Hr & Hall & Hdis).
      rewrite Hr. exists ((ptr, sz) :: blocks).
      split; [reflexivity|]. rewrite Forall_forall in Hall. split.
      * constructor; [exact Hav|]. apply Forall_forall.
        intros b Hb. apply Hnext, Hall, Hb.
      * constructor; [|exact Hdis]. apply Forall_forall.
        intros b Hb. apply Hnext, Hall, Hb.
    + destruct (IH h (TensorPool_reset p) (pool_inv_reset h p Hinv) Hpos')
        as (blocks & Hr & Hall & Hdis).
      exists blocks. split; [exact Hr|]. split; [|exact Hdis].
      apply Forall_forall. rewrite Forall_forall in Hall.
      intros b Hb. apply available_reset, Hall, Hb.
Qed.



(** ** The Q4 codec: nibbles, the grid, the footprint *)

(** The nibble the packer stores for a quantised weight,
    [static_cast<uint8_t>(q) & 0x0F], and [decode_q4_signed] are inverse
    bijections between [-8 .. 7] and the sixteen nibbles. *)
Theorem q4_nibble_codec :
  (forall q, -8 <= q <= 7 ->
     0 <= Z.land (to_uint8 q) 15 < 16 /\
     decode_q4_signed (Z.land (to_uint8 q) 15) = q) /\
  (forall nib, 0 <= nib < 16 ->
     -8 <= decode_q4_signed nib <= 7 /\
     Z.land (to_uint8 (decode_q4_signed nib)) 15 = nib).
Proof.
  split.
  - intros q Hq.
    assert (Hc : q = -8 \/ q = -7 \/ q = -6 \/ q = -5 \/ q = -4 \/ q = -3 \/
                 q = -2 \/ q = -1 \/ q = 0 \/ q = 1 \/ q = 2 \/ q = 3 \/
                 q = 4 \/ q = 5 \/ q = 6 \/ q = 7) by lia.
    repeat (destruct Hc as [->|Hc]; [vm_compute; intuition discriminate|]).
    subst q. vm_compute. intuition discriminate.
  - intros nib Hn.
    assert (Hc : nib = 0 \/ nib = 1 \/ nib = 2 \/ nib = 3 \/ nib = 4 \/
                 nib = 5 \/ nib = 6 \/ nib = 7 \/ nib = 8 \/ nib = 9 \/
                 nib = 10 \/ nib = 11 \/ nib = 12 \/ nib = 13 \/ nib = 14 \/
                 nib = 15) by lia.
    repeat (destruct Hc as [->|Hc]; [vm_compute; intuition discriminate|]).
    subst nib. vm_compute. intuition discriminate.
Qed.


Lemma quantize_q4_on_grid (q : Z) (scale : R) :
  -8 <= q <= 7 -> scale <> 0%R ->
  quantize_q4 (IZR q * scale)%R scale = q.
Proof.
  intros Hq Hs. unfold quantize_q4. cbn [fdiv R_Scalar fround].
  replace (IZR q * scale / scale)%R with (IZR q) by (field; exact Hs).
  rewrite Rround_IZR. unfold clamp_q4. rewrite to_int8_small by lia. lia.
Qed.

(** For an even row length, a weight that lies on its row's quantisation
    grid ([q * scale] with [q] in [-8 .. 7], the scale of either sign)
    comes back from packing and dequantising exactly. *)
Theorem pack_dequantize_exact_on_grid (weights scales : list R) qweights
    (scales_out out : list R) M Kh m k (q : Z) :
  let K := 2 * Kh in
  M * Kh <= Z.of_nat (List.length qweights) ->
  M <= Z.of_nat (List.length scales_out) ->
  M * K <= Z.of_nat (List.length out) ->
  0 <= m < M -> 0 <= k < K ->
  get 0%R scales m <> 0%R ->
  -8 <= q <= 7 ->
  get 0%R weights (m * K + k) = (IZR q * get 0%R scales m)%R ->
  let packed := pack_q4_rowwise weights scales qweights scales_out M K in
  get 0%R (dequantize_q4_rowwise (fst packed) (snd packed) out M K)
    (m * K + k) = get 0%R weights (m * K + k).
Proof.
  intros K Hq Hso Hout Hm Hk Hs Hqr Hw packed.
  assert (Hv : get 0%R (dequantize_q4_rowwise (fst packed) (snd packed) out
                          M K) (m * K + k) =
               dequant_value (fst packed) (snd packed) m K k)
    by exact (dequantize_q4_rowwise_cell (F := R) (fst packed) (snd packed)
                out M K m k Hout Hm Hk).
  assert (Hn : signed_nibble (fst packed) m K k =
               quantize_q4 (get 0%R weights (m * K + k)) (get 0%R scales m))
    by exact (pack_nibble_even (F := R) weights scales qweights scales_out
                M Kh m k Hq Hso Hm Hk).
  assert (Hsc : get 0%R (snd packed) m = get 0%R scales m)
    by exact (pack_scales_out (F := R) weights scales qweights scales_out
                M K m Hso Hm).
  rewrite Hv. unfold dequant_value.
  change (decode_q4_signed (nibble_at (fst packed) m K k))
    with (signed_nibble (fst packed) m K k).
  rewrite Hn.
  change (get fzero (snd packed) m) with (get 0%R (snd packed) m).
  rewrite Hsc, Hw, (quantize_q4_on_grid q _ Hqr Hs). reflexivity.
Qed.

Lemma pack_dequantize_exact_on_grid_witness :
  let weights := [1.5; -4; -14; 6]%R in
  let scales := [0.5; -2]%R in
  let packed := pack_q4_rowwise weights scales [0; 0] [0; 0]%R 2 (2 * 1) in
  get 0%R (dequantize_q4_rowwise (fst packed) (snd packed) [0; 0; 0; 0]%R
             2 (2 * 1)) (1 * (2 * 1) + 0) = (-14)%R.
Proof.
  intros weights scales.
  refine (eq_trans
            (pack_dequantize_exact_on_grid weights scales [0; 0] [0; 0]%R
               [0; 0; 0; 0]%R 2 1 1 0 7 _ _ _ _ _ _ _ _) _).
  - cbn. lia.
  - cbn. lia.
  - cbn. lia.
  - lia.
  - lia.
  - unfold scales. eval_R. lra.
  - lia.
  - unfold scales, weights. eval_R. lra.
  - unfold weights. eval_R. reflexivity.
Defined.

Lemma keeps_beyond_set {A} (d : A) (i bound : Z) (v : list A -> A) :
  i < bound -> keeps_beyond d (fun a => set a i (v a)) bound.
Proof.
  intros Hi a. split; [apply set_length|].
  intros j Hj. apply get_set_ne. lia.
Qed.

Lemma keeps_beyond_for {A} (d : A) (l : list Z)
    (body : Z -> list A -> list A) (bound : Z) :
  (forall i, In i l -> keeps_beyond d (body i) bound) ->
  keeps_beyond d (for_ l body) bound.
Proof.
  induction l as [|i l IH]; intros Hb a.
  - split; reflexivity.
  - unfold for_ in *. cbn [fold_left].
    destruct (Hb i (or_introl eq_refl) a) as [Hl1 Hk1].
    destruct (IH (fun i' Hi' => Hb i' (or_intror Hi')) (body i a))
      as [Hl2 Hk2].
    split; [congruence|].
    intros j Hj. rewrite Hk2, Hk1 by exact Hj. reflexivity.
Qed.

Lemma range_step_In_2 K k : In k (range_step 0 K 2) -> 0 <= k < K.
Proof.
  rewrite range_step_map by lia. intros Hk.
  apply in_map_iff in Hk. destruct Hk as (i & <- & Hi).
  apply range_In in Hi.
  pose proof (Z.div_mod (K + 2 - 1) 2 ltac:(lia)).
  pose proof (Z.mod_pos_bound (K + 2 - 1) 2 ltac:(lia)). lia.
Qed.

(** [pack_q4_rowwise] writes inside the first [ceil(M*K/2)] bytes of
    [qweights] and the first [M] entries of [scales_out] only. *)
Theorem pack_q4_rowwise_footprint {F} `{Scalar F} (weights scales : list F)
    (qweights : list uint8_t) (scales_out : list F) (M K : Z) :
  let packed := pack_q4_rowwise weights scales qweights scales_out M K in
  List.length (fst packed) = List.length qweights /\
  List.length (snd packed) = List.length scales_out /\
  (forall j, (M * K + 1) / 2 <= j ->
     get 0 (fst packed) j = get 0 qweights j) /\
  (forall j, M <= j -> get fzero (snd packed) j = get fzero scales_out j).
Proof.
  intros packed. subst packed. unfold pack_q4_rowwise. cbn [fst snd].
  set (so := for_ (range 0 M) (fun i so => set so i (get fzero scales i))
               scales_out).
  assert (Hso : keeps_beyond fzero
                  (for_ (range 0 M)
                     (fun i (so : list F) => set so i (get fzero scales i)))
                  M).
  { apply keeps_beyond_for. intros i Hi. apply range_In in Hi.
    apply (keeps_beyond_set fzero i M (fun _ => get fzero scales i)). lia. }
  assert (Hqw : keeps_beyond 0
                  (for_ (range 0 M) (fun m qw =>
                     for_ (range_step 0 K 2) (fun k qw =>
                       let byte := 0 in
                       let q1 := quantize_q4 (get fzero weights (m * K + k))
                                   (get fzero so m) in
                       let byte :=
                         to_uint8 (Z.lor byte (Z.land (to_uint8 q1) 15)) in
                       let byte :=
                         if k + 1 <? K then
                           let q2 :=
                             quantize_q4 (get fzero weights (m * K + k + 1))
                               (get fzero so m) in
                           to_uint8
                             (Z.lor byte
                                (Z.shiftl (Z.land (to_uint8 q2) 15) 4))
                         else byte in
                       set qw (Z.quot (m * K + k) 2) byte) qw))
                  ((M * K + 1) / 2)).
  { apply keeps_beyond_for. intros m Hm. apply range_In in Hm.
    apply keeps_beyond_for. intros k Hk. apply range_step_In_2 in Hk.
    cbv zeta.
    apply (keeps_beyond_set 0 (Z.quot (m * K + k) 2) ((M * K + 1) / 2)
             (fun _ => _)).
    rewrite Z.quot_div_nonneg by nia.
    apply Z.div_lt_upper_bound; [lia|].
    pose proof (Z.div_mod (M * K + 1) 2 ltac:(lia)).
    pose proof (Z.mod_pos_bound (M * K + 1) 2 ltac:(lia)). nia. }
  destruct (Hso scales_out) as [Hl1 Hk1].
  destruct (Hqw qweights) as [Hl2 Hk2].
  split; [exact Hl2|]. split; [exact Hl1|]. split; [exact Hk2|exact Hk1].
Qed.

(** ** Attention: the softmax the kernel computes *)

Lemma exp_sub a m : exp (a - m) = (exp a / exp m)%R.
Proof.
  unfold Rminus, Rdiv. rewrite exp_plus, exp_Ropp. reflexivity.
Qed.

Lemma sum_range_pos (f : Z -> R) lo hi :
  lo < hi -> (forall t, lo <= t < hi -> (0 < f t)%R) ->
  (0 < sum_range f lo hi)%R.
Proof.
  intros Hlt Hf.
  apply Rlt_le_trans with (f lo); [apply Hf; lia|].
  apply sum_range_ge_term; [|lia].
  intros t Ht. left. apply Hf, Ht.
Qed.

(** In real arithmetic the weights of query position [s] are the softmax
    of the scaled scores over the causal window: subtracting the maximum
    changes nothing. *)
Lemma attention_weights_softmax (scale : R) (q_data k_data : list R)
    (b s seq_len head_dim : Z) :
  0 <= s < seq_len ->
  let sc := fun t => score_at scale q_data k_data b s t seq_len head_dim in
  let Z_ := sum_range (fun t => exp (sc t)) 0 (s + 1) in
  (0 < Z_)%R /\
  forall t, 0 <= t <= s ->
    get 0%R (attention_weights scale q_data k_data b s seq_len head_dim) t =
    (exp (sc t) / Z_)%R.
Proof.
  intros Hs sc Z_.
  assert (HZ : (0 < Z_)%R).
  { apply sum_range_pos; [lia|]. intros t _. apply exp_pos. }
  split; [exact HZ|].
  set (scores0 := repeat 0%R (Z.to_nat seq_len)).
  set (pass1 := score_pass scale q_data k_data b s seq_len head_dim scores0).
  set (pass2 := exp_pass (fst pass1) s (snd pass1)).
  assert (Hw : attention_weights scale q_data k_data b s seq_len head_dim =
               normalize (fst pass2) s (snd pass2)).
  { unfold pass2, pass1, scores0, attention_weights.
    change (repeat fzero (Z.to_nat seq_len))
      with (repeat 0%R (Z.to_nat seq_len)).
    destruct (score_pass scale q_data k_data b s seq_len head_dim
                (repeat 0%R (Z.to_nat seq_len))) as [mx sc1].
    cbn [fst snd]. destruct (exp_pass mx s sc1) as [se sc2]. reflexivity. }
  assert (Hlen0 : Z.of_nat (List.length scores0) = seq_len).
  { unfold scores0. rewrite repeat_length. lia. }
  destruct (score_pass_spec scale q_data k_data b s seq_len head_dim Hs
              scores0 Hlen0)
    as (Hl1 & Hg1 & m & Hm & _ & _).
  fold pass1 in Hl1, Hg1, Hm.
  destruct (exp_pass_spec s seq_len Hs m (snd pass1) Hl1)
    as (Hl2 & Hg2 & Hsum).
  assert (Hpass2 : pass2 = exp_pass (Some m) s (snd pass1)).
  { unfold pass2. now rewrite Hm. }
  rewrite <- Hpass2 in Hl2, Hg2, Hsum.
  assert (Hsum' : fst pass2 = (Z_ / exp m)%R).
  { rewrite Hsum. unfold Z_. rewrite <- sum_range_div by lia.
    apply sum_range_ext. intros t Ht.
    rewrite Hg1 by lia. apply exp_sub. }
  assert (Hem : (0 < exp m)%R) by apply exp_pos.
  assert (Hpos : (0 < fst pass2)%R).
  { rewrite Hsum'. apply Rdiv_lt_0_compat; assumption. }
  intros t Ht. rewrite Hw.
  rewrite (normalize_spec s seq_len Hs (fst pass2) (snd pass2) Hl2 Hpos t Ht).
  rewrite Hg2 by exact Ht. rewrite Hg1 by exact Ht.
  rewrite Hsum'. fold (sc t). rewrite exp_sub. field. lra.
Qed.

Lemma sum_range_le (f g : Z -> R) lo hi :
  lo <= hi -> (forall t, lo <= t < hi -> (f t <= g t)%R) ->
  (sum_range f lo hi <= sum_range g lo hi)%R.
Proof.
  intros Hle. revert hi Hle.
  apply (range_ind (fun hi => (forall t, lo <= t < hi -> (f t <= g t)%R) ->
                      (sum_range f lo hi <= sum_range g lo hi)%R)).
  - intros _. rewrite !sum_range_nil by lia. apply Rle_refl.
  - intros hi Hhi IH Hfg. rewrite !sum_range_snoc by lia.
    cbn [fadd R_Arith].
    apply Rplus_le_compat; [apply IH; intros t Ht; apply Hfg; lia|].
    apply Hfg. lia.
Qed.

(** The value [compute_attention] leaves at [(b, s, d)], in real
    arithmetic: the average of the value rows [t <= s], row [t] weighted
    by [exp] of its scaled score. *)
Lemma compute_attention_cell_R (fa : FlashAttention R)
    (Q K V output : Tensor R) (cache : option (KVCache R)) (b s d : Z) :
  let B := dim (shape_ Q) 0 in
  let S := dim (shape_ Q) 1 in
  let D := dim (shape_ Q) 2 in
  dtype_ Q = FP32 -> dtype_ K = FP32 -> dtype_ V = FP32 ->
  dtype_ output = FP32 ->
  B * S * D <= Z.of_nat (List.length (data_ output)) ->
  0 <= b < B -> 0 <= s < S -> 0 <= d < D ->
  let sc := fun t => score_at (scale_ fa) (data_ Q) (data_ K) b s t S D in
  let Z_ := sum_range (fun t => exp (sc t)) 0 (s + 1) in
  (0 < Z_)%R /\
  exists o,
    fst (compute_attention fa Q K V output cache) = inr o /\
    get 0%R (data_ o) (b * S * D + s * D + d) =
    sum_range (fun t => (exp (sc t) / Z_
                         * get 0%R (data_ V) (b * S * D + t * D + d))%R)
      0 (s + 1).
Proof.
  intros B S D HQ HK HV HO Hlen Hb Hs Hd sc Z_.
  destruct (attention_weights_softmax (scale_ fa) (data_ Q) (data_ K)
              b s S D Hs) as [HZ Hw].
  split; [exact HZ|].
  rewrite (compute_attention_data fa Q K V output cache HQ HK HV HO).
  cbn [fst]. eexists. split; [reflexivity|]. cbn [with_data data_].
  refine (eq_trans
            (attention_loops_cell (scale_ fa) (data_ Q) (data_ K) (data_ V)
               B S D (data_ output) b s d Hlen Hb Hs Hd) _).
  refine (sum_range_ext
            (fun t =>
               (get 0%R (attention_weights (scale_ fa) (data_ Q) (data_ K)
                           b s S D) t
                * get 0%R (data_ V) (b * S * D + t * D + d))%R) _ 0 (s + 1) _).
  intros t Ht. rewrite (Hw t) by lia. reflexivity.
Qed.







Section AttentionLocal.
Context {F : Type} `{Scalar F}.

Lemma dot_row_ext_q (q_data q_data' k_data : list F) b s t S D :
  (forall d, 0 <= d < D ->
     get fzero q_data (b * S * D + s * D + d) =
     get fzero q_data' (b * S * D + s * D + d)) ->
  dot_row q_data k_data b s t S D = dot_row q_data' k_data b s t S D.
Proof.
  intros Hq. unfold dot_row. apply for_ext.
  intros d score Hd. apply range_In in Hd. cbv zeta.
  now rewrite Hq.
Qed.

Lemma attention_weights_ext_q (scale : F) (q_data q_data' k_data : list F)
    b s S D :
  (forall d, 0 <= d < D ->
     get fzero q_data (b * S * D + s * D + d) =
     get fzero q_data' (b * S * D + s * D + d)) ->
  attention_weights scale q_data k_data b s S D =
  attention_weights scale q_data' k_data b s S D.
Proof.
  intros Hq. unfold attention_weights.
  assert (Hsp : forall scores,
            score_pass scale q_data k_data b s S D scores =
            score_pass scale q_data' k_data b s S D scores).
  { intros scores. unfold score_pass. apply for_ext.
    intros t [m sc] Ht.
    rewrite (dot_row_ext_q q_data q_data' k_data b s t S D Hq).
    reflexivity. }
  now rewrite Hsp.
Qed.

End AttentionLocal.

(** The output at [(b, s, d)] is a function of the query row [(b, s)],
    of the key rows [(b, t)], [t <= s], and of column [d] of the value
    rows [(b, t)], [t <= s], alone: no other batch element, query
    position or value column enters it. *)
Theorem compute_attention_local {F} `{Scalar F} (fa : FlashAttention F)
    (Q Q' K K' V V' output : Tensor F) (cache : option (KVCache F))
    (b s d : Z) :
  let B := dim (shape_ Q) 0 in
  let S := dim (shape_ Q) 1 in
  let D := dim (shape_ Q) 2 in
  shape_ Q' = shape_ Q ->
  dtype_ Q = FP32 -> dtype_ K = FP32 -> dtype_ V = FP32 ->
  dtype_ Q' = FP32 -> dtype_ K' = FP32 -> dtype_ V' = FP32 ->
  dtype_ output = FP32 ->
  B * S * D <= Z.of_nat (List.length (data_ output)) ->
  0 <= b < B -> 0 <= s < S -> 0 <= d < D ->
  (forall d', 0 <= d' < D ->
     get fzero (data_ Q) (b * S * D + s * D + d') =
     get fzero (data_ Q') (b * S * D + s * D + d')) ->
  (forall t d', 0 <= t <= s -> 0 <= d' < D ->
     get fzero (data_ K) (b * S * D + t * D + d') =
     get fzero (data_ K') (b * S * D + t * D + d')) ->
  (forall t, 0 <= t <= s ->
     get fzero (data_ V) (b * S * D + t * D + d) =
     get fzero (data_ V') (b * S * D + t * D + d)) ->
  exists o o',
    fst (compute_attention fa Q K V output cache) = inr o /\
    fst (compute_attention fa Q' K' V' output cache) = inr o' /\
    get fzero (data_ o) (b * S * D + s * D + d) =
    get fzero (data_ o') (b * S * D + s * D + d).
Proof.
  intros B S D Hsh HQ HK HV HQ' HK' HV' HO Hlen Hb Hs Hd Hq Hk Hv.
  rewrite (compute_attention_data fa Q K V output cache HQ HK HV HO).
  rewrite (compute_attention_data fa Q' K' V' output cache HQ' HK' HV' HO).
  rewrite Hsh. fold B S D. cbn [fst].
  eexists. eexists. split; [reflexivity|]. split; [reflexivity|].
  cbn [with_data data_].
  rewrite !attention_loops_cell by assumption.
  rewrite (attention_weights_ext_q (scale_ fa) (data_ Q) (data_ Q') (data_ K)
             b s S D Hq).
  rewrite (attention_weights_ext (scale_ fa) (data_ Q') (data_ K) (data_ K')
             b s S D Hk).
  apply weighted_sum_ext. exact Hv.
Qed.

Lemma compute_attention_local_witness :
  let fa := mkFlashAttention 1 1 1 1%R in
  let Q := mkTensor [2; 2; 1] FP32 4 16 [1; 1; 7; 7]%R in
  let Q' := mkTensor [2; 2; 1] FP32 4 16 [1; 9; 8; 8]%R in
  let K := mkTensor [2; 2; 1] FP32 4 16 [1; 2; 3; 4]%R in
  let K' := mkTensor [2; 2; 1] FP32 4 16 [1; 5; 6; 7]%R in
  let V := mkTensor [2; 2; 1] FP32 4 16 [4; 5; 6; 7]%R in
  let V' := mkTensor [2; 2; 1] FP32 4 16 [4; 9; 9; 9]%R in
  let output := mkTensor [2; 2; 1] FP32 4 16 [0; 0; 0; 0]%R in
  exists o o',
    fst (compute_attention fa Q K V output None) = inr o /\
    fst (compute_attention fa Q' K' V' output None) = inr o' /\
    get 0%R (data_ o) 0 = get 0%R (data_ o') 0.
Proof.
  intros fa Q Q' K K' V V' output.
  destruct (compute_attention_local fa Q Q' K K' V V' output None 0 0 0)
    as (o & o' & Ho & Ho' & E); try reflexivity; try (cbn; lia).
  - intros d' Hd'. assert (d' = 0) by (cbn in Hd'; lia). subst d'.
    reflexivity.
  - intros t d' Ht Hd'. assert (d' = 0) by (cbn in Hd'; lia).
    assert (t = 0) by lia. subst d' t. reflexivity.
  - intros t Ht. assert (t = 0) by lia. subst t. reflexivity.
  - exists o, o'. split; [exact Ho|]. split; [exact Ho'|exact E].
Defined.

(** ** Dtype names and the tokenizer *)

(** [string_to_dtype] and [dtype_to_string] are inverse to each other:
    every dtype's name parses back to it, and whatever [string_to_dtype]
    accepts is the name of the dtype it returns. *)
Theorem dtype_string_roundtrip :
  (forall d, string_to_dtype (dtype_to_string d) = inr d) /\
  (forall s d, string_to_dtype s = inr d -> dtype_to_string d = s).
Proof.
  split.
  - intros []; reflexivity.
  - intros s d. unfold string_to_dtype.
    destruct (String.eqb_spec s "F32") as [->|_]; [intros [= <-]; reflexivity|].
    destruct (String.eqb_spec s "F16") as [->|_]; [intros [= <-]; reflexivity|].
    destruct (String.eqb_spec s "I8") as [->|_]; [intros [= <-]; reflexivity|].
    destruct (String.eqb_spec s "Q4") as [->|_]; [intros [= <-]; reflexivity|].
    discriminate.
Qed.

Lemma string_append_assoc (a b c : string) :
  String.append (String.append a b) c = String.append a (String.append b c).
Proof.
  induction a as [|ch a IH]; cbn [String.append]; [reflexivity|].
  now rewrite IH.
Qed.

Lemma string_append_empty_r (a : string) : String.append a EmptyString = a.
Proof.
  induction a as [|ch a IH]; cbn [String.append]; [reflexivity|].
  now rewrite IH.
Qed.

Lemma decode_loop_eos (tk : Tokenizer) (pre post : list Z) :
  bos_token_id_ tk <> eos_token_id_ tk ->
  forall i result,
    decode_loop tk i (pre ++ eos_token_id_ tk :: post) result =
    decode_loop tk i pre result.
Proof.
  intros Hne. induction pre as [|t pre IH]; intros i result.
  - cbn [app decode_loop].
    replace (eos_token_id_ tk =? bos_token_id_ tk) with false
      by (symmetry; apply Z.eqb_neq; congruence).
    cbn [andb]. rewrite Z.eqb_refl. reflexivity.
  - cbn [app decode_loop].
    destruct ((t =? bos_token_id_ tk) && (i =? 0)); [apply IH|].
    destruct (t =? eos_token_id_ tk); [reflexivity|].
    destruct (t =? pad_token_id_ tk); [apply IH|].
    rewrite IH. f_equal.
    destruct pre as [|n pre']; cbn [app]; [|reflexivity].
    rewrite Z.eqb_refl. cbn [negb andb].
    rewrite !andb_false_r. reflexivity.
Qed.

(** [decode] ignores everything from the first end-of-sentence token on:
    appending that token and any further tokens to a sequence does not
    change the decoded text. *)
Theorem decode_stops_at_eos (tk : Tokenizer) (pre post : list Z) :
  bos_token_id_ tk <> eos_token_id_ tk ->
  decode tk (pre ++ eos_token_id_ tk :: post) = decode tk pre.
Proof.
  intros Hne. unfold decode. apply decode_loop_eos. exact Hne.
Qed.

Lemma decode_stops_at_eos_witness :
  let tk := Tokenizer_new "dummy.model" in
  decode tk ([1; 9900; 1917] ++ eos_token_id_ tk :: [5; 13]) =
  decode tk [1; 9900; 1917] /\
  decode tk [1; 9900; 1917] = "hello world"%string.
Proof.
  intros tk. split; [|reflexivity].
  apply (decode_stops_at_eos tk [1; 9900; 1917] [5; 13]).
  cbn. lia.
Defined.

Lemma encode_fold (ws : list string) (acc : list Z) :
  fold_left (fun tokens token => tokens ++ [encode_token token]) ws acc =
  acc ++ map encode_token ws.
Proof.
  revert acc. induction ws as [|w ws IH]; intros acc; cbn [fold_left map].
  - now rewrite app_nil_r.
  - rewrite IH, <- app_assoc. reflexivity.
Qed.

Lemma regex_matches_known (ws : list string) :
  Forall known_word ws ->
  regex_matches (join_words ws) EmptyString = ws.
Proof.
  induction ws as [|w ws IH]; intros Hk; [reflexivity|].
  inversion Hk as [|? ? Hw Hws]; subst.
  specialize (IH Hws).
  destruct ws as [|w2 ws'].
  - destruct Hw as [->|[->| ->]]; reflexivity.
  - change (join_words (w :: w2 :: ws'))
      with (String.append w (String.append " " (join_words (w2 :: ws')))).
    destruct Hw as [->|[->| ->]];
      cbn -[join_words]; rewrite IH; reflexivity.
Qed.

Lemma decode_step_known (vs : Z) (w : string) (rest : list Z) i result :
  known_word w ->
  decode_loop (mkTokenizer vs 1 2 0) i (encode_token w :: rest) result =
  decode_loop (mkTokenizer vs 1 2 0) (i + 1) rest
    match rest with
    | next_token :: _ =>
        if negb (next_token =? 13) && negb (next_token =? 11)
           && negb (next_token =? 2)
        then String.append (String.append result w) " "
        else String.append result w
    | [] => String.append result w
    end.
Proof.
  intros [->|[->| ->]]; reflexivity.
Qed.

Lemma encode_token_known w :
  known_word w ->
  negb (encode_token w =? 13) && negb (encode_token w =? 11)
  && negb (encode_token w =? 2) = true.
Proof. intros [->|[->| ->]]; reflexivity. Qed.

Lemma decode_known (vs : Z) (ws : list string) :
  Forall known_word ws ->
  forall i result,
    decode_loop (mkTokenizer vs 1 2 0) i (map encode_token ws ++ [2]) result =
    String.append result (join_words ws).
Proof.
  induction ws as [|w ws IH]; intros Hk i result.
  - cbn. now rewrite string_append_empty_r.
  - inversion Hk as [|? ? Hw Hws]; subst.
    specialize (IH Hws).
    change (map encode_token (w :: ws) ++ [2])
      with (encode_token w :: (map encode_token ws ++ [2])).
    rewrite (decode_step_known vs w _ i result Hw).
    destruct ws as [|w2 ws'].
    + cbn. reflexivity.
    + change (map encode_token (w2 :: ws') ++ [2])
        with (encode_token w2 :: (map encode_token ws' ++ [2])) at 2.
      cbv iota.
      inversion Hws as [|? ? Hw2 _]; subst.
      rewrite (encode_token_known w2 Hw2).
      rewrite IH.
      change (join_words (w :: w2 :: ws'))
        with (String.append w (String.append " " (join_words (w2 :: ws')))).
      rewrite !string_append_assoc. reflexivity.
Qed.

(** Round trip of the tokenizer on its known words: a text made of the
    words "hello", "world" and "the" separated by single spaces is encoded
    and decoded back to itself. *)
Theorem decode_encode_known_words (model_path : string) (ws : list string) :
  Forall known_word ws ->
  let tk := Tokenizer_new model_path in
  decode tk (encode tk (join_words ws)) = join_words ws.
Proof.
  intros Hk tk. unfold encode, decode.
  rewrite (regex_matches_known ws Hk), encode_fold.
  cbn [app bos_token_id_ eos_token_id_ tk Tokenizer_new decode_loop].
  cbn [Z.eqb Pos.eqb andb].
  apply (decode_known 32000 ws Hk).
Qed.

Lemma decode_encode_known_words_witness :
  let tk := Tokenizer_new "dummy.model" in
  encode tk "hello world" = [1; 9900; 1917; 2] /\
  decode tk (encode tk (join_words ["hello"; "world"]%string)) =
  join_words ["hello"; "world"]%string.
Proof.
  intros tk. split; [reflexivity|].
  apply (decode_encode_known_words "dummy.model" ["hello"; "world"]%string).
  constructor; [left; reflexivity|].
  constructor; [right; left; reflexivity|constructor].
Defined.
